(** * damage-calc: a shallow embedding of the probabilistic outcome engine

    The development follows the layout of the repository:

    - [Cache]    : [src/calc/cache.ts], the LRU damage cache;
    - [EvGrid]   : the EV grid and weighting engine ([buildEVGrid],
                   [normalizeWeights], [rankTopPlans], ...);
    - [Timeline] : the branch state machine ([simulateTimeline] and its
                   event processors);
    - [Worker]   : the job orchestrator ([runSimulation],
                   [evaluateGridPoints]).

    JavaScript numbers that carry probabilities, weights, hit points and
    percentages are modelled as exact rationals ([Qc], canonical fractions
    with Leibniz equality); effort values, counters and indices are
    integers.  Sums, differences, minima and maxima of these numbers are
    taken exactly.  Where the code takes [Math.floor] or [Math.round] of
    a product or of a quotient of numbers that need not be integers, the
    product and the quotient are rounded to the nearest binary64 value as
    the machine rounds them ([Num.mulDouble], [Num.divDouble]).  Infinity and NaN
    have no counterpart among the rationals.  The weighting functions
    whose results depend on rounding, overflow and NaN are embedded a
    second time on the machine's binary64 numbers: module [Doubles]. *)

From Stdlib Require Import ZArith QArith Qcanon Qround Lqa Lia.
From Stdlib Require Qabs Qcabs.
From Stdlib Require Floats.
From Stdlib Require Import Bool String Ascii DecimalString.
From Stdlib Require Import List Sorting Permutation.
From Equations Require Import Equations.
Import ListNotations.

Set Implicit Arguments.
Set Default Goal Selector "!".

Close Scope Q_scope.

(* ===================================================================== *)
(** * Part I: definitions                                                *)
(* ===================================================================== *)

(** ** JavaScript numbers as exact rationals *)

Module Num.

Local Open Scope Qc_scope.

Definition ofZ (z : Z) : Qc := Q2Qc (inject_Z z).
Definition ofNat (n : nat) : Qc := ofZ (Z.of_nat n).

(** [x <= y], [x < y] and [x === y] as the booleans the code branches on. *)
Definition leb (x y : Qc) : bool := Qle_bool x y.
Definition ltb (x y : Qc) : bool := negb (Qle_bool y x).
Definition eqb (x y : Qc) : bool := Qc_eq_bool x y.

(** [Math.max], [Math.min], [Math.abs], [Math.floor], [Math.ceil] and
    [Math.round] (which rounds halves up). *)
Definition max (x y : Qc) : Qc := if leb x y then y else x.
Definition min (x y : Qc) : Qc := if leb x y then x else y.
Definition abs (x : Qc) : Qc := Qcabs.Qcabs x.
Definition floor (x : Qc) : Z := Qfloor x.
Definition ceil (x : Qc) : Z := Qceiling x.
Definition round (x : Qc) : Z := Qfloor (x + Q2Qc (1 # 2)).

(** [xs.reduce((acc, x) => acc + x, 0)] *)
Definition sum (xs : list Qc) : Qc := fold_left Qcplus xs 0.

(** *** Rounding to binary64

    [floor(log2 x)] of a positive rational: the quotient of a numerator
    of [a + 1] bits by a denominator of [b + 1] bits lies strictly between
    [2^(a - b - 1)] and [2^(a - b + 1)]. *)
Definition log2Floor (x : Q) : Z :=
  let k := (Z.log2 (Qnum x) - Z.log2 (Zpos (Qden x)))%Z in
  if Qle_bool (Qpower 2 k) x then k else (k - 1)%Z.

(** The nearest integer, a tie going to the even one. *)
Definition roundHalfEven (y : Q) : Z :=
  let f := Qfloor y in
  match Qcompare (y - inject_Z f) (1 # 2) with
  | Lt => f
  | Gt => (f + 1)%Z
  | Eq => if Z.even f then f else (f + 1)%Z
  end.

(** The binary64 value nearest to a rational, a tie going to the even
    significand: 53 significant bits, the least exponent -1074 (so that
    small values are rounded to subnormal numbers).  A rational beyond
    the largest binary64 value, which the machine rounds to Infinity, is
    rounded here as if the exponent had no upper bound. *)
Definition double (x : Qc) : Qc :=
  if Qeq_bool x 0 then 0
  else
    let a := Qabs.Qabs x in
    let e := Z.max (log2Floor a - 52) (-1074) in
    let m := roundHalfEven (a / Qpower 2 e) in
    let r := (inject_Z m * Qpower 2 e)%Q in
    Q2Qc (if Qle_bool 0 x then r else Qopp r).

(** [x * y] and [x / y] as the machine computes them: the exact result
    for the binary64 values of the operands, rounded.  An operand that is
    given as a rational which is no binary64 value, such as 7/10 for the
    literal [0.7], stands for the binary64 value nearest to it. *)
Definition mulDouble (x y : Qc) : Qc := double (double x * double y).
Definition divDouble (x y : Qc) : Qc := double (double x / double y).

(** The rational that a finite binary64 number denotes. *)
Definition ofDouble (f : PrimFloat.float) : option Qc :=
  match FloatOps.Prim2SF f with
  | SpecFloat.S754_zero _ => Some 0
  | SpecFloat.S754_finite s m e =>
      let r := (inject_Z (Zpos m) * Qpower 2 e)%Q in
      Some (Q2Qc (if s then Qopp r else r))
  | _ => None
  end.

(** Array [sort(compareFn)]: the specification requires a stable sort, so
    for the consistent comparators used in this code base the result is
    that of a stable insertion sort.  [cmp a b <= 0] keeps [a] first. *)
Section Sort.
Variable A : Type.
Variable cmp : A -> A -> Qc.

Fixpoint insertBy (x : A) (l : list A) : list A :=
  match l with
  | [] => [x]
  | y :: rest =>
      if leb (cmp x y) 0 then x :: y :: rest else y :: insertBy x rest
  end.

Definition sortBy (l : list A) : list A := fold_right insertBy [] l.
End Sort.

(** Longest prefix satisfying a test, and what follows it. *)
Section Prefix.
Variable A : Type.
Variable p : A -> bool.

Fixpoint takeWhile (l : list A) : list A :=
  match l with
  | [] => []
  | x :: rest => if p x then x :: takeWhile rest else []
  end.

Fixpoint dropWhile (l : list A) : list A :=
  match l with
  | [] => []
  | x :: rest => if p x then dropWhile rest else l
  end.
End Prefix.

End Num.
(** ** The damage cache ([src/calc/cache.ts]) *)

Module Cache.

Section DamageCache.

(** [K] is [DamageCacheKey], [V] is [DamageComputation]; [serializeKey]
    is the [JSON.stringify] of the picked signature. *)
Variables K V : Type.
Variable serializeKey : K -> string.

(** A JavaScript [Map<string, V>]: iteration follows insertion order, so
    the store is an association list with the oldest insertion first. *)
Definition MapStore := list (string * V).

Fixpoint mapGet (id : string) (m : MapStore) : option V :=
  match m with
  | [] => None
  | (k, v) :: rest => if String.eqb k id then Some v else mapGet id rest
  end.

Definition mapHas (id : string) (m : MapStore) : bool :=
  match mapGet id m with Some _ => true | None => false end.

Fixpoint mapDelete (id : string) (m : MapStore) : MapStore :=
  match m with
  | [] => []
  | (k, v) :: rest =>
      if String.eqb k id then rest else (k, v) :: mapDelete id rest
  end.

(** [Map.prototype.set]: an existing key keeps its position, a new key
    goes to the end. *)
Fixpoint mapSet (id : string) (v : V) (m : MapStore) : MapStore :=
  match m with
  | [] => [(id, v)]
  | (k, w) :: rest =>
      if String.eqb k id then (k, v) :: rest else (k, w) :: mapSet id v rest
  end.

Definition mapSize (m : MapStore) : Z := Z.of_nat (length m).

(** [store.keys().next()] *)
Definition mapFirstKey (m : MapStore) : option string :=
  match m with [] => None | (k, _) :: _ => Some k end.

Definition DEFAULT_LIMIT : Z := 512.

Record DamageCache := mkCache { limit : Z; store : MapStore }.

(** [constructor(limit = DEFAULT_LIMIT)] *)
Definition new (l : option Z) : DamageCache :=
  {| limit := match l with Some n => n | None => DEFAULT_LIMIT end;
     store := [] |}.

Definition get (key : K) (c : DamageCache) : option V * DamageCache :=
  let id := serializeKey key in
  match mapGet id (store c) with
  | None => (None, c)
  | Some cached =>
      let s1 := mapDelete id (store c) in
      let s2 := mapSet id cached s1 in
      (Some cached, {| limit := limit c; store := s2 |})
  end.

Definition set (key : K) (value : V) (c : DamageCache) : DamageCache :=
  let id := serializeKey key in
  let s1 := if mapHas id (store c) then mapDelete id (store c) else store c in
  let s2 := mapSet id value s1 in
  let s3 :=
    if (mapSize s2 >? limit c)%Z then
      match mapFirstKey s2 with
      | Some oldest => mapDelete oldest s2
      | None => s2
      end
    else s2 in
  {| limit := limit c; store := s3 |}.

Definition clear (c : DamageCache) : DamageCache :=
  {| limit := limit c; store := [] |}.

(** *** Histories of cache operations

    Recency is defined from the history alone: the time of the last
    operation that names a key.  A [get] that misses names its key too,
    but such a key is not stored afterwards, so for stored keys the last
    naming operation is always a hit or a [set]. *)
Inductive Op := OpGet (key : K) | OpSet (key : K) (value : V).

Definition opId (o : Op) : string :=
  match o with OpGet k => serializeKey k | OpSet k _ => serializeKey k end.

Definition step (c : DamageCache) (o : Op) : DamageCache :=
  match o with
  | OpGet k => snd (get k c)
  | OpSet k v => set k v c
  end.

Definition run (c : DamageCache) (ops : list Op) : DamageCache :=
  fold_left step ops c.

(** Time (1-based position in the history) of the last operation naming
    [id]; [0] when none does. *)
Fixpoint lastUseFrom (t : nat) (ops : list Op) (id : string) : nat :=
  match ops with
  | [] => O
  | o :: rest =>
      match lastUseFrom (S t) rest id with
      | O => if String.eqb (opId o) id then t else O
      | n => n
      end
  end.

Definition lastUse (ops : list Op) (id : string) : nat :=
  lastUseFrom 1 ops id.

Definition keys (c : DamageCache) : list string := map fst (store c).

End DamageCache.

End Cache.
(** ** The EV grid and weighting engine *)

Module EvGrid.

Local Open Scope Qc_scope.

Inductive Kind := defense | offense.

Record EVGridPoint := mkPoint {
  hpEV : Z;
  defEV : Z;
  atkEV : option Z;
  spaEV : option Z;
  kind : option Kind;
  priorWeight : Qc;
  weight : Qc;
  survival : option Qc;
  koChance : option Qc;
  observationLikelihood : option Qc;
  damageRangeLikelihood : option Qc
}.

Definition setWeight (w : Qc) (p : EVGridPoint) : EVGridPoint :=
  mkPoint (hpEV p) (defEV p) (atkEV p) (spaEV p) (kind p) (priorWeight p) w
          (survival p) (koChance p) (observationLikelihood p)
          (damageRangeLikelihood p).

Definition setObservationLikelihood (l : Qc) (p : EVGridPoint) : EVGridPoint :=
  mkPoint (hpEV p) (defEV p) (atkEV p) (spaEV p) (kind p) (priorWeight p)
          (weight p) (survival p) (koChance p) (Some l)
          (damageRangeLikelihood p).

Record MetaProfile := mkProfile {
  hpMean : Qc;
  defMean : Qc;
  hpSigma : Qc;
  defSigma : Qc;
  correlation : option Qc
}.

Definition META_PROFILES : list (string * MetaProfile) :=
  [ ("bulky"%string,
     mkProfile (Num.ofZ 244) (Num.ofZ 108) (Num.ofZ 42) (Num.ofZ 36)
               (Some (Q2Qc (35 # 100))));
    ("balanced"%string,
     mkProfile (Num.ofZ 196) (Num.ofZ 92) (Num.ofZ 48) (Num.ofZ 40)
               (Some (Q2Qc (2 # 10))));
    ("agile"%string,
     mkProfile (Num.ofZ 164) (Num.ofZ 68) (Num.ofZ 50) (Num.ofZ 34)
               (Some (Q2Qc (1 # 10)))) ].

Definition balancedProfile : MetaProfile :=
  mkProfile (Num.ofZ 196) (Num.ofZ 92) (Num.ofZ 48) (Num.ofZ 40)
            (Some (Q2Qc (2 # 10))).

(** [META_PROFILES[key]] for a key that is one of the object's own three
    names or names nothing at all.  The names that every object inherits
    ([constructor], [toString], [valueOf], ...) are outside this model:
    for them the source finds the inherited member instead of falling back
    to the balanced profile and computes NaN, which has no rational
    counterpart. *)
Fixpoint lookupProfile (key : string) (l : list (string * MetaProfile))
  : option MetaProfile :=
  match l with
  | [] => None
  | (k, p) :: rest => if String.eqb k key then Some p else lookupProfile key rest
  end.

Record CustomWeight := mkCustom { cwHpEV : Z; cwDefEV : Z; cwWeight : Qc }.

(** [EVPriorType | EVPriorConfig]: a bare string or a configuration
    object. *)
Inductive Prior :=
| PriorName (name : string)
| PriorConfig (type : string) (customWeights : option (list CustomWeight))
              (metaProfile : option string).

(** The fields of [EVGridConfig] read by the grid builders. *)
Record EVGridConfig := mkConfig {
  hpRange : Z * Z;
  defRange : Z * Z;
  axisStep : Z;
  atkRange : option (Z * Z);
  spaRange : option (Z * Z);
  offenseStep : option Z;
  maxCombinedEV : option Z;
  offenseMaxCombinedEV : option Z;
  prior : Prior
}.

(** [points.reduce((acc, point) => acc + point.weight, 0)] *)
Definition totalWeight (points : list EVGridPoint) : Qc :=
  fold_left (fun acc point => acc + weight point) points 0.

(** [normalizeWeights]: the array is updated in place in the source; the
    model returns the updated array.  The sum and the quotients are taken
    without rounding error here; [Doubles.normalizeWeights] is the same
    function on binary64 numbers. *)
Definition normalizeWeights (points : list EVGridPoint) : list EVGridPoint :=
  let sum := totalWeight points in
  if Num.leb sum 0 then
    let uniform := 1 / Num.ofZ (Z.max (Z.of_nat (length points)) 1) in
    map (setWeight uniform) points
  else
    map (fun point => setWeight (weight point / sum) point) points.

(** [likelihoods[index] ?? 0] *)
Definition likelihoodAt (likelihoods : list Qc) (index : nat) : Qc :=
  nth index likelihoods 0.

(** [points.forEach((point, index) => ...)] of [applyObservationLikelihoods],
    starting at [index]. *)
Fixpoint applyLikelihoodsFrom (index : nat) (likelihoods : list Qc)
         (points : list EVGridPoint) : list EVGridPoint :=
  match points with
  | [] => []
  | point :: rest =>
      let likelihood := Num.max (likelihoodAt likelihoods index) 0 in
      setWeight (priorWeight point * likelihood)
                (setObservationLikelihood likelihood point)
      :: applyLikelihoodsFrom (S index) likelihoods rest
  end.

Definition applyObservationLikelihoods (points : list EVGridPoint)
           (likelihoods : option (list Qc)) : list EVGridPoint :=
  match likelihoods with
  | None => normalizeWeights points
  | Some ls => normalizeWeights (applyLikelihoodsFrom 0 ls points)
  end.

Section Priors.

(** [Math.exp], which has no rational model, is a parameter. *)
Variable Math_exp : Qc -> Qc.

Definition computeBivariateGaussian (hp def : Z) (profile : MetaProfile) : Qc :=
  let x := (Num.ofZ hp - hpMean profile) / hpSigma profile in
  let y := (Num.ofZ def - defMean profile) / defSigma profile in
  let rho := match correlation profile with Some r => r | None => 0 end in
  let exponent :=
    (- (1)) / (Num.ofZ 2 * (1 - rho * rho))
    * (x * x - Num.ofZ 2 * rho * x * y + y * y) in
  Math_exp exponent.

Definition computePriorWeight (config : EVGridConfig) (hp def : Z) : Qc :=
  let type := match prior config with
              | PriorName s => s
              | PriorConfig t _ _ => t
              end in
  if String.eqb type "uniform" then 1
  else
    let viaProfile :=
      let metaProfileKey :=
        match prior config with
        | PriorName s => s
        | PriorConfig _ _ (Some m) => m
        | PriorConfig _ _ None => "balanced"%string
        end in
      let profile :=
        match lookupProfile metaProfileKey META_PROFILES with
        | Some p => p
        | None => balancedProfile
        end in
      computeBivariateGaussian hp def profile in
    if String.eqb type "custom" then
      match prior config with
      | PriorConfig _ (Some (c :: cs)) _ =>
          match find (fun entry => Z.eqb (cwHpEV entry) hp
                                   && Z.eqb (cwDefEV entry) def) (c :: cs) with
          | Some m => Num.max (cwWeight m) 0
          | None => Q2Qc (1 # 1000000)
          end
      | _ => viaProfile
      end
    else viaProfile.

(** The iteration values of [for (v = lo; v <= hi; v += step)].  The loop
    is run with fuel: [None] means that it was still running when the
    fuel ran out. *)
Fixpoint forRange (fuel : nat) (step v hi : Z) : option (list Z) :=
  match fuel with
  | O => None
  | S fuel' =>
      if (v <=? hi)%Z then
        match forRange fuel' step (v + step) hi with
        | Some rest => Some (v :: rest)
        | None => None
        end
      else Some []
  end.

Definition exceeds (limit : option Z) (total : Z) : bool :=
  match limit with
  | Some l => (total >? l)%Z
  | None => false
  end.

Definition defensePoint (config : EVGridConfig) (hp def : Z) : EVGridPoint :=
  let prior := computePriorWeight config hp def in
  mkPoint hp def None None (Some defense) prior prior None None None None.

Definition buildEVGrid (fuel : nat) (config : EVGridConfig)
  : option (list EVGridPoint) :=
  let '(hpMin, hpMax) := hpRange config in
  let '(defMin, defMax) := defRange config in
  let step := Z.max 4 (axisStep config) in
  match forRange fuel step hpMin hpMax, forRange fuel step defMin defMax with
  | Some hps, Some defs =>
      Some (normalizeWeights
              (flat_map
                 (fun hp =>
                    flat_map
                      (fun def =>
                         if exceeds (maxCombinedEV config) (hp + def)
                         then [] else [defensePoint config hp def])
                      defs)
                 hps))
  | _, _ => None
  end.

Definition offensePoint (atk spa : Z) : EVGridPoint :=
  mkPoint 0 0 (Some atk) (Some spa) (Some offense) 1 1 None None None None.

Definition buildOffenseEVGrid (fuel : nat) (config : EVGridConfig)
  : option (list EVGridPoint) :=
  let atkR := match atkRange config with Some r => r | None => (0, 252)%Z end in
  let spaR := match spaRange config with Some r => r | None => (0, 252)%Z end in
  let step := Z.max 4 (match offenseStep config with
                       | Some s => s
                       | None => axisStep config
                       end) in
  let limit := match offenseMaxCombinedEV config with
               | Some l => Some l
               | None => maxCombinedEV config
               end in
  match forRange fuel step (fst atkR) (snd atkR),
        forRange fuel step (fst spaR) (snd spaR) with
  | Some atks, Some spas =>
      Some (normalizeWeights
              (flat_map
                 (fun atk =>
                    flat_map
                      (fun spa =>
                         if exceeds limit (atk + spa)
                         then [] else [offensePoint atk spa])
                      spas)
                 atks))
  | _, _ => None
  end.

End Priors.

(** *** Aggregation and ranking *)

Definition orZero (x : option Qc) : Qc :=
  match x with Some v => v | None => 0 end.



Record EVPlan := mkPlan {
  planHpEV : Z;
  planDefEV : Z;
  planSurvival : Qc;
  planInvestment : Z;
  planTotalEV : Z;
  planMeetsTarget : bool
}.

Definition toPlan (point : EVGridPoint) : EVPlan :=
  mkPlan (hpEV point) (defEV point) (orZero (survival point))
         (hpEV point + defEV point) (hpEV point + defEV point) false.

(** The object literal built at the end of [rankTopPlans]. *)
Definition toQualifiedPlan (point : EVGridPoint) : EVPlan :=
  mkPlan (hpEV point) (defEV point) (orZero (survival point))
         (hpEV point + defEV point) (hpEV point + defEV point) true.

Definition TARGET_EPS : Qc := Q2Qc (1 # 10000).
Definition MIN_EV_EPS : Qc := Q2Qc (1 # 1000000).

Definition totalInvestment (point : EVGridPoint) : Z := (hpEV point + defEV point)%Z.

(** [(point.survival ?? 0) >= target - 1e-4] *)
Definition meetsSurvival (target : Qc) (point : EVGridPoint) : bool :=
  Num.leb (target - TARGET_EPS) (orZero (survival point)).

Definition bySurvivalDesc (a b : EVGridPoint) : Qc :=
  orZero (survival b) - orZero (survival a).

Definition byInvestmentThenSurvival (a b : EVGridPoint) : Qc :=
  let totalA := totalInvestment a in
  let totalB := totalInvestment b in
  if negb (Z.eqb totalA totalB) then Num.ofZ (totalA - totalB)
  else orZero (survival b) - orZero (survival a).

(** [!target || target <= 0] *)
Definition noTarget (target : option Qc) : bool :=
  match target with
  | None => true
  | Some t => Num.eqb t 0 || Num.leb t 0
  end.

Definition rankTopPlans (points : list EVGridPoint) (target : option Qc)
  : list EVPlan :=
  match target with
  | Some t =>
      if noTarget target then
        map toPlan (firstn 3 (Num.sortBy bySurvivalDesc points))
      else
        let candidates :=
          Num.sortBy byInvestmentThenSurvival (filter (meetsSurvival t) points) in
        match candidates with
        | [] => []
        | first :: _ =>
            let minTotal := totalInvestment first in
            let minimalCandidates :=
              filter (fun point =>
                        Num.leb (Num.abs (Num.ofZ (totalInvestment point - minTotal)))
                                MIN_EV_EPS)
                     candidates in
            map toQualifiedPlan minimalCandidates
        end
  | None => map toPlan (firstn 3 (Num.sortBy bySurvivalDesc points))
  end.

Record OffenseEntry := mkEntry {
  entryAtkEV : Z;
  entrySpaEV : Z;
  entryKoChance : Qc;
  entryTotalEV : Z
}.

Record EVOffensePlan := mkOffensePlan {
  offAtkEV : Z;
  offSpaEV : Z;
  offKoChance : Qc;
  offTotalEV : Z;
  offMeetsTarget : bool
}.

Definition orZeroZ (x : option Z) : Z :=
  match x with Some v => v | None => 0%Z end.

Definition isOffense (point : EVGridPoint) : bool :=
  match kind point with Some offense => true | _ => false end.

(** [typeof point.koChance === "number"] *)
Definition hasKoChance (point : EVGridPoint) : bool :=
  match koChance point with Some _ => true | None => false end.

Definition toEntry (point : EVGridPoint) : OffenseEntry :=
  mkEntry (orZeroZ (atkEV point)) (orZeroZ (spaEV point))
          (orZero (koChance point))
          (orZeroZ (atkEV point) + orZeroZ (spaEV point)).

Definition hasTarget (target : option Qc) : bool := negb (noTarget target).

Definition meetsKo (target : option Qc) (entry : OffenseEntry) : bool :=
  match target with
  | Some t => if hasTarget target
              then Num.leb (t - TARGET_EPS) (entryKoChance entry) else false
  | None => false
  end.

Definition byKoThenInvestment (a b : OffenseEntry) : Qc :=
  if negb (Num.eqb (entryKoChance b) (entryKoChance a))
  then entryKoChance b - entryKoChance a
  else if negb (Z.eqb (entryTotalEV a) (entryTotalEV b))
  then Num.ofZ (entryTotalEV a - entryTotalEV b)
  else if negb (Z.eqb (entryAtkEV a) (entryAtkEV b))
  then Num.ofZ (entryAtkEV a - entryAtkEV b)
  else Num.ofZ (entrySpaEV a - entrySpaEV b).

Definition KO_EPS : Qc := Q2Qc (1 # 10000).
Definition EV_EPS : Qc := Q2Qc (1 # 1000000).

Definition sameTier (currentChance : Qc) (entry : OffenseEntry) : bool :=
  Num.leb (Num.abs (entryKoChance entry - currentChance)) KO_EPS.

(** [for (const entry of minimal) { selected.push(entry); if (selected.length >= 3) break; }] *)
Fixpoint pushUntilThree (selected minimal : list OffenseEntry) : list OffenseEntry :=
  match minimal with
  | [] => selected
  | entry :: rest =>
      let selected' := selected ++ [entry] in
      if (3 <=? length selected')%nat then selected'
      else pushUntilThree selected' rest
  end.

(** [Math.min(...chanceGroup.map(entry => entry.totalEV))]; the group is
    never empty when this is evaluated. *)
Definition minTotalEV (group : list OffenseEntry) : option Z :=
  match group with
  | [] => None
  | entry :: rest =>
      Some (fold_left (fun acc e => Z.min acc (entryTotalEV e)) rest (entryTotalEV entry))
  end.

Definition minimalOf (group : list OffenseEntry) : list OffenseEntry :=
  match minTotalEV group with
  | None => []
  | Some minEV =>
      filter (fun entry =>
                Num.leb (Num.abs (Num.ofZ (entryTotalEV entry - minEV))) EV_EPS)
             group
  end.

Lemma sameTier_refl (entry : OffenseEntry) : sameTier (entryKoChance entry) entry = true.
Proof.
  unfold sameTier. replace (entryKoChance entry - entryKoChance entry) with 0 by ring.
  reflexivity.
Qed.

Lemma dropWhile_length (A : Type) (p : A -> bool) (l : list A) :
  (length (Num.dropWhile p l) <= length l)%nat.
Proof.
  induction l as [|x l IH]; simpl; auto. destruct (p x); simpl; lia.
Qed.

(** The outer [while (index < pool.length && selected.length < 3)] loop:
    [pool] is what remains from [index] on. *)
Equations? selectTiers (pool : list OffenseEntry) (selected : list OffenseEntry)
  : list OffenseEntry by wf (length pool) lt :=
  selectTiers [] selected := selected;
  selectTiers (first :: rest) selected :=
    if (length selected <? 3)%nat then
      let currentChance := entryKoChance first in
      let chanceGroup := Num.takeWhile (sameTier currentChance) (first :: rest) in
      selectTiers (Num.dropWhile (sameTier currentChance) (first :: rest))
                  (pushUntilThree selected (minimalOf chanceGroup))
    else selected.
Proof.
  clear chanceGroup. subst currentChance. rewrite sameTier_refl.
  pose proof (dropWhile_length (sameTier (entryKoChance first)) rest). lia.
Qed.

Definition toOffensePlan (target : option Qc) (entry : OffenseEntry) : EVOffensePlan :=
  mkOffensePlan (entryAtkEV entry) (entrySpaEV entry) (entryKoChance entry)
                (entryTotalEV entry) (meetsKo target entry).

Definition rankOffensePlans (points : list EVGridPoint) (target : option Qc)
  : list EVOffensePlan :=
  let offensePoints := filter isOffense points in
  let sortable := map toEntry (filter hasKoChance offensePoints) in
  match sortable with
  | [] => []
  | _ :: _ =>
      let baseSorted := Num.sortBy byKoThenInvestment sortable in
      let pool := if hasTarget target then filter (meetsKo target) baseSorted
                  else baseSorted in
      let pool := match pool with [] => baseSorted | _ :: _ => pool end in
      map (toOffensePlan target) (selectTiers pool [])
  end.

End EvGrid.
(** ** The branch state machine (timeline simulator) *)

Module Timeline.

Local Open Scope Qc_scope.

(** *** Data model ([src/calc/types.ts]) *)

Inductive BattleSide := player | opponent.

Definition sideEqb (a b : BattleSide) : bool :=
  match a, b with
  | player, player | opponent, opponent => true
  | _, _ => false
  end.

Definition otherSide (s : BattleSide) : BattleSide :=
  match s with player => opponent | opponent => player end.

(** [Record<BattleSide, A>] *)
Record PerSide (A : Type) := mkSides { onPlayer : A; onOpponent : A }.

Definition sideGet (A : Type) (r : PerSide A) (s : BattleSide) : A :=
  match s with player => onPlayer r | opponent => onOpponent r end.

Definition sideSet (A : Type) (r : PerSide A) (s : BattleSide) (v : A) : PerSide A :=
  match s with
  | player => mkSides v (onOpponent r)
  | opponent => mkSides (onPlayer r) v
  end.

Inductive TeraMode := teraNone | teraTera | teraStellar | teraNormal.

Definition teraModeEqb (a b : TeraMode) : bool :=
  match a, b with
  | teraNone, teraNone | teraTera, teraTera
  | teraStellar, teraStellar | teraNormal, teraNormal => true
  | _, _ => false
  end.

Record StatsTable (A : Type) := mkStats {
  stHp : A; stAtk : A; stDef : A; stSpa : A; stSpd : A; stSpe : A
}.

Definition statsMap2 (A B C : Type) (f : A -> B -> C)
           (x : StatsTable A) (y : StatsTable B) : StatsTable C :=
  mkStats (f (stHp x) (stHp y)) (f (stAtk x) (stAtk y)) (f (stDef x) (stDef y))
          (f (stSpa x) (stSpa y)) (f (stSpd x) (stSpd y)) (f (stSpe x) (stSpe y)).

(** [Partial<StatsTable<number>>] *)
Definition Boosts := StatsTable (option Z).

Definition noBoosts : Boosts := mkStats None None None None None None.

Record PokemonState := mkPokemon {
  pkId : option string;
  pkSpecies : string;
  pkLevel : Z;
  pkNature : string;
  pkAbility : option string;
  pkItem : option string;
  pkTeraType : option string;
  pkTeraMode : option TeraMode;
  pkIvs : StatsTable Z;
  pkEvs : StatsTable Z;
  pkBoosts : option Boosts;
  pkCurrentHP : option Qc;
  pkMaxHP : option Qc;
  pkTypes : option (list string);
  pkStatus : option string;
  pkOverrides : option (option (StatsTable Z))
}.

Record SideState := mkSideState {
  ssIsReflect : option bool;
  ssIsLightScreen : option bool;
  ssIsAuroraVeil : option bool;
  ssIsProtected : option bool;
  ssIsTailwind : option bool;
  ssIsHelpingHand : option bool;
  ssIsBattery : option bool;
  ssIsPowerSpot : option bool;
  ssIsFriendGuard : option bool;
  ssIsFlowerGift : option bool;
  ssSpikes : option Z
}.

(** The global flags of [FieldState] that no function of the simulator
    reads or writes. *)
Record FieldFlags := mkFieldFlags {
  ffWonderRoom : option bool;
  ffMagicRoom : option bool;
  ffIsBeadsOfRuin : option bool;
  ffIsSwordOfRuin : option bool;
  ffIsTabletsOfRuin : option bool;
  ffIsVesselOfRuin : option bool;
  ffIsAuraBreak : option bool;
  ffIsFairyAura : option bool;
  ffIsDarkAura : option bool;
  ffIsReflect : option bool;
  ffIsLightScreen : option bool;
  ffIsAuroraVeil : option bool;
  ffIsProtected : option (PerSide bool)
}.

Record FieldState := mkField {
  fsWeather : option string;
  fsTerrain : option string;
  fsTrickRoom : option bool;
  fsFlags : FieldFlags;
  fsAttackerSide : option SideState;
  fsDefenderSide : option SideState
}.

Inductive MoveCategory := physical | special | statusMove.

Record MoveOverrides := mkMoveOverrides {
  moType : option string;
  moPower : option Qc;
  moCategory : option MoveCategory
}.

Record MoveConfig := mkMove {
  mvName : string;
  mvType : option string;
  mvPower : option Qc;
  mvCategory : option MoveCategory;
  mvTeraMode : option TeraMode;
  mvTeraType : option string;
  mvIsCrit : option bool;
  mvHits : option Z;
  mvPriority : option Z;
  mvDrainPercent : option Qc;
  mvRecoilPercent : option Qc;
  mvTimesUsed : option Z;
  mvTimesUsedWithMetronome : option Z;
  mvUseZMove : option bool;
  mvUseMaxMove : option bool;
  mvStellarFirstUse : option bool;
  mvOverrides : option MoveOverrides
}.

(** [DamageRollOutcome] and [DamageComputation] ([src/calc/engine.ts]); the
    calculator's own [Result] object is not read by the simulator. *)
Record DamageRollOutcome := mkRoll {
  rollIndex : Z;
  rollDamage : Qc;
  rollPercent : Qc;
  rollDefenderHP : Qc;
  rollDrain : option Qc;
  rollRecoil : option Qc
}.

Record DamageComputation := mkComputation {
  rolls : list DamageRollOutcome;
  compMove : MoveConfig;
  compAttacker : PokemonState;
  compDefender : PokemonState
}.

Record DamageCacheKey := mkCacheKey {
  keyAttacker : PokemonState;
  keyDefender : PokemonState;
  keyMove : MoveConfig;
  keyField : FieldState;
  keyActorSide : BattleSide
}.

Inductive TurnTiming := turnStart | actionTiming | turnEnd.

Definition timingEqb (a b : TurnTiming) : bool :=
  match a, b with
  | turnStart, turnStart | actionTiming, actionTiming | turnEnd, turnEnd => true
  | _, _ => false
  end.

(** The fields shared by every event: [id], [label], [timing] and
    [relatedActionId] ([actionId] and [notes] are never read). *)
Record EventMeta := mkMeta {
  evId : option string;
  evLabel : option string;
  evTiming : option TurnTiming;
  evRelatedActionId : option string
}.

Record AttackEvent := mkAttack {
  atMeta : EventMeta;
  atActor : BattleSide;
  atMove : MoveConfig;
  atTarget : option BattleSide
}.

Inductive HealAmount :=
| healNumber (amount : Qc)
| healFraction
| healRange (min max : Qc).

Record HealingEvent := mkHealing {
  heMeta : EventMeta;
  heActor : option BattleSide;
  heAmount : HealAmount;
  heFraction : option Qc;
  heFractionNumerator : option Qc;
  heFractionDenominator : option Qc
}.

Inductive AdjustMode :=
| absolute | percentMax | percentLastDamage | fractionMax | fractionLastDamage.

Record HpAdjustmentEvent := mkHpAdjustment {
  haMeta : EventMeta;
  haActor : BattleSide;
  haTarget : option BattleSide;
  haAmount : Qc;
  haIsDamage : option bool;
  haMode : option AdjustMode;
  haFractionNumerator : option Qc;
  haFractionDenominator : option Qc
}.

Record StatChangeEvent := mkStatChange {
  scMeta : EventMeta;
  scActor : option BattleSide;
  scStages : StatsTable (option Z)
}.

Record StatusEvent := mkStatus {
  suMeta : EventMeta;
  suActor : option BattleSide;
  suStatus : option string;
  suClears : option bool
}.

(** Of the [field] payload only [weather], [terrain] and [trickRoom] are
    read by [mergeFieldStates]. *)
Record FieldPatch := mkPatch {
  fpWeather : option string;
  fpTerrain : option string;
  fpTrickRoom : option bool
}.

Record FieldToggleEvent := mkFieldToggle {
  ftMeta : EventMeta;
  ftField : option FieldPatch
}.

(** The [pokemon] payload of a switch is never read: the replacement keeps
    the stats of the combatant it replaces. *)
Record SwitchEvent := mkSwitch {
  swMeta : EventMeta;
  swActor : option BattleSide;
  swTargetSpecies : option string;
  swSetHpPercent : option Qc;
  swAbility : option string;
  swItem : option string
}.

Inductive BattleEvent :=
| attackEvent (e : AttackEvent)
| healingEvent (e : HealingEvent)
| hpAdjustmentEvent (e : HpAdjustmentEvent)
| statChangeEvent (e : StatChangeEvent)
| statusEvent (e : StatusEvent)
| fieldToggleEvent (e : FieldToggleEvent)
| switchEvent (e : SwitchEvent)
| abilityActivationEvent (meta : EventMeta).

Record MoveAction := mkMoveAction {
  maId : string;
  maActor : BattleSide;
  maMove : MoveConfig;
  maTarget : option BattleSide;
  maTeraMode : option TeraMode;
  maTeraType : option string
}.

Record SwitchAction := mkSwitchAction {
  saId : string;
  saActor : BattleSide;
  saTargetSpecies : option string;
  saSetHpPercent : option Qc;
  saAbility : option string;
  saItem : option string
}.

Inductive BattleAction :=
| moveAction (a : MoveAction)
| switchAction (a : SwitchAction)
| passAction (id : string) (actor : BattleSide).

Record TimelineTurn := mkTurn {
  turnOrder : option BattleSide;
  turnNumber : Z;
  turnEvents : option (list BattleEvent);
  turnActions : option (list BattleAction)
}.

Record TimelineScenario := mkScenario {
  scenarioAllowRaidStellar : option bool;
  turns : list TimelineTurn
}.

Definition MAX_TIMELINE_TURNS : nat := 5.

Inductive BattleStyle := singles | doubles.

(** Of [SimulationOptions] the simulator reads [battleStyle] only. *)
Record SimulationOptions := mkOptions { battleStyle : option BattleStyle }.

Record TimelineExecutionOptions := mkExecution {
  observationEventId : option string;
  observationRange : option (Qc * Qc);
  allowRaidStellar : option bool
}.

Record DistributionPoint := mkDist { distHp : Z; distProbability : Qc }.

Record BranchState := mkBranch {
  pokemon : PerSide PokemonState;
  hp : PerSide Qc;
  maxHP : PerSide Qc;
  teraMode : PerSide TeraMode;
  teraType : PerSide (option string);
  stellarUsage : PerSide (list string);
  lastDamage : PerSide Qc;
  field : FieldState;
  probability : Qc;
  terminated : bool
}.

(** *** Record updates *)

Definition withPokemon (v : PerSide PokemonState) (b : BranchState) : BranchState :=
  mkBranch v (hp b) (maxHP b) (teraMode b) (teraType b) (stellarUsage b)
           (lastDamage b) (field b) (probability b) (terminated b).

Definition withHp (v : PerSide Qc) (b : BranchState) : BranchState :=
  mkBranch (pokemon b) v (maxHP b) (teraMode b) (teraType b) (stellarUsage b)
           (lastDamage b) (field b) (probability b) (terminated b).

Definition withTeraMode (v : PerSide TeraMode) (b : BranchState) : BranchState :=
  mkBranch (pokemon b) (hp b) (maxHP b) v (teraType b) (stellarUsage b)
           (lastDamage b) (field b) (probability b) (terminated b).

Definition withTeraType (v : PerSide (option string)) (b : BranchState) : BranchState :=
  mkBranch (pokemon b) (hp b) (maxHP b) (teraMode b) v (stellarUsage b)
           (lastDamage b) (field b) (probability b) (terminated b).

Definition withStellarUsage (v : PerSide (list string)) (b : BranchState) : BranchState :=
  mkBranch (pokemon b) (hp b) (maxHP b) (teraMode b) (teraType b) v
           (lastDamage b) (field b) (probability b) (terminated b).

Definition withLastDamage (v : PerSide Qc) (b : BranchState) : BranchState :=
  mkBranch (pokemon b) (hp b) (maxHP b) (teraMode b) (teraType b) (stellarUsage b)
           v (field b) (probability b) (terminated b).

Definition withField (v : FieldState) (b : BranchState) : BranchState :=
  mkBranch (pokemon b) (hp b) (maxHP b) (teraMode b) (teraType b) (stellarUsage b)
           (lastDamage b) v (probability b) (terminated b).

Definition withProbability (v : Qc) (b : BranchState) : BranchState :=
  mkBranch (pokemon b) (hp b) (maxHP b) (teraMode b) (teraType b) (stellarUsage b)
           (lastDamage b) (field b) v (terminated b).

Definition withTerminated (v : bool) (b : BranchState) : BranchState :=
  mkBranch (pokemon b) (hp b) (maxHP b) (teraMode b) (teraType b) (stellarUsage b)
           (lastDamage b) (field b) (probability b) v.

Definition pkWithHP (current maxv : option Qc) (p : PokemonState) : PokemonState :=
  mkPokemon (pkId p) (pkSpecies p) (pkLevel p) (pkNature p) (pkAbility p)
            (pkItem p) (pkTeraType p) (pkTeraMode p) (pkIvs p) (pkEvs p)
            (pkBoosts p) current maxv (pkTypes p) (pkStatus p) (pkOverrides p).

Definition pkWithCurrentHP (current : Qc) (p : PokemonState) : PokemonState :=
  pkWithHP (Some current) (pkMaxHP p) p.

Definition pkWithBoosts (v : option Boosts) (p : PokemonState) : PokemonState :=
  mkPokemon (pkId p) (pkSpecies p) (pkLevel p) (pkNature p) (pkAbility p)
            (pkItem p) (pkTeraType p) (pkTeraMode p) (pkIvs p) (pkEvs p)
            v (pkCurrentHP p) (pkMaxHP p) (pkTypes p) (pkStatus p) (pkOverrides p).

Definition pkWithStatus (v : option string) (p : PokemonState) : PokemonState :=
  mkPokemon (pkId p) (pkSpecies p) (pkLevel p) (pkNature p) (pkAbility p)
            (pkItem p) (pkTeraType p) (pkTeraMode p) (pkIvs p) (pkEvs p)
            (pkBoosts p) (pkCurrentHP p) (pkMaxHP p) (pkTypes p) v (pkOverrides p).

Definition pkWithTera (mode : option TeraMode) (type : option string)
           (p : PokemonState) : PokemonState :=
  mkPokemon (pkId p) (pkSpecies p) (pkLevel p) (pkNature p) (pkAbility p)
            (pkItem p) type mode (pkIvs p) (pkEvs p)
            (pkBoosts p) (pkCurrentHP p) (pkMaxHP p) (pkTypes p) (pkStatus p)
            (pkOverrides p).

(** [a ?? b] *)
Definition orElse (A : Type) (a : option A) (b : A) : A :=
  match a with Some v => v | None => b end.

Definition orElseOpt (A : Type) (a b : option A) : option A :=
  match a with Some v => Some v | None => b end.

(** Truthiness of an optional string and of an optional boolean. *)
Definition truthyString (s : option string) : bool :=
  match s with Some v => negb (String.eqb v "") | None => false end.

Definition truthyBool (b : option bool) : bool :=
  match b with Some v => v | None => false end.

(** Truthiness of an optional number ([0] is falsy). *)
Definition truthyNumber (x : option Qc) : bool :=
  match x with Some v => negb (Num.eqb v 0) | None => false end.

(** [a === b] on optional strings, [undefined === undefined] included. *)
Definition sameId (a b : option string) : bool :=
  match a, b with
  | Some x, Some y => String.eqb x y
  | None, None => true
  | _, _ => false
  end.

(** *** Cloning *)

(** The deep copies are identities on values, except that
    [clonePokemonState] turns absent boosts into an empty table. *)
Definition clonePokemonState (state : PokemonState) : PokemonState :=
  pkWithBoosts (Some (orElse (pkBoosts state) noBoosts)) state.

Definition cloneSideState (side : option SideState) : option SideState :=
  match side with
  | None => None
  | Some s =>
      Some (mkSideState (ssIsReflect s) (ssIsLightScreen s) (ssIsAuroraVeil s)
                        (ssIsProtected s) (ssIsTailwind s) (ssIsHelpingHand s)
                        (ssIsBattery s) (ssIsPowerSpot s) (ssIsFriendGuard s)
                        (ssIsFlowerGift s) (ssSpikes s))
  end.

Definition cloneFieldState (f : FieldState) : FieldState :=
  mkField (fsWeather f) (fsTerrain f) (fsTrickRoom f) (fsFlags f)
          (cloneSideState (fsAttackerSide f)) (cloneSideState (fsDefenderSide f)).

Definition cloneBranch (branch : BranchState) : BranchState :=
  mkBranch
    (mkSides (clonePokemonState (onPlayer (pokemon branch)))
             (clonePokemonState (onOpponent (pokemon branch))))
    (hp branch) (maxHP branch) (teraMode branch) (teraType branch)
    (stellarUsage branch) (lastDamage branch)
    (cloneFieldState (field branch))
    (probability branch) (terminated branch).

Definition createInitialBranch (pokemon0 : PerSide PokemonState)
           (field0 : FieldState) : BranchState :=
  let playerP := clonePokemonState (onPlayer pokemon0) in
  let opponentP := clonePokemonState (onOpponent pokemon0) in
  let playerMax := orElse (orElseOpt (pkMaxHP playerP) (pkCurrentHP playerP)) 1 in
  let opponentMax := orElse (orElseOpt (pkMaxHP opponentP) (pkCurrentHP opponentP)) 1 in
  let playerHp := orElse (pkCurrentHP playerP) playerMax in
  let opponentHp := orElse (pkCurrentHP opponentP) opponentMax in
  mkBranch
    (mkSides (pkWithHP (Some playerHp) (Some playerMax) playerP)
             (pkWithHP (Some opponentHp) (Some opponentMax) opponentP))
    (mkSides playerHp opponentHp)
    (mkSides playerMax opponentMax)
    (mkSides (orElse (pkTeraMode playerP) teraNone)
             (orElse (pkTeraMode opponentP) teraNone))
    (mkSides (pkTeraType playerP) (pkTeraType opponentP))
    (mkSides [] [])
    (mkSides 0 0)
    (cloneFieldState field0)
    1 false.

(** Writes of [branch.hp[side]] that are mirrored into
    [branch.pokemon[side].currentHP]. *)
Definition setSideHp (side : BattleSide) (v : Qc) (b : BranchState) : BranchState :=
  withPokemon (sideSet (pokemon b) side (pkWithCurrentHP v (sideGet (pokemon b) side)))
              (withHp (sideSet (hp b) side v) b).

(** *** Helpers of the event processors *)

Definition resolveFractionValue (numerator denominator fallback : option Qc)
  : option Qc :=
  match fallback with
  | Some f => Some f
  | None =>
      match denominator with
      | Some d =>
          if Num.eqb d 0 then None
          else Some (Num.divDouble (orElse numerator 1) d)
      | None => None
      end
  end.

Definition clampStage (value : Z) : Z := Z.max (-6) (Z.min 6 value).

Definition mergeFieldStates (base : FieldState) (updates : FieldPatch) : FieldState :=
  let merged := cloneFieldState base in
  mkField (orElseOpt (fpWeather updates) (fsWeather merged))
          (orElseOpt (fpTerrain updates) (fsTerrain merged))
          (orElseOpt (fpTrickRoom updates) (fsTrickRoom merged))
          (fsFlags merged) (fsAttackerSide merged) (fsDefenderSide merged).

Definition emptyPatch : FieldPatch := mkPatch None None None.

Definition eventMeta (event : BattleEvent) : EventMeta :=
  match event with
  | attackEvent e => atMeta e
  | healingEvent e => heMeta e
  | hpAdjustmentEvent e => haMeta e
  | statChangeEvent e => scMeta e
  | statusEvent e => suMeta e
  | fieldToggleEvent e => ftMeta e
  | switchEvent e => swMeta e
  | abilityActivationEvent m => m
  end.

Definition resolveTiming (event : BattleEvent) : TurnTiming :=
  orElse (evTiming (eventMeta event)) actionTiming.

Definition metaWithTiming (t : TurnTiming) (m : EventMeta) : EventMeta :=
  mkMeta (evId m) (evLabel m) (Some t) (evRelatedActionId m).

Definition normalizeEvent (event : BattleEvent) : BattleEvent :=
  match evTiming (eventMeta event) with
  | Some _ => event
  | None =>
      let t := resolveTiming event in
      match event with
      | attackEvent e =>
          attackEvent (mkAttack (metaWithTiming t (atMeta e)) (atActor e)
                                (atMove e) (atTarget e))
      | healingEvent e =>
          healingEvent (mkHealing (metaWithTiming t (heMeta e)) (heActor e)
                                  (heAmount e) (heFraction e)
                                  (heFractionNumerator e) (heFractionDenominator e))
      | hpAdjustmentEvent e =>
          hpAdjustmentEvent
            (mkHpAdjustment (metaWithTiming t (haMeta e)) (haActor e) (haTarget e)
                            (haAmount e) (haIsDamage e) (haMode e)
                            (haFractionNumerator e) (haFractionDenominator e))
      | statChangeEvent e =>
          statChangeEvent (mkStatChange (metaWithTiming t (scMeta e)) (scActor e)
                                        (scStages e))
      | statusEvent e =>
          statusEvent (mkStatus (metaWithTiming t (suMeta e)) (suActor e)
                                (suStatus e) (suClears e))
      | fieldToggleEvent e =>
          fieldToggleEvent (mkFieldToggle (metaWithTiming t (ftMeta e)) (ftField e))
      | switchEvent e =>
          switchEvent (mkSwitch (metaWithTiming t (swMeta e)) (swActor e)
                                (swTargetSpecies e) (swSetHpPercent e)
                                (swAbility e) (swItem e))
      | abilityActivationEvent m => abilityActivationEvent (metaWithTiming t m)
      end
  end.
(** *** Event processors that do not roll damage *)

Definition updateBoost (current delta : option Z) : option Z :=
  match delta with
  | None => current
  | Some d =>
      let next := clampStage (orElse current 0%Z + d) in
      if (next =? 0)%Z then None else Some next
  end.

Definition processStatChange (event : StatChangeEvent) (branches : list BranchState)
  : list BranchState :=
  match scActor event with
  | None => branches
  | Some side =>
      map (fun branch =>
             if terminated branch then branch
             else
               let clone := cloneBranch branch in
               let boosts :=
                 statsMap2 updateBoost
                           (orElse (pkBoosts (sideGet (pokemon clone) side)) noBoosts)
                           (scStages event) in
               withPokemon
                 (sideSet (pokemon clone) side
                          (pkWithBoosts (Some boosts) (sideGet (pokemon clone) side)))
                 clone)
          branches
  end.

Definition floorQ (x : Qc) : Qc := Num.ofZ (Num.floor x).

(** The [switch (event.mode)] of [processHpAdjustment]. *)
Definition resolveAdjustment (event : HpAdjustmentEvent) (maxHPv lastDamagev : Qc) : Qc :=
  let amount := haAmount event in
  let fraction :=
    resolveFractionValue (haFractionNumerator event) (haFractionDenominator event)
                         None in
  match haMode event with
  | Some percentMax =>
      floorQ (Num.divDouble (Num.mulDouble maxHPv amount) (Num.ofZ 100))
  | Some percentLastDamage =>
      floorQ (Num.divDouble (Num.mulDouble lastDamagev amount) (Num.ofZ 100))
  | Some fractionMax =>
      match fraction with
      | Some f => floorQ (Num.mulDouble maxHPv (Num.max 0 f))
      | None => amount
      end
  | Some fractionLastDamage =>
      match fraction with
      | Some f => floorQ (Num.mulDouble lastDamagev (Num.max 0 f))
      | None => amount
      end
  | _ => amount
  end.

Definition processHpAdjustment (event : HpAdjustmentEvent)
           (branches : list BranchState) : list BranchState :=
  map (fun branch =>
         if terminated branch then branch
         else
           let clone := cloneBranch branch in
           let targetSide := orElse (haTarget event) (haActor event) in
           let amount :=
             resolveAdjustment event (sideGet (maxHP clone) targetSide)
                               (sideGet (lastDamage clone) targetSide) in
           if truthyBool (haIsDamage event) then
             let damage := Num.max 0 (Num.min amount (sideGet (hp clone) targetSide)) in
             let hp' := sideGet (hp clone) targetSide - damage in
             let clone1 :=
               setSideHp targetSide hp'
                         (withLastDamage (sideSet (lastDamage clone) targetSide damage)
                                         clone) in
             if Num.leb hp' 0 then withTerminated true clone1 else clone1
           else
             let heal := Num.abs amount in
             setSideHp targetSide
                       (Num.min (sideGet (maxHP clone) targetSide)
                                (sideGet (hp clone) targetSide + heal))
                       clone)
      branches.

Definition computeHealingAmount (event : HealingEvent) (maxHPv : Qc) : Qc :=
  match heAmount event with
  | healFraction =>
      let ratio :=
        orElse (resolveFractionValue (heFractionNumerator event)
                                     (heFractionDenominator event)
                                     (heFraction event)) 0 in
      let heal := floorQ (Num.mulDouble maxHPv (Num.max 0 ratio)) in
      Num.max heal 1
  | healNumber amount => amount
  | healRange lo _ => lo
  end.

Definition processHealingEvent (event : HealingEvent) (branches : list BranchState)
  : list BranchState :=
  match heActor event with
  | None => branches
  | Some side =>
      map (fun branch =>
             if terminated branch then branch
             else
               let clone := cloneBranch branch in
               let amount := computeHealingAmount event (sideGet (maxHP clone) side) in
               setSideHp side
                         (Num.min (sideGet (maxHP clone) side)
                                  (sideGet (hp clone) side + amount))
                         clone)
          branches
  end.

(** No test of [branch.terminated] here: every branch is rewritten. *)
Definition processStatusEvent (event : StatusEvent) (branches : list BranchState)
  : list BranchState :=
  match suActor event with
  | None => branches
  | Some side =>
      map (fun branch =>
             let clone := cloneBranch branch in
             let nextStatus :=
               if truthyBool (suClears event) then None else suStatus event in
             withPokemon
               (sideSet (pokemon clone) side
                        (pkWithStatus nextStatus (sideGet (pokemon clone) side)))
               clone)
          branches
  end.

(** [processSwitchState]: the new combatant state and the HP it enters with. *)
Definition switchedHp (event : SwitchEvent) (maxHPv : Qc) : Qc :=
  match swSetHpPercent event with
  | Some p =>
      let percent := Num.max 0 (Num.min (Num.ofZ 100) p) in
      let hpv :=
        Num.ofZ (Num.round (Num.divDouble (Num.mulDouble maxHPv percent)
                                          (Num.ofZ 100))) in
      Num.max 0 (Num.min maxHPv hpv)
  | None => maxHPv
  end.

Definition processSwitchState (base : PokemonState) (event : SwitchEvent)
           (maxHPv hpv : Qc) : PokemonState :=
  mkPokemon (pkId base)
            (orElse (swTargetSpecies event) (pkSpecies base))
            (pkLevel base) (pkNature base)
            (orElseOpt (swAbility event) (pkAbility base))
            (orElseOpt (swItem event) (pkItem base))
            None (Some teraNone) (pkIvs base) (pkEvs base)
            None (Some hpv) (Some maxHPv) (pkTypes base) None (pkOverrides base).

Definition processSwitchEvent (event : SwitchEvent) (branches : list BranchState)
  : list BranchState :=
  match swActor event with
  | None => branches
  | Some side =>
      map (fun branch =>
             if terminated branch then branch
             else
               let clone := cloneBranch branch in
               let maxHPv := sideGet (maxHP clone) side in
               let hpv := switchedHp event maxHPv in
               let updatedState :=
                 processSwitchState (sideGet (pokemon clone) side) event maxHPv hpv in
               withLastDamage (sideSet (lastDamage clone) side 0)
                 (withTeraType (sideSet (teraType clone) side None)
                    (withTeraMode (sideSet (teraMode clone) side teraNone)
                       (withPokemon (sideSet (pokemon clone) side updatedState)
                          (withHp (sideSet (hp clone) side hpv) clone)))))
          branches
  end.

(** No test of [branch.terminated] here either. *)
Definition processFieldToggle (event : FieldToggleEvent) (branches : list BranchState)
  : list BranchState :=
  map (fun branch =>
         let clone := cloneBranch branch in
         withField (mergeFieldStates (field clone) (orElse (ftField event) emptyPatch))
                   clone)
      branches.

Definition leftoversSide (side : BattleSide) (clone : BranchState) : BranchState :=
  if match pkItem (sideGet (pokemon clone) side) with
     | Some i => String.eqb i "Leftovers"
     | None => false
     end
     && Num.ltb 0 (sideGet (hp clone) side)
     && Num.ltb (sideGet (hp clone) side) (sideGet (maxHP clone) side)
  then
    let recovery := Num.max 1 (floorQ (sideGet (maxHP clone) side / Num.ofZ 16)) in
    setSideHp side
              (Num.min (sideGet (maxHP clone) side) (sideGet (hp clone) side + recovery))
              clone
  else clone.

Definition applyLeftoversRecovery (branches : list BranchState) : list BranchState :=
  map (fun branch =>
         if terminated branch then branch
         else leftoversSide opponent (leftoversSide player (cloneBranch branch)))
      branches.

(** *** Merging branches *)

(** [serializeBoosts]: the non-zero boosts in the order of the stat names. *)
Definition serializeBoosts (boosts : Boosts) : list (string * Z) :=
  let entry (name : string) (v : option Z) :=
    match v with
    | Some z => if (z =? 0)%Z then [] else [(name, z)]
    | None => []
    end in
  entry "atk"%string (stAtk boosts) ++ entry "def"%string (stDef boosts)
  ++ entry "hp"%string (stHp boosts) ++ entry "spa"%string (stSpa boosts)
  ++ entry "spd"%string (stSpd boosts) ++ entry "spe"%string (stSpe boosts).

(** [Array.from(set).sort()] on the first-use markers. *)
Fixpoint insertString (x : string) (l : list string) : list string :=
  match l with
  | [] => [x]
  | y :: rest => if String.leb x y then x :: y :: rest else y :: insertString x rest
  end.

Definition sortStrings (l : list string) : list string :=
  fold_right insertString [] l.

(** [serializeFieldState] keeps these five components. *)
Definition FieldSignature : Type :=
  (option string * option string * option bool
   * option SideState * option SideState)%type.

Definition serializeFieldState (f : FieldState) : FieldSignature :=
  (fsWeather f, fsTerrain f, fsTrickRoom f, fsAttackerSide f, fsDefenderSide f).

(** The components joined by [buildBranchKey].  The key is kept as the
    tuple of its components rather than as the delimiter-joined string. *)
Record BranchKey := mkKey {
  keyHp : PerSide Qc;
  keyTeraMode : PerSide TeraMode;
  keyTeraType : PerSide string;
  keyAbility : PerSide string;
  keyItem : PerSide string;
  keyStatus : PerSide string;
  keyBoosts : PerSide (list (string * Z));
  keyStellar : PerSide (list string);
  keyFieldSignature : FieldSignature;
  keyLastDamage : PerSide Qc;
  keyTerminated : bool
}.

Definition perSide (A B : Type) (f : A -> B) (r : PerSide A) : PerSide B :=
  mkSides (f (onPlayer r)) (f (onOpponent r)).

Definition buildBranchKey (branch : BranchState) : BranchKey :=
  mkKey (hp branch)
        (teraMode branch)
        (perSide (fun t => orElse t ""%string) (teraType branch))
        (perSide (fun p => orElse (pkAbility p) ""%string) (pokemon branch))
        (perSide (fun p => orElse (pkItem p) ""%string) (pokemon branch))
        (perSide (fun p => orElse (pkStatus p) ""%string) (pokemon branch))
        (perSide (fun p => serializeBoosts (orElse (pkBoosts p) noBoosts))
                 (pokemon branch))
        (perSide sortStrings (stellarUsage branch))
        (serializeFieldState (field branch))
        (lastDamage branch)
        (terminated branch).
Definition BranchKey_eq_dec (a b : BranchKey) : {a = b} + {a <> b}.
Proof.
  pose proof Qc_eq_dec. pose proof string_dec. pose proof Z.eq_dec.
  pose proof bool_dec.
  assert (forall x y : TeraMode, {x = y} + {x <> y}) by decide equality.
  assert (forall x y : option bool, {x = y} + {x <> y}) by decide equality.
  assert (forall x y : option Z, {x = y} + {x <> y}) by decide equality.
  assert (forall x y : option string, {x = y} + {x <> y}) by decide equality.
  assert (forall x y : SideState, {x = y} + {x <> y}) by decide equality.
  assert (forall x y : option SideState, {x = y} + {x <> y}) by decide equality.
  assert (forall x y : string * Z, {x = y} + {x <> y}) by decide equality.
  assert (forall x y : list (string * Z), {x = y} + {x <> y}) by decide equality.
  assert (forall x y : list string, {x = y} + {x <> y}) by decide equality.
  assert (forall x y : FieldSignature, {x = y} + {x <> y})
    by (unfold FieldSignature; repeat decide equality).
  assert (forall x y : PerSide Qc, {x = y} + {x <> y}) by decide equality.
  assert (forall x y : PerSide TeraMode, {x = y} + {x <> y}) by decide equality.
  assert (forall x y : PerSide string, {x = y} + {x <> y}) by decide equality.
  assert (forall x y : PerSide (list (string * Z)), {x = y} + {x <> y})
    by decide equality.
  assert (forall x y : PerSide (list string), {x = y} + {x <> y})
    by decide equality.
  decide equality.
Defined.

(** [Map.set(key, branch)] when the key is new, [existing.probability +=
    branch.probability] when it is not; insertion order is kept. *)
Fixpoint mergeInto (key : BranchKey) (branch : BranchState)
         (merged : list (BranchKey * BranchState)) : list (BranchKey * BranchState) :=
  match merged with
  | [] => [(key, branch)]
  | (k, existing) :: rest =>
      if BranchKey_eq_dec k key then
        (k, withProbability (probability existing + probability branch) existing)
        :: rest
      else (k, existing) :: mergeInto key branch rest
  end.

Definition mergeBranches (branches : list BranchState) : list BranchState :=
  map snd
      (fold_left (fun merged branch => mergeInto (buildBranchKey branch) branch merged)
                 branches []).

Definition allBranchesTerminated (branches : list BranchState) : bool :=
  forallb terminated branches.

(** [branches.reduce((acc, branch) => acc + branch.probability, 0)] *)
Definition totalProbability (branches : list BranchState) : Qc :=
  fold_left (fun acc branch => acc + probability branch) branches 0.

(** *** Distributions and snapshots *)

Fixpoint addToBucket (hpv : Z) (p : Qc) (m : list (Z * Qc)) : list (Z * Qc) :=
  match m with
  | [] => [(hpv, p)]
  | (k, v) :: rest =>
      if (k =? hpv)%Z then (k, v + p) :: rest else (k, v) :: addToBucket hpv p rest
  end.

Definition toDistribution (branches : list BranchState) (side : BattleSide)
  : list DistributionPoint :=
  let buckets :=
    fold_left (fun m branch =>
                 addToBucket (Z.max 0 (Num.round (sideGet (hp branch) side)))
                             (probability branch) m)
              branches [] in
  let total := fold_left (fun acc entry => acc + snd entry) buckets 0 in
  if Num.leb total 0 then []
  else
    Num.sortBy (fun a b => Num.ofZ (distHp a - distHp b))
               (map (fun entry => mkDist (fst entry) (snd entry / total)) buckets).

Definition weightedAverage (distribution : list DistributionPoint) : Qc :=
  fold_left (fun acc entry => acc + Num.ofZ (distHp entry) * distProbability entry)
            distribution 0.

Record SnapshotBranchState := mkSnapState {
  snapHp : PerSide Qc;
  snapMaxHP : PerSide Qc;
  snapStateProbability : Qc
}.

Definition captureSnapshotState (branches : list BranchState)
  : list SnapshotBranchState :=
  map (fun branch => mkSnapState (hp branch) (maxHP branch) (probability branch))
      branches.

(** [TimelineSnapshot] without its [description]; an [eventId] of [None]
    stands for a fresh [crypto.randomUUID()]. *)
Record TimelineSnapshot := mkSnapshot {
  snapTurn : Z;
  snapEventId : option string;
  snapSequence : nat;
  snapAvgHp : PerSide Z;
  snapFirstMaxHP : PerSide Qc;
  snapProbability : Qc;
  snapHpDistribution : list DistributionPoint;
  snapOpponentHpDistribution : list DistributionPoint;
  snapDamageRolls : option (list Qc);
  snapDeltaHP : option (PerSide Qc);
  snapMaxHPBefore : option (PerSide Qc)
}.

Definition prevAverage (prev : list SnapshotBranchState)
           (f : SnapshotBranchState -> Qc) (prevTotal : Qc) : Qc :=
  fold_left (fun acc branch => acc + f branch * snapStateProbability branch) prev 0
  / prevTotal.

Definition buildSnapshotFromBranches (branches : list BranchState)
           (prevBranches : list SnapshotBranchState) (turn : Z)
           (eventId : option string) (damageRolls : option (list Qc))
           (sequence : nat) : option TimelineSnapshot :=
  match branches with
  | [] => None
  | first :: _ =>
      let playerDistribution := toDistribution branches player in
      let opponentDistribution := toDistribution branches opponent in
      let probabilityv := totalProbability branches in
      let playerAvgHP :=
        match playerDistribution with
        | [] => sideGet (hp first) player
        | _ :: _ => weightedAverage playerDistribution
        end in
      let opponentAvgHP :=
        match opponentDistribution with
        | [] => sideGet (hp first) opponent
        | _ :: _ => weightedAverage opponentDistribution
        end in
      let deltas :=
        match prevBranches with
        | [] => (None, None)
        | _ :: _ =>
            let sumPrev :=
              fold_left (fun acc branch => acc + snapStateProbability branch)
                        prevBranches 0 in
            let prevTotal := if Num.eqb sumPrev 0 then 1 else sumPrev in
            let avg f := prevAverage prevBranches f prevTotal in
            (Some (mkSides
                     (avg (fun b => sideGet (snapHp b) player) - playerAvgHP)
                     (avg (fun b => sideGet (snapHp b) opponent) - opponentAvgHP)),
             Some (mkSides
                     (avg (fun b => sideGet (snapMaxHP b) player))
                     (avg (fun b => sideGet (snapMaxHP b) opponent))))
        end in
      Some (mkSnapshot turn eventId sequence
                       (mkSides (Num.round playerAvgHP) (Num.round opponentAvgHP))
                       (maxHP first) probabilityv
                       playerDistribution opponentDistribution damageRolls
                       (fst deltas) (snd deltas))
  end.
(** *** Attacks *)

Section Simulator.

(** The collaborators of the simulator: [JSON.stringify] of the cache
    signature, the damage calculator behind [computeDamage], and the move
    catalogue [dex.moves.get(name)?.type]. *)
Variable serializeKey : DamageCacheKey -> string.
Variable computeDamage :
  BattleSide -> PokemonState -> PokemonState -> MoveConfig -> FieldState ->
  DamageComputation.
Variable dexMoveType : string -> option string.

Definition DamageCache := Cache.DamageCache DamageComputation.

Definition resolveMoveType (move : MoveConfig) (attacker : PokemonState) : string :=
  let overrideType :=
    match mvOverrides move with Some o => moType o | None => None end in
  if truthyString overrideType then orElse overrideType ""%string
  else if String.eqb (mvName move) "Tera Blast"
          && truthyString (orElseOpt (mvTeraType move) (pkTeraType attacker))
  then orElse (orElseOpt (mvTeraType move) (pkTeraType attacker)) "Normal"%string
  else orElse (dexMoveType (mvName move)) "Normal"%string.

Definition mvWithTera (mode : option TeraMode) (type : option string)
           (first : option bool) (m : MoveConfig) : MoveConfig :=
  mkMove (mvName m) (mvType m) (mvPower m) (mvCategory m) mode type
         (mvIsCrit m) (mvHits m) (mvPriority m) (mvDrainPercent m)
         (mvRecoilPercent m) (mvTimesUsed m) (mvTimesUsedWithMetronome m)
         (mvUseZMove m) (mvUseMaxMove m) first (mvOverrides m).

Definition prepareMoveForBranch (move : MoveConfig) (attacker : PokemonState)
           (branch : BranchState) (side : BattleSide)
           (execution : TimelineExecutionOptions) : MoveConfig :=
  let mode := orElse (mvTeraMode move) (sideGet (teraMode branch) side) in
  let type :=
    orElseOpt (mvTeraType move)
              (orElseOpt (sideGet (teraType branch) side) (pkTeraType attacker)) in
  let clone := mvWithTera (Some mode) type (mvStellarFirstUse move) move in
  if teraModeEqb mode teraStellar then
    if truthyBool (allowRaidStellar execution) then
      mvWithTera (Some mode) type (Some true) move
    else
      let t := resolveMoveType clone attacker in
      mvWithTera (Some mode) type
                 (Some (negb (existsb (String.eqb t)
                                      (sideGet (stellarUsage branch) side))))
                 move
  else clone.

(** [Set.prototype.add] *)
Definition setAdd (x : string) (s : list string) : list string :=
  if existsb (String.eqb x) s then s else s ++ [x].

(** The damage percentage test of the observation; a division by a
    maximum HP of zero yields an infinity or a NaN, which lies in no
    range. *)
Definition inObservationRange (range : Qc * Qc) (damage maxHPv : Qc) : bool :=
  if Num.eqb maxHPv 0 then false
  else
    let percent := damage / maxHPv in
    Num.leb (fst range) percent && Num.leb percent (snd range).

(** [if (newBranch.hp[target] <= 0 || newBranch.hp[event.actor] <= 0)
    newBranch.terminated = true] *)
Definition markTerminated (target actor : BattleSide) (b : BranchState) : BranchState :=
  if Num.leb (sideGet (hp b) target) 0 || Num.leb (sideGet (hp b) actor) 0
  then withTerminated true b else b.

(** The body of [for (const roll of rolls)]: the child branch of one roll
    and what it adds to the observation likelihood. *)
Definition rollBranch (event : AttackEvent) (execution : TimelineExecutionOptions)
           (target : BattleSide) (branch : BranchState) (attacker : PokemonState)
           (moveForCalc : MoveConfig) (moveType : string)
           (rollProbability : Qc) (roll : DamageRollOutcome)
  : BranchState * Qc :=
  let actor := atActor event in
  let b0 := withField (field branch) (withProbability rollProbability (cloneBranch branch)) in
  let damage := Num.min (rollDamage roll) (sideGet (hp b0) target) in
  let b1 :=
    setSideHp target (Num.max 0 (sideGet (hp b0) target - damage))
              (withLastDamage (sideSet (lastDamage b0) target damage) b0) in
  let b2 :=
    if truthyNumber (rollDrain roll) then
      setSideHp actor
                (Num.min (sideGet (maxHP b1) actor)
                         (sideGet (hp b1) actor + orElse (rollDrain roll) 0))
                b1
    else b1 in
  let b3 :=
    if truthyNumber (rollRecoil roll) then
      setSideHp actor
                (Num.max 0 (sideGet (hp b2) actor - orElse (rollRecoil roll) 0))
                b2
    else b2 in
  let contribution :=
    match observationRange execution with
    | Some range =>
        if sameId (evId (atMeta event)) (observationEventId execution)
           && inObservationRange range damage (sideGet (maxHP b3) target)
        then rollProbability else 0
    | None => 0
    end in
  let b4 :=
    match mvTeraMode moveForCalc with
    | Some mode =>
        if negb (teraModeEqb mode (sideGet (teraMode branch) actor)) then
          let type := orElseOpt (mvTeraType moveForCalc) (pkTeraType attacker) in
          withPokemon
            (sideSet (pokemon b3) actor
                     (pkWithTera (Some mode) type (sideGet (pokemon b3) actor)))
            (withTeraType (sideSet (teraType b3) actor type)
               (withTeraMode (sideSet (teraMode b3) actor mode) b3))
        else b3
    | None => b3
    end in
  let b5 :=
    match mvTeraMode moveForCalc with
    | Some teraStellar =>
        if negb (truthyBool (allowRaidStellar execution)) then
          withStellarUsage
            (sideSet (stellarUsage b4) actor
                     (setAdd moveType (sideGet (stellarUsage b4) actor)))
            b4
        else b4
    | _ => b4
    end in
  (markTerminated target actor b5, contribution).

Definition attackTarget (event : AttackEvent) : BattleSide :=
  orElse (atTarget event) (otherSide (atActor event)).

(** [cached ?? computeDamage(...)], storing a fresh computation. *)
Definition damageFor (event : AttackEvent) (execution : TimelineExecutionOptions)
           (branch : BranchState) (cache : DamageCache)
  : DamageComputation * MoveConfig * PokemonState * DamageCache :=
  let actor := atActor event in
  let target := attackTarget event in
  let attacker :=
    pkWithHP (Some (sideGet (hp branch) actor)) (Some (sideGet (maxHP branch) actor))
             (clonePokemonState (sideGet (pokemon branch) actor)) in
  let defender :=
    pkWithHP (Some (sideGet (hp branch) target)) (Some (sideGet (maxHP branch) target))
             (clonePokemonState (sideGet (pokemon branch) target)) in
  let moveForCalc := prepareMoveForBranch (atMove event) attacker branch actor execution in
  let cacheKey := mkCacheKey attacker defender moveForCalc (field branch) actor in
  match Cache.get serializeKey cacheKey cache with
  | (Some cached, cache') => (cached, moveForCalc, attacker, cache')
  | (None, cache') =>
      let computation := computeDamage actor attacker defender moveForCalc (field branch) in
      (computation, moveForCalc, attacker, Cache.set serializeKey cacheKey computation cache')
  end.

(** The accumulators of the loop over branches in [processAttack]. *)
Record AttackLoop := mkAttackLoop {
  newBranches : list BranchState;
  loopObservation : Qc;
  loopDamageRolls : list Qc;
  loopCache : DamageCache
}.

Definition attackStep (event : AttackEvent) (execution : TimelineExecutionOptions)
           (acc : AttackLoop) (branch : BranchState) : AttackLoop :=
  let actor := atActor event in
  let target := attackTarget event in
  if terminated branch then
    mkAttackLoop (newBranches acc ++ [branch]) (loopObservation acc)
                 (loopDamageRolls acc) (loopCache acc)
  else if Num.leb (sideGet (hp branch) actor) 0
          || Num.leb (sideGet (hp branch) target) 0 then
    mkAttackLoop (newBranches acc ++ [withTerminated true branch])
                 (loopObservation acc) (loopDamageRolls acc) (loopCache acc)
  else
    let '(computation, moveForCalc, attacker, cache') :=
      damageFor event execution branch (loopCache acc) in
    let rollsv := rolls computation in
    let rollProbability := probability branch / Num.ofNat (length rollsv) in
    let moveType := resolveMoveType moveForCalc attacker in
    let damageRolls :=
      match loopDamageRolls acc with
      | [] => map rollDamage rollsv
      | _ :: _ => loopDamageRolls acc
      end in
    let children :=
      map (rollBranch event execution target branch attacker moveForCalc
                      moveType rollProbability)
          rollsv in
    mkAttackLoop (newBranches acc ++ map fst children)
                 (fold_left (fun o child => o + snd child) children
                            (loopObservation acc))
                 damageRolls cache'.

Record EventResult := mkResult {
  branches : list BranchState;
  observationContribution : Qc;
  damageRolls : option (list Qc)
}.

Definition processAttack (event : AttackEvent) (branchesv : list BranchState)
           (execution : TimelineExecutionOptions) (cache : DamageCache)
  : EventResult * DamageCache :=
  let final :=
    fold_left (attackStep event execution) branchesv (mkAttackLoop [] 0 [] cache) in
  (mkResult (newBranches final) (loopObservation final)
            (match loopDamageRolls final with
             | [] => None
             | _ :: _ => Some (loopDamageRolls final)
             end),
   loopCache final).
(** *** Dispatch *)

Definition plainResult (branchesv : list BranchState) : EventResult :=
  mkResult branchesv 0 None.

Definition processEvent (event : BattleEvent) (branchesv : list BranchState)
           (execution : TimelineExecutionOptions) (cache : DamageCache)
  : EventResult * DamageCache :=
  match event with
  | attackEvent e => processAttack e branchesv execution cache
  | statChangeEvent e => (plainResult (processStatChange e branchesv), cache)
  | hpAdjustmentEvent e => (plainResult (processHpAdjustment e branchesv), cache)
  | healingEvent e => (plainResult (processHealingEvent e branchesv), cache)
  | switchEvent e => (plainResult (processSwitchEvent e branchesv), cache)
  | fieldToggleEvent e => (plainResult (processFieldToggle e branchesv), cache)
  | statusEvent e => (plainResult (processStatusEvent e branchesv), cache)
  | abilityActivationEvent _ => (plainResult branchesv, cache)
  end.

Definition actionId (action : BattleAction) : string :=
  match action with
  | moveAction a => maId a
  | switchAction a => saId a
  | passAction id _ => id
  end.

Definition actionActor (action : BattleAction) : BattleSide :=
  match action with
  | moveAction a => maActor a
  | switchAction a => saActor a
  | passAction _ actor => actor
  end.

Definition actionMeta (id : string) : EventMeta :=
  mkMeta (Some id) None (Some actionTiming) None.

Definition processAction (action : BattleAction) (branchesv : list BranchState)
           (execution : TimelineExecutionOptions) (cache : DamageCache)
  : EventResult * DamageCache :=
  match action with
  | moveAction a =>
      let move :=
        match maTeraMode a with
        | Some mode =>
            mvWithTera (Some mode)
                       (orElseOpt (maTeraType a) (mvTeraType (maMove a)))
                       (mvStellarFirstUse (maMove a)) (maMove a)
        | None => maMove a
        end in
      processAttack
        (mkAttack (actionMeta (maId a)) (maActor a) move
                  (Some (orElse (maTarget a) (otherSide (maActor a)))))
        branchesv execution cache
  | switchAction a =>
      (plainResult
         (processSwitchEvent
            (mkSwitch (actionMeta (saId a)) (Some (saActor a)) (saTargetSpecies a)
                      (saSetHpPercent a) (saAbility a) (saItem a))
            branchesv),
       cache)
  | passAction _ _ => (plainResult branchesv, cache)
  end.

Definition orderActions (turn : TimelineTurn) (options : SimulationOptions)
  : list BattleAction :=
  let actions := orElse (turnActions turn) [] in
  match battleStyle options with
  | Some doubles => actions
  | _ =>
      let isFirst (a : BattleAction) :=
        match turnOrder turn with
        | Some f => sideEqb (actionActor a) f
        | None => false
        end in
      let second :=
        match turnOrder turn with
        | Some player => opponent
        | _ => player
        end in
      let isSecond (a : BattleAction) := sideEqb (actionActor a) second in
      filter isFirst actions ++ filter isSecond actions
      ++ filter (fun a => negb (isFirst a) && negb (isSecond a)) actions
  end.

(** *** The simulation loop *)

Record SimState := mkSim {
  simBranches : list BranchState;
  simSnapshots : list TimelineSnapshot;
  simObservation : Qc;
  simSequence : nat;
  simCache : DamageCache
}.

(** What follows the processing of one action or event: merge, update the
    observation likelihood, record a snapshot. *)
Definition settle (st : SimState) (id : option string) (turn : Z)
           (result : EventResult) (cache : DamageCache)
           (execution : TimelineExecutionOptions) : SimState :=
  let before := captureSnapshotState (simBranches st) in
  let merged := mergeBranches (branches result) in
  let observation :=
    if sameId id (observationEventId execution)
    then observationContribution result else simObservation st in
  let snapshots :=
    match buildSnapshotFromBranches merged before turn id (damageRolls result)
                                    (simSequence st) with
    | Some snapshot => simSnapshots st ++ [snapshot]
    | None => simSnapshots st
    end in
  mkSim merged snapshots observation (S (simSequence st)) cache.

Fixpoint runEventSequence (events : list BattleEvent)
         (execution : TimelineExecutionOptions) (st : SimState)
  : bool * SimState :=
  match events with
  | [] => (false, st)
  | rawEvent :: rest =>
      let event := normalizeEvent rawEvent in
      let '(result, cache) :=
        processEvent event (simBranches st) execution (simCache st) in
      let st' := settle st (evId (eventMeta event)) 0%Z result cache execution in
      if allBranchesTerminated (simBranches st') then (true, st')
      else runEventSequence rest execution st'
  end.

Definition notRelated (event : BattleEvent) : bool :=
  negb (truthyString (evRelatedActionId (eventMeta event))).

Fixpoint runActions (actions : list BattleAction) (events : list BattleEvent)
         (turn : TimelineTurn) (execution : TimelineExecutionOptions)
         (st : SimState) : SimState :=
  match actions with
  | [] => st
  | action :: rest =>
      let '(result, cache) :=
        processAction action (simBranches st) execution (simCache st) in
      let st1 :=
        settle st (Some (actionId action)) (turnNumber turn) result cache execution in
      let '(stop, st2) :=
        runEventSequence
          (filter (fun event =>
                     timingEqb (resolveTiming event) actionTiming
                     && sameId (evRelatedActionId (eventMeta event))
                               (Some (actionId action)))
                  events)
          execution st1 in
      if stop then st2
      else if allBranchesTerminated (simBranches st2) then st2
      else runActions rest events turn execution st2
  end.

Definition withBranches (v : list BranchState) (st : SimState) : SimState :=
  mkSim v (simSnapshots st) (simObservation st) (simSequence st) (simCache st).

(** One iteration of [for (const turn of limitedTurns)]; the boolean tells
    whether the loop was left by [break]. *)
Definition runTurn (turn : TimelineTurn) (options : SimulationOptions)
           (execution : TimelineExecutionOptions) (st : SimState)
  : bool * SimState :=
  let events := map normalizeEvent (orElse (turnEvents turn) []) in
  let '(stop1, st1) :=
    runEventSequence
      (filter (fun event => timingEqb (resolveTiming event) turnStart
                            && notRelated event) events)
      execution st in
  if stop1 then (true, st1)
  else
    let st2 := runActions (orderActions turn options) events turn execution st1 in
    if allBranchesTerminated (simBranches st2) then (true, st2)
    else
      let '(stop3, st3) :=
        runEventSequence
          (filter (fun event => timingEqb (resolveTiming event) actionTiming
                                && notRelated event) events)
          execution st2 in
      if stop3 then (true, st3)
      else
        let st4 := withBranches (applyLeftoversRecovery (simBranches st3)) st3 in
        let '(stop5, st5) :=
          runEventSequence
            (filter (fun event => timingEqb (resolveTiming event) turnEnd) events)
            execution st4 in
        if stop5 then (true, st5)
        else (allBranchesTerminated (simBranches st5), st5).

Fixpoint runTurns (turnsv : list TimelineTurn) (options : SimulationOptions)
         (execution : TimelineExecutionOptions) (st : SimState) : SimState :=
  match turnsv with
  | [] => st
  | turn :: rest =>
      let '(stop, st') := runTurn turn options execution st in
      if stop then st' else runTurns rest options execution st'
  end.

(** The state in which [simulateTimeline] leaves its loop. *)
Definition simulateBranches (scenario : TimelineScenario)
           (pokemon0 : PerSide PokemonState) (field0 : FieldState)
           (cache : DamageCache) (options : SimulationOptions)
           (execution : TimelineExecutionOptions) : SimState :=
  runTurns (firstn MAX_TIMELINE_TURNS (turns scenario)) options execution
           (mkSim [createInitialBranch pokemon0 field0] [] 0 0 cache).




End Simulator.

End Timeline.
(** ** Sample data for the simulator *)

Module TimelineSamples.

Import Timeline.

Local Open Scope Qc_scope.

Definition sampleStats : StatsTable Z := mkStats 31%Z 31%Z 31%Z 31%Z 31%Z 31%Z.
Definition noEvs : StatsTable Z := mkStats 0%Z 0%Z 0%Z 0%Z 0%Z 0%Z.

(** A level-50 combatant with the given current and maximum HP. *)
Definition samplePokemon (hpv maxv : Z) : PokemonState :=
  mkPokemon None "Garchomp" 50%Z "Hardy" None None None None sampleStats noEvs
            None (Some (Num.ofZ hpv)) (Some (Num.ofZ maxv)) None None None.

Definition noFlags : FieldFlags :=
  mkFieldFlags None None None None None None None None None None None None None.

Definition sampleField : FieldState := mkField None None None noFlags None None.

Definition sampleMove : MoveConfig :=
  mkMove "Tackle" None None None None None None None None None None None None
         None None None None.

Definition sampleRoll (index damage : Z) : DamageRollOutcome :=
  mkRoll index (Num.ofZ damage) 0 0 None None.

(** A calculator that answers every query with the two rolls 10 and 20. *)
Definition sampleComputeDamage (actor : BattleSide) (attacker defender : PokemonState)
           (move : MoveConfig) (fieldv : FieldState) : DamageComputation :=
  mkComputation [sampleRoll 0%Z 10%Z; sampleRoll 1%Z 20%Z] move attacker defender.

Definition sampleSerializeKey (key : DamageCacheKey) : string := "key".

Definition sampleDex (name : string) : option string := None.

Definition sampleExecution : TimelineExecutionOptions := mkExecution None None None.

Definition sampleOptions : SimulationOptions := mkOptions None.

Definition emptyCache : DamageCache := Cache.new DamageComputation None.

Definition sampleMeta (id : string) : EventMeta := mkMeta (Some id) None None None.

(** The player attacks the opponent. *)
Definition sampleAttack : AttackEvent :=
  mkAttack (sampleMeta "a1") player sampleMove (Some opponent).

(** The player uses a move on itself, and a calculator that answers
    every query with the single roll 10, which costs the user 5 HP of
    recoil. *)
Definition selfAttack : AttackEvent :=
  mkAttack (sampleMeta "a2") player sampleMove (Some player).

Definition recoilComputeDamage (actor : BattleSide) (attacker defender : PokemonState)
           (move : MoveConfig) (fieldv : FieldState) : DamageComputation :=
  mkComputation [mkRoll 0%Z (Num.ofZ 10) 0 0 None (Some (Num.ofZ 5))]
                move attacker defender.

(** Both sides at 100/100 HP. *)
Definition healthyBranch : BranchState :=
  createInitialBranch (mkSides (samplePokemon 100%Z 100%Z) (samplePokemon 100%Z 100%Z))
                      sampleField.

(** The starting state of a player at 0/100 HP facing an opponent at
    100/100 HP. *)
Definition faintedActorBranch : BranchState :=
  createInitialBranch (mkSides (samplePokemon 0%Z 100%Z) (samplePokemon 100%Z 100%Z))
                      sampleField.

(** A branch that an attack has terminated: the opponent is at 0 HP. *)
Definition terminatedBranch : BranchState :=
  withTerminated true
    (createInitialBranch (mkSides (samplePokemon 100%Z 100%Z) (samplePokemon 0%Z 100%Z))
                         sampleField).

Definition burnOpponent : StatusEvent :=
  mkStatus (sampleMeta "s1") (Some opponent) (Some "brn"%string) None.

Definition startRain : FieldToggleEvent :=
  mkFieldToggle (sampleMeta "f1") (Some (mkPatch (Some "Rain"%string) None None)).

(** The player switches in at 0% HP. *)
Definition switchInAtZero : SwitchEvent :=
  mkSwitch (sampleMeta "w1") (Some player) None (Some 0) None None.

(** One turn in which the player uses the sample move. *)
Definition sampleScenario : TimelineScenario :=
  mkScenario None
    [ mkTurn (Some player) 1%Z None
             (Some [moveAction (mkMoveAction "a1" player sampleMove (Some opponent)
                                             None None)]) ].

End TimelineSamples.
(** ** The job orchestrator (simulation worker) *)

Module Worker.

Local Open Scope Qc_scope.

Inductive Phase := initializing | processing | evaluating | finalizing.

(** [WorkerResponseMessage] *)
Inductive Response (Summary : Type) :=
| progress (requestId : string) (processed total : nat) (elapsedMs : Qc) (phase : Phase)
| complete (requestId : string) (summary : Summary)
| error (requestId : string) (message : string)
| cancelled (requestId : string).

Arguments progress {Summary}.
Arguments complete {Summary}.
Arguments error {Summary}.
Arguments cancelled {Summary}.

Record ActiveJob := mkJob { jobRequestId : string; jobCancelled : bool }.

(** What the worker can observe of its host: the successive readings of
    [performance.now()], and what the message handlers that run while the
    job is suspended in its [n]-th [await tick()] do to the module-level
    [activeJob] (a matching cancel request sets its flag, another run
    request replaces it, a finishing job clears it). *)
Record Host := mkHost {
  clock : nat -> Qc;
  duringTick : nat -> option ActiveJob -> option ActiveJob
}.

(** The state threaded through one invocation of [runSimulation]: the
    module-level [activeJob], the number of clock readings and of awaits so
    far, and the responses posted by this invocation, oldest first. *)
Record World (Summary : Type) := mkWorld {
  activeJob : option ActiveJob;
  clockReads : nat;
  ticks : nat;
  posted : list (Response Summary)
}.

(** The fields of [SimulationInput] that decide the control flow. *)
Record SimulationInput := mkInput {
  requestId : string;
  hasEvConfig : bool;
  enabled : bool;
  enableKO : bool;
  enableSurvival : bool;
  playerSpecies : string;
  opponentSpecies : string;
  batchSize : option Z;
  timeoutMs : option Qc
}.

(** How an invocation, or a grid evaluation, came to its end.  The three
    premature ends of [evaluateGridPoints] all [return null] in the source;
    they are told apart here by the statement that returns. *)
Inductive Exit :=
| exitSuperseded
| exitCancelled
| exitTimeout (processed total : nat)
| exitThrew (message : string).

Definition showNat (n : nat) : string := NilEmpty.string_of_uint (Nat.to_uint n).
Definition showZ (z : Z) : string := NilEmpty.string_of_int (Z.to_int z).

Definition timeoutMessage (seconds : Z) (processed total : nat) : string :=
  ("Simulation timeout after " ++ showZ seconds ++ "s (processed "
   ++ showNat processed ++ "/" ++ showNat total ++ " points)")%string.

Section Orchestrator.

(** The grid engine, the simulator and the summary builders enter the
    control flow only through their results: [evaluatePoint] stands for
    applying a grid point, running [simulateTimeline] and recording the
    metrics on the point ([inl] is the message of a thrown error),
    [runDeterministic] for the run without a grid. *)
Variables Point Summary : Type.
Variable host : Host.
Variable speciesKnown : string -> bool.
Variable evaluatePoint : bool -> Point -> string + Point.
Variable runDeterministic : string + Summary.
Variable defensePoints : list Point.
Variable offensePoints : list Point.
Variable applyLikelihoods : list Point -> list Point.
Variable buildSummary : option (list Point) -> option (list Point) -> Summary.

Definition W := World Summary.

(** [self.postMessage] *)
Definition post (r : Response Summary) (w : W) : W :=
  mkWorld (activeJob w) (clockReads w) (ticks w) (posted w ++ [r]).

(** [performance.now()] *)
Definition now (w : W) : Qc * W :=
  (clock host (clockReads w),
   mkWorld (activeJob w) (S (clockReads w)) (ticks w) (posted w)).

(** [await tick()] *)
Definition tick (w : W) : W :=
  mkWorld (duringTick host (ticks w) (activeJob w)) (clockReads w) (S (ticks w))
          (posted w).

Definition setActiveJob (j : option ActiveJob) (w : W) : W :=
  mkWorld j (clockReads w) (ticks w) (posted w).

Definition notifyCancelled (rid : string) (w : W) : W := post (cancelled rid) w.

Definition notifyTimeout (rid : string) (processed total : nat) (start : Qc) (w : W) : W :=
  let '(t, w1) := now w in
  post (error rid (timeoutMessage (Num.round ((t - start) / Num.ofZ 1000))
                                  processed total))
       w1.

(** The progress report and the yield at a batch boundary or after the
    last point. *)
Definition reportBatch (rid : string) (batch total : nat) (start : Qc)
           (processed : nat) (w : W) : W :=
  if (processed mod batch =? 0)%nat || (processed =? total)%nat then
    let '(t, w') := now w in
    tick (post (progress rid processed total (t - start)
                         (if (processed =? total)%nat then finalizing else evaluating))
               w')
  else w.

(** The body of [for (let index = 0; index < total; index += 1)], with
    the points still to be processed and those already processed. *)
Fixpoint gridLoop (rid : string) (optimizeOffense : bool) (batch total : nat)
         (start timeoutAt : Qc) (remaining done : list Point) (w : W)
  : W * (Exit + list Point) :=
  match remaining with
  | [] => (w, inr done)
  | point :: rest =>
      match activeJob w with
      | None => (w, inl exitSuperseded)
      | Some job =>
          if negb (String.eqb (jobRequestId job) rid) then (w, inl exitSuperseded)
          else if jobCancelled job then (notifyCancelled rid w, inl exitCancelled)
          else
            match evaluatePoint optimizeOffense point with
            | inl message => (w, inl (exitThrew message))
            | inr evaluated =>
                let processed := S (length done) in
                let w1 := reportBatch rid batch total start processed w in
                let '(t, w2) := now w1 in
                if Num.ltb timeoutAt t then
                  (notifyTimeout rid processed total start w2,
                   inl (exitTimeout processed total))
                else
                  gridLoop rid optimizeOffense batch total start timeoutAt
                           rest (done ++ [evaluated]) w2
            end
      end
  end.

(** [evaluateGridPoints] on an enabled grid. *)
Definition evaluateGridPoints (rid : string) (optimizeOffense : bool)
           (gridPoints : list Point) (batch : nat) (start timeoutAt : Qc) (w : W)
  : W * (Exit + list Point) :=
  let total := length gridPoints in
  let '(t, w1) := now w in
  let w2 := post (progress rid 0 total (t - start) processing) w1 in
  match gridLoop rid optimizeOffense batch total start timeoutAt gridPoints [] w2 with
  | (w3, inr points) =>
      (w3, inr (if optimizeOffense then points else applyLikelihoods points))
  | (w3, inl e) => (w3, inl e)
  end.

(** The [try] block of [runSimulation]; [inr tt] is a normal return after
    the [complete] response. *)
Definition runBody (input : SimulationInput) (start : Qc) (w : W) : W * (Exit + unit) :=
  let rid := requestId input in
  if negb (hasEvConfig input) then (w, inl (exitThrew "EV grid config is required"))
  else
    let w1 := post (progress rid 0 0 0 initializing) w in
    if negb (speciesKnown (playerSpecies input)) then
      (w1, inl (exitThrew ("Unknown species: " ++ playerSpecies input)))
    else if negb (speciesKnown (opponentSpecies input)) then
      (w1, inl (exitThrew ("Unknown species: " ++ opponentSpecies input)))
    else
      let batch := Z.to_nat (Z.max 1 (match batchSize input with
                                      | Some b => b
                                      | None => 100%Z
                                      end)) in
      let timeoutAt := start + (match timeoutMs input with
                                | Some t => t
                                | None => Num.ofZ 30000
                                end) in
      let needDefenseGrid :=
        enabled input && (negb (enableKO input) || enableSurvival input) in
      let needOffenseGrid := enabled input && enableKO input in
      if negb (enabled input) && negb needOffenseGrid then
        match runDeterministic with
        | inl message => (w1, inl (exitThrew message))
        | inr summary => (post (complete rid summary) w1, inr tt)
        end
      else
        let afterDefense :=
          if needDefenseGrid then
            match evaluateGridPoints rid false defensePoints batch start timeoutAt w1 with
            | (w2, inr points) => (w2, inr (Some points))
            | (w2, inl e) => (w2, inl e)
            end
          else (w1, inr None) in
        match afterDefense with
        | (w2, inl e) => (w2, inl e)
        | (w2, inr defenseEvaluation) =>
            let afterOffense :=
              if needOffenseGrid then
                match evaluateGridPoints rid true offensePoints batch start timeoutAt w2 with
                | (w3, inr points) => (w3, inr (Some points))
                | (w3, inl e) => (w3, inl e)
                end
              else (w2, inr None) in
            match afterOffense with
            | (w3, inl e) => (w3, inl e)
            | (w3, inr offenseEvaluation) =>
                match defenseEvaluation, offenseEvaluation with
                | None, None =>
                    (w3, inl (exitThrew "Failed to build simulation summary"))
                | _, _ =>
                    (post (complete rid (buildSummary defenseEvaluation
                                                      offenseEvaluation)) w3,
                     inr tt)
                end
            end
        end.

(** [runSimulation]: the [catch] clause turns a thrown error into an
    [error] response, the [finally] clause releases the job slot. *)
Definition runSimulation (input : SimulationInput) (w : W) : W * (Exit + unit) :=
  let rid := requestId input in
  let w0 := setActiveJob (Some (mkJob rid false)) w in
  let '(start, w1) := now w0 in
  let '(w2, outcome) := runBody input start w1 in
  let w3 :=
    match outcome with
    | inl (exitThrew message) => post (error rid message) w2
    | _ => w2
    end in
  let w4 :=
    match activeJob w3 with
    | Some job => if String.eqb (jobRequestId job) rid then setActiveJob None w3 else w3
    | None => w3
    end in
  (w4, outcome).

(** The message handler for [{ type: "cancel" }]. *)
Definition onCancel (rid : string) (j : option ActiveJob) : option ActiveJob :=
  match j with
  | Some job =>
      if String.eqb (jobRequestId job) rid then Some (mkJob (jobRequestId job) true)
      else j
  | None => None
  end.

End Orchestrator.

End Worker.
(** ** Concrete jobs for the orchestrator *)

Module WorkerSamples.

Import Worker.

(** Grid points and summaries are plain numbers here; every point
    evaluates to itself. *)
Definition samplePoints : list nat := [1; 2; 3]%nat.

Definition sampleEvaluate (optimizeOffense : bool) (point : nat) : string + nat :=
  inr point.

Definition sampleSummary (defense offense : option (list nat)) : nat :=
  length (match defense with Some points => points | None => [] end).

Definition sampleInput : SimulationInput :=
  {| requestId := "job-1";
     hasEvConfig := true;
     enabled := true;
     enableKO := false;
     enableSurvival := true;
     playerSpecies := "Garchomp";
     opponentSpecies := "Dragonite";
     batchSize := Some 1%Z;
     timeoutMs := None |}.

(** A host on which one millisecond passes between clock readings and a
    cancel request for the job arrives during every yield. *)
Definition cancellingHost : Host :=
  {| clock := fun n => Num.ofNat n;
     duringTick := fun _ job => onCancel "job-1" job |}.

(** A host on which twenty seconds pass between clock readings and no
    message arrives. *)
Definition slowHost : Host :=
  {| clock := fun n => Num.ofZ (20000 * Z.of_nat n);
     duringTick := fun _ job => job |}.

(** A host on which nothing happens. *)
Definition quietHost : Host :=
  {| clock := fun n => Num.ofNat n;
     duringTick := fun _ job => job |}.

Definition idleWorld : World nat :=
  {| activeJob := None; clockReads := O; ticks := O; posted := [] |}.

Definition sampleRun (host : Host) : World nat * (Exit + unit) :=
  runSimulation host (fun _ => true) sampleEvaluate (inr O)
                samplePoints samplePoints (fun points => points) sampleSummary
                sampleInput idleWorld.

Definition responseKind (Summary : Type) (r : Response Summary) : string :=
  match r with
  | progress _ _ _ _ _ => "progress"
  | complete _ _ => "complete"
  | error _ message => message
  | cancelled _ => "cancelled"
  end.

End WorkerSamples.
(** ** The cache key ([serializeKey] of [src/calc/cache.ts]) *)

Module CacheKey.

Import Timeline.

(** [pickPokemonSignature] *)
Record PokemonSignature := mkPokemonSignature {
  sigSpecies : string;
  sigLevel : Z;
  sigAbility : option string;
  sigItem : option string;
  sigNature : string;
  sigStatus : option string;
  sigTeraMode : option TeraMode;
  sigTeraType : option string;
  sigIvs : StatsTable Z;
  sigEvs : StatsTable Z;
  sigBoosts : option Boosts;
  sigOverrides : option (option (StatsTable Z))
}.

Definition pickPokemonSignature (pokemon : PokemonState) : PokemonSignature :=
  mkPokemonSignature (pkSpecies pokemon) (pkLevel pokemon) (pkAbility pokemon)
                     (pkItem pokemon) (pkNature pokemon) (pkStatus pokemon)
                     (pkTeraMode pokemon) (pkTeraType pokemon) (pkIvs pokemon)
                     (pkEvs pokemon) (pkBoosts pokemon) (pkOverrides pokemon).

(** [pickMoveSignature] *)
Record MoveSignature := mkMoveSignature {
  sigName : string;
  sigIsCrit : option bool;
  sigHits : option Z;
  sigPriority : option Z;
  sigDrainPercent : option Qc;
  sigRecoilPercent : option Qc;
  sigMoveOverrides : option MoveOverrides;
  sigMoveTeraMode : option TeraMode;
  sigMoveTeraType : option string
}.

Definition pickMoveSignature (move : MoveConfig) : MoveSignature :=
  mkMoveSignature (mvName move) (mvIsCrit move) (mvHits move) (mvPriority move)
                  (mvDrainPercent move) (mvRecoilPercent move) (mvOverrides move)
                  (mvTeraMode move) (mvTeraType move).

(** [pickFieldSignature] *)
Record FieldKey := mkFieldKey {
  sigWeather : option string;
  sigTerrain : option string;
  sigTrickRoom : option bool
}.

Definition pickFieldSignature (f : FieldState) : FieldKey :=
  mkFieldKey (fsWeather f) (fsTerrain f) (fsTrickRoom f).

(** The object handed to [JSON.stringify]. *)
Record KeySignature := mkKeySignature {
  sigActorSide : BattleSide;
  sigAttacker : PokemonSignature;
  sigDefender : PokemonSignature;
  sigMove : MoveSignature;
  sigField : FieldKey
}.

Definition keySignature (key : DamageCacheKey) : KeySignature :=
  mkKeySignature (keyActorSide key)
                 (pickPokemonSignature (keyAttacker key))
                 (pickPokemonSignature (keyDefender key))
                 (pickMoveSignature (keyMove key))
                 (pickFieldSignature (keyField key)).

Section Serialize.

(** [JSON.stringify] on signature objects. *)
Variable stringify : KeySignature -> string.

Definition serializeKey (key : DamageCacheKey) : string :=
  stringify (keySignature key).

End Serialize.

End CacheKey.

(** ** Heatmap and sensitivity (the rest of the EV grid engine) *)

Module EvGridInsight.

Import EvGrid.

Local Open Scope Qc_scope.

Inductive HeatmapMode := survivalMode | damageRangeMode.

Record EVHeatmapCell := mkCell {
  cellHpEV : Z;
  cellDefEV : Z;
  cellSurvival : Qc;
  cellWeight : Qc;
  cellMetric : HeatmapMode
}.

(** [buildHeatmap(points, mode = "survival")] *)
Definition buildHeatmap (points : list EVGridPoint) (mode : option HeatmapMode)
  : list EVHeatmapCell :=
  let mode := match mode with Some m => m | None => survivalMode end in
  map (fun point =>
         mkCell (hpEV point) (defEV point)
                (match mode with
                 | damageRangeMode => orZero (damageRangeLikelihood point)
                 | survivalMode => orZero (survival point)
                 end)
                (weight point) mode)
      points.

(** [Math.abs(point.hpEV - hpEV) + Math.abs(point.defEV - defEV)] *)
Definition pointDistance (hp def : Z) (point : EVGridPoint) : Z :=
  (Z.abs (hpEV point - hp) + Z.abs (defEV point - def))%Z.

(** The body of the loop of [findNearestPoint]; [None] is the state in
    which [best] is undefined and [bestDistance] is positive infinity. *)
Definition nearestStep (hp def : Z) (acc : option (EVGridPoint * Z))
           (point : EVGridPoint) : option (EVGridPoint * Z) :=
  let distance := pointDistance hp def point in
  match acc with
  | None => Some (point, distance)
  | Some (best, bestDistance) =>
      if (distance <? bestDistance)%Z then Some (point, distance) else acc
  end.

Definition findNearestPoint (points : list EVGridPoint) (hp def : Z)
  : option EVGridPoint :=
  option_map fst (fold_left (nearestStep hp def) points None).

Record SensitivityMetrics := mkSensitivity {
  hpSensitivity : Qc;
  defSensitivity : Qc
}.

(** [neighbour?.survival ?? baseSurvival] *)
Definition survivalOr (neighbour : option EVGridPoint) (baseSurvival : Qc) : Qc :=
  match neighbour with
  | Some p => match survival p with Some s => s | None => baseSurvival end
  | None => baseSurvival
  end.

Definition computeSensitivity (points : list EVGridPoint) (baseHp baseDef : Z)
           (step : Z) : SensitivityMetrics :=
  match findNearestPoint points baseHp baseDef with
  | None => mkSensitivity 0 0
  | Some nearest =>
      let hpUp := findNearestPoint points (hpEV nearest + step) (defEV nearest) in
      let defUp := findNearestPoint points (hpEV nearest) (defEV nearest + step) in
      let baseSurvival := orZero (survival nearest) in
      let hpSurvival := survivalOr hpUp baseSurvival in
      let defSurvival := survivalOr defUp baseSurvival in
      mkSensitivity ((hpSurvival - baseSurvival) / Num.ofZ (Z.max step 1))
                    ((defSurvival - baseSurvival) / Num.ofZ (Z.max step 1))
  end.

End EvGridInsight.

(** ** Stat helpers ([computeMinEVForStat]) *)

Module Stats.

Local Open Scope Z_scope.

Definition sumEVs (evs : Timeline.StatsTable Z) : Z :=
  Timeline.stHp evs + Timeline.stAtk evs + Timeline.stDef evs
  + Timeline.stSpa evs + Timeline.stSpd evs + Timeline.stSpe evs.

Section MinEV.

(** [calcStat(gen, stat, base, iv, ev, level, nature)] of the calculator
    library as a function of the EV, the other arguments being fixed
    during one search. *)
Variable calcStat : Z -> Z.

(** The [while (low <= high)] loop of the binary search. *)
Equations? searchMinEV (targetStat low high minEV : Z) : Z
  by wf (Z.to_nat (high - low + 1)) lt :=
  searchMinEV targetStat low high minEV with Z_le_gt_dec low high := {
    | left _ =>
        let mid := (low + high) / 2 in
        if calcStat mid >=? targetStat
        then searchMinEV targetStat low (mid - 1) mid
        else searchMinEV targetStat (mid + 1) high minEV
    | right _ => minEV
  }.
Proof.
  - assert (low <= (low + high) / 2 <= high)
      by (split; [apply Z.div_le_lower_bound | apply Z.div_le_upper_bound]; lia).
    lia.
  - assert (low <= (low + high) / 2 <= high)
      by (split; [apply Z.div_le_lower_bound | apply Z.div_le_upper_bound]; lia).
    lia.
Qed.

(** [Math.ceil(minEV / 4) * 4] *)
Definition roundUpToStep (minEV : Z) : Z :=
  Num.ceil (Num.ofZ minEV / Num.ofZ 4)%Qc * 4.

Definition computeMinEVForStat (targetStat : Z) : Z :=
  roundUpToStep (searchMinEV targetStat 0 252 252).

End MinEV.

End Stats.

(** ** Summaries of a grid evaluation ([combineDistributions],
    [adjustOpponentBulkConfig] of the simulation worker) *)

Module Summary.

Import Timeline EvGrid.

Local Open Scope Qc_scope.






(** [clampAround] of [adjustOpponentBulkConfig] *)
Definition clampAround (span step : Z) (range : Z * Z) (center : Z) : Z * Z :=
  let '(min, max) := range in
  let half := Z.max span (step * 3) in
  let nextMin := Z.max min (center - half) in
  let nextMax := Z.min max (center + half) in
  let width := (nextMax - nextMin)%Z in
  if (width <? step * 3)%Z then (min, max) else (nextMin, nextMax).

(** [adjustOpponentBulkConfig] on a configuration that is present.  The
    two fields of the configuration that only this function reads,
    [targetSide] and [enableOpponentBulkRange], are passed beside the
    fields read by the grid builders; [hpRange] and [defRange] are pairs,
    so their length is 2. *)
Definition adjustOpponentBulkConfig (targetSide : option BattleSide)
           (enableOpponentBulkRange : bool) (evConfig : EVGridConfig)
           (basePokemon : PokemonState) (useDamageRangeHeatmap : bool)
  : EVGridConfig :=
  let targetsOpponent :=
    match targetSide with Some opponent => true | _ => false end in
  if negb useDamageRangeHeatmap || negb targetsOpponent
     || negb enableOpponentBulkRange
  then evConfig
  else
    let step := Z.max (axisStep evConfig) 8 in
    let span := Z.max (step * 6) 48 in
    if (step <=? axisStep evConfig)%Z then evConfig
    else
      let baseHpEV := stHp (pkEvs basePokemon) in
      let baseDefEV := stDef (pkEvs basePokemon) in
      let nextCombined :=
        Z.min (match maxCombinedEV evConfig with Some m => m | None => 252%Z end)
              252 in
      mkConfig (clampAround span step (hpRange evConfig) baseHpEV)
               (clampAround span step (defRange evConfig) baseDefEV)
               step
               (atkRange evConfig) (spaRange evConfig) (offenseStep evConfig)
               (Some nextCombined) (offenseMaxCombinedEV evConfig)
               (prior evConfig).

End Summary.

(** ** The weighting functions on binary64 numbers

    [normalizeWeights] and [applyObservationLikelihoods] once more, this
    time on the numbers of the machine: the kernel's binary64 floats,
    which round to nearest with ties to even, overflow to Infinity and
    carry NaN as JavaScript numbers do.  The points have the fields of
    [EVGridPoint]; the arrays that the source updates in place are
    returned. *)

Module Doubles.

Import PrimFloat.

Local Open Scope float_scope.

(** A length or another small natural number as a binary64 number. *)
Definition ofNat (n : nat) : float := of_uint63 (Uint63.of_Z (Z.of_nat n)).

Record EVGridPoint := mkPoint {
  hpEV : Z;
  defEV : Z;
  atkEV : option Z;
  spaEV : option Z;
  kind : option EvGrid.Kind;
  priorWeight : float;
  weight : float;
  survival : option float;
  koChance : option float;
  observationLikelihood : option float;
  damageRangeLikelihood : option float
}.

Definition setWeight (w : float) (p : EVGridPoint) : EVGridPoint :=
  mkPoint (hpEV p) (defEV p) (atkEV p) (spaEV p) (kind p) (priorWeight p) w
          (survival p) (koChance p) (observationLikelihood p)
          (damageRangeLikelihood p).

Definition setObservationLikelihood (l : float) (p : EVGridPoint) : EVGridPoint :=
  mkPoint (hpEV p) (defEV p) (atkEV p) (spaEV p) (kind p) (priorWeight p)
          (weight p) (survival p) (koChance p) (Some l)
          (damageRangeLikelihood p).

(** [Math.max(x, y)]: NaN when an argument is NaN, and +0 rather than -0
    when the arguments are zeros of different signs. *)
Definition Math_max (x y : float) : float :=
  if is_nan x || is_nan y then nan
  else if ltb x y then y
  else if ltb y x then x
  else if get_sign x then y else x.

(** [points.reduce((acc, point) => acc + point.weight, 0)] *)
Definition totalWeight (points : list EVGridPoint) : float :=
  fold_left (fun acc point => acc + weight point) points 0.

Definition normalizeWeights (points : list EVGridPoint) : list EVGridPoint :=
  let sum := totalWeight points in
  if leb sum 0 then
    let uniform := 1 / ofNat (Nat.max (length points) 1) in
    map (setWeight uniform) points
  else
    map (fun point => setWeight (weight point / sum) point) points.

(** [likelihoods[index] ?? 0] *)
Definition likelihoodAt (likelihoods : list float) (index : nat) : float :=
  nth index likelihoods 0.

Fixpoint applyLikelihoodsFrom (index : nat) (likelihoods : list float)
         (points : list EVGridPoint) : list EVGridPoint :=
  match points with
  | [] => []
  | point :: rest =>
      let likelihood := Math_max (likelihoodAt likelihoods index) 0 in
      setWeight (priorWeight point * likelihood)
                (setObservationLikelihood likelihood point)
      :: applyLikelihoodsFrom (S index) likelihoods rest
  end.

Definition applyObservationLikelihoods (points : list EVGridPoint)
           (likelihoods : option (list float)) : list EVGridPoint :=
  match likelihoods with
  | None => normalizeWeights points
  | Some ls => normalizeWeights (applyLikelihoodsFrom 0 ls points)
  end.



End Doubles.

(* ===================================================================== *)
(** * Part II: properties                                                *)
(* ===================================================================== *)

(** ** Arithmetic on canonical rationals *)

Module NumFacts.

Local Open Scope Qc_scope.

Lemma Qc_eq_this (x y : Qc) : x = y -> (this x == this y)%Q.
Proof. intros ->. reflexivity. Qed.

(** Goals and hypotheses about [Qc] orders and equalities are moved to [Q],
    where [lra] decides linear arithmetic. *)
Ltac qc_to_q :=
  repeat match goal with
  | H : @eq Qc _ _ |- _ => apply Qc_eq_this in H
  | H : ~ @eq Qc ?a ?b |- _ =>
      let H' := fresh in
      assert (H' : ~ (this a == this b)%Q)
        by (let E := fresh in intros E; apply H; apply Qc_is_canon; exact E);
      clear H
  | |- @eq Qc _ _ => apply Qc_is_canon
  | |- ~ @eq Qc _ _ => let E := fresh in intros E; apply Qc_eq_this in E
  end;
  unfold Qcle, Qclt, Qcdiv, Qcminus, Qcplus, Qcmult, Qcopp, Q2Qc,
         Num.ofZ, Num.ofNat in *;
  cbn [this] in *;
  repeat match goal with H : _ |- _ => setoid_rewrite Qred_correct in H end;
  repeat (setoid_rewrite Qred_correct).

Ltac qc_lra := qc_to_q; lra.

Lemma leb_le (x y : Qc) : Num.leb x y = true <-> x <= y.
Proof. unfold Num.leb, Qcle. apply Qle_bool_iff. Qed.

Lemma leb_gt (x y : Qc) : Num.leb x y = false <-> y < x.
Proof.
  split; intros H.
  - destruct (Qclt_le_dec y x) as [Hlt|Hle]; auto.
    apply leb_le in Hle. congruence.
  - destruct (Num.leb x y) eqn:E; auto. apply leb_le in E.
    exfalso. eapply Qclt_not_le; eauto.
Qed.

Lemma eqb_eq (x y : Qc) : Num.eqb x y = true <-> x = y.
Proof.
  unfold Num.eqb. split.
  - apply Qc_eq_bool_correct.
  - intros ->. unfold Qc_eq_bool. destruct (Qc_eq_dec y y); congruence.
Qed.

Lemma eqb_neq (x y : Qc) : Num.eqb x y = false <-> x <> y.
Proof.
  split.
  - intros H E. apply eqb_eq in E. congruence.
  - intros H. destruct (Num.eqb x y) eqn:E; auto. apply eqb_eq in E. tauto.
Qed.


Lemma pos_neq0 (x : Qc) : 0 < x -> x <> 0.
Proof. intros H E. subst x. qc_lra. Qed.

Lemma div_nonneg (a b : Qc) : 0 <= a -> 0 < b -> 0 <= a / b.
Proof.
  intros Ha Hb. unfold Qcdiv, Qcle, Qclt, Qcmult, Qcinv, Q2Qc in *.
  cbn [this] in *. rewrite !Qred_correct.
  apply Qmult_le_0_compat; [assumption|].
  apply Qlt_le_weak, Qinv_lt_0_compat. assumption.
Qed.


Lemma ofZ_inj (a b : Z) : Num.ofZ a = Num.ofZ b -> a = b.
Proof.
  intros H. qc_to_q. unfold Qeq in H. simpl in H. lia.
Qed.

Lemma ofZ_le (a b : Z) : Num.ofZ a <= Num.ofZ b <-> (a <= b)%Z.
Proof.
  unfold Num.ofZ, Qcle, Q2Qc. cbn [this]. rewrite !Qred_correct.
  rewrite <- Zle_Qle. tauto.
Qed.

Lemma ofZ_lt (a b : Z) : Num.ofZ a < Num.ofZ b <-> (a < b)%Z.
Proof.
  unfold Num.ofZ, Qclt, Q2Qc. cbn [this]. rewrite !Qred_correct.
  rewrite <- Zlt_Qlt. tauto.
Qed.

Lemma ofZ_0 : Num.ofZ 0 = 0.
Proof. apply Qc_is_canon. reflexivity. Qed.

Lemma ofZ_pos_neq0 (z : Z) : (0 < z)%Z -> Num.ofZ z <> 0.
Proof.
  intros Hz E. rewrite <- ofZ_0 in E. apply ofZ_inj in E. lia.
Qed.

Lemma ofZ_plus (a b : Z) : Num.ofZ (a + b) = Num.ofZ a + Num.ofZ b.
Proof. qc_to_q. rewrite inject_Z_plus. reflexivity. Qed.

Lemma ofZ_succ (n : nat) : Num.ofZ (Z.of_nat (S n)) = Num.ofZ (Z.of_nat n) + 1.
Proof.
  rewrite Nat2Z.inj_succ. unfold Z.succ. rewrite ofZ_plus. f_equal.
Qed.

(** An integer whose absolute value is at most [1/d] (for [d > 1]) is zero. *)
Lemma abs_ofZ_small (z : Z) (d : positive) :
  (1 < d)%positive ->
  Num.leb (Num.abs (Num.ofZ z)) (Q2Qc (1 # d)) = true <-> z = 0%Z.
Proof.
  intros Hd. rewrite leb_le. unfold Num.abs, Qcabs.Qcabs, Num.ofZ, Qcle, Q2Qc.
  cbn [this]. rewrite !Qred_correct.
  split.
  - intros H. destruct z as [|p|p]; auto.
    + exfalso. unfold Qabs.Qabs, inject_Z, Qle in H. simpl in H. lia.
    + exfalso. unfold Qabs.Qabs, inject_Z, Qle in H. simpl in H. lia.
  - intros ->. unfold Qle. simpl. lia.
Qed.

End NumFacts.
(** ** The stable sort and prefix scans *)

Module SortFacts.

Import NumFacts.

Local Open Scope Qc_scope.

Section SortBy.

Variable A : Type.
Variable cmp : A -> A -> Qc.

Lemma insertBy_perm (x : A) (l : list A) :
  Permutation (Num.insertBy cmp x l) (x :: l).
Proof.
  induction l as [|y l IH]; simpl.
  - apply Permutation_refl.
  - destruct (Num.leb (cmp x y) 0).
    + apply Permutation_refl.
    + eapply perm_trans; [apply perm_skip, IH | apply perm_swap].
Qed.

Lemma sortBy_perm (l : list A) : Permutation (Num.sortBy cmp l) l.
Proof.
  induction l as [|x l IH]; simpl.
  - constructor.
  - eapply perm_trans; [apply insertBy_perm | now apply perm_skip].
Qed.

Lemma sortBy_In (l : list A) (x : A) : In x (Num.sortBy cmp l) <-> In x l.
Proof.
  split; apply Permutation_in;
    [apply sortBy_perm | apply Permutation_sym, sortBy_perm].
Qed.

(** Any relation that the comparator decides is respected by the sorted
    array. *)
Variable R : A -> A -> Prop.
Hypothesis cmp_le : forall a b, Num.leb (cmp a b) 0 = true -> R a b.
Hypothesis cmp_gt : forall a b, Num.leb (cmp a b) 0 = false -> R b a.

Lemma insertBy_Sorted (x : A) (l : list A) :
  Sorted R l -> Sorted R (Num.insertBy cmp x l).
Proof.
  induction l as [|y l IH]; intros Hs; simpl.
  - repeat constructor.
  - destruct (Num.leb (cmp x y) 0) eqn:E.
    + constructor; [assumption|]. constructor. now apply cmp_le.
    + apply Sorted_inv in Hs as [Hs Hhd]. constructor; [now apply IH|].
      destruct l as [|z l]; simpl.
      * constructor. now apply cmp_gt.
      * destruct (Num.leb (cmp x z) 0); constructor.
        -- now apply cmp_gt.
        -- now inversion Hhd.
Qed.

Lemma sortBy_Sorted (l : list A) : Sorted R (Num.sortBy cmp l).
Proof.
  induction l as [|x l IH]; simpl.
  - constructor.
  - now apply insertBy_Sorted.
Qed.

Hypothesis R_trans : forall a b c, R a b -> R b c -> R a c.


End SortBy.



Lemma takeWhile_dropWhile (A : Type) (p : A -> bool) (l : list A) :
  Num.takeWhile p l ++ Num.dropWhile p l = l.
Proof.
  induction l as [|x l IH]; simpl; auto.
  destruct (p x); simpl; congruence.
Qed.

End SortFacts.
(** ** The damage cache is a strict LRU *)

Module CacheSpec.

Import Cache.

Section LRU.

Variables K V : Type.
Variable serializeKey : K -> string.

Let Store := MapStore V.
Let CacheT := DamageCache V.
Let OpT := Op K V.

Implicit Types (m : Store) (c : CacheT) (id : string) (ops : list OpT).

(** First occurrence of [id] removed from a list of keys. *)
Fixpoint removeKey (id : string) (ks : list string) : list string :=
  match ks with
  | [] => []
  | k :: rest => if String.eqb k id then rest else k :: removeKey id rest
  end.

(** *** The [Map] primitives on association lists *)

Lemma mapGet_None m id : mapGet id m = None <-> ~ In id (map fst m).
Proof.
  induction m as [|[k v] m IH]; simpl.
  - tauto.
  - destruct (String.eqb_spec k id) as [->|Hne]; split; intros H.
    + discriminate.
    + exfalso; apply H; now left.
    + intros [E|Hin]; [congruence | now apply IH].
    + apply IH; tauto.
Qed.

Lemma mapGet_Some_In m id v : mapGet id m = Some v -> In id (map fst m).
Proof.
  intros H. destruct (in_dec string_dec id (map fst m)) as [Hin|Hn]; auto.
  apply mapGet_None in Hn. congruence.
Qed.

Lemma mapHas_true m id : mapHas id m = true <-> In id (map fst m).
Proof.
  unfold mapHas. destruct (mapGet id m) eqn:E.
  - split; auto. intros _. eapply mapGet_Some_In; eauto.
  - split; [discriminate|]. intros Hin. apply mapGet_None in E. tauto.
Qed.

Lemma keys_mapDelete m id : map fst (mapDelete id m) = removeKey id (map fst m).
Proof.
  induction m as [|[k v] m IH]; simpl; auto.
  destruct (String.eqb k id); simpl; congruence.
Qed.

Lemma mapDelete_fresh m id : ~ In id (map fst m) -> mapDelete id m = m.
Proof.
  induction m as [|[k v] m IH]; simpl; auto. intros H.
  destruct (String.eqb_spec k id) as [->|Hne]; [tauto|].
  f_equal. apply IH. tauto.
Qed.

Lemma mapSet_fresh m id v : ~ In id (map fst m) -> mapSet id v m = m ++ [(id, v)].
Proof.
  induction m as [|[k w] m IH]; simpl; auto. intros H.
  destruct (String.eqb_spec k id) as [->|Hne]; [tauto|].
  f_equal. apply IH. tauto.
Qed.

Lemma removeKey_incl id ks k : In k (removeKey id ks) -> In k ks.
Proof.
  induction ks as [|a ks IH]; simpl; auto.
  destruct (String.eqb a id); simpl; intuition.
Qed.

Lemma removeKey_other id ks k : k <> id -> In k ks -> In k (removeKey id ks).
Proof.
  intros Hne. induction ks as [|a ks IH]; simpl; auto.
  destruct (String.eqb_spec a id) as [->|Ha]; simpl; intuition congruence.
Qed.

Lemma removeKey_NoDup id ks : NoDup ks -> NoDup (removeKey id ks) /\ ~ In id (removeKey id ks).
Proof.
  induction 1 as [|a ks Hn Hnd IH]; simpl.
  - split; [constructor | tauto].
  - destruct (String.eqb_spec a id) as [->|Ha].
    + split; assumption.
    + destruct IH as [IH1 IH2]. split.
      * constructor; auto. intros Hin. apply Hn. eapply removeKey_incl; eauto.
      * simpl. intros [E|Hin]; [congruence | tauto].
Qed.

Lemma removeKey_fresh id ks : ~ In id ks -> removeKey id ks = ks.
Proof.
  induction ks as [|a ks IH]; simpl; auto. intros H.
  destruct (String.eqb_spec a id) as [->|Ha]; [tauto|].
  f_equal. apply IH. tauto.
Qed.

Lemma removeKey_length id ks : (length (removeKey id ks) <= length ks)%nat.
Proof.
  induction ks as [|a ks IH]; simpl; auto.
  destruct (String.eqb a id); simpl; lia.
Qed.

Lemma removeKey_sorted (R : string -> string -> Prop) id ks :
  StronglySorted R ks -> StronglySorted R (removeKey id ks).
Proof.
  induction 1 as [|a ks Hs IH Hall]; simpl.
  - constructor.
  - destruct (String.eqb a id); auto.
    constructor; auto.
    rewrite Forall_forall in *. intros x Hx. apply Hall.
    eapply removeKey_incl; eauto.
Qed.

(** *** Recency read off the history *)

Lemma lastUseFrom_bounds t ops id :
  lastUseFrom serializeKey t ops id = O \/
  (t <= lastUseFrom serializeKey t ops id < t + length ops)%nat.
Proof.
  revert t. induction ops as [|o ops IH]; intros t; simpl; auto.
  destruct (IH (S t)) as [E|Hb].
  - rewrite E. destruct (String.eqb (opId serializeKey o) id); [right; lia | now left].
  - destruct (lastUseFrom serializeKey (S t) ops id) eqn:E; [lia|]. right. lia.
Qed.

Lemma lastUseFrom_snoc t ops o id :
  lastUseFrom serializeKey t (ops ++ [o]) id =
  if String.eqb (opId serializeKey o) id then (t + length ops)%nat
  else lastUseFrom serializeKey t ops id.
Proof.
  revert t. induction ops as [|a ops IH]; intros t; simpl.
  - destruct (String.eqb (opId serializeKey o) id); [lia | reflexivity].
  - rewrite IH.
    destruct (String.eqb (opId serializeKey o) id) eqn:Eo.
    + replace (S t + length ops)%nat with (S (t + length ops)) by lia.
      replace (t + S (length ops))%nat with (S (t + length ops)) by lia.
      reflexivity.
    + reflexivity.
Qed.

Lemma lastUse_snoc_same ops o :
  lastUse serializeKey (ops ++ [o]) (opId serializeKey o) = S (length ops).
Proof.
  unfold lastUse. rewrite lastUseFrom_snoc, String.eqb_refl. reflexivity.
Qed.

Lemma lastUse_snoc_other ops o id :
  id <> opId serializeKey o ->
  lastUse serializeKey (ops ++ [o]) id = lastUse serializeKey ops id.
Proof.
  intros Hne. unfold lastUse. rewrite lastUseFrom_snoc.
  destruct (String.eqb_spec (opId serializeKey o) id); congruence.
Qed.

Lemma lastUse_le ops id : (lastUse serializeKey ops id <= length ops)%nat.
Proof.
  unfold lastUse. destruct (lastUseFrom_bounds 1 ops id); lia.
Qed.

(** *** The invariant of a cache reached through a history *)

Definition usedBefore ops (a b : string) : Prop :=
  (lastUse serializeKey ops a < lastUse serializeKey ops b)%nat.

Record Inv ops c : Prop := {
  inv_nodup : NoDup (keys c);
  inv_used : forall k, In k (keys c) -> (0 < lastUse serializeKey ops k)%nat;
  inv_order : StronglySorted (usedBefore ops) (keys c)
}.

(** Moving [id] to the most recent position keeps the invariant. *)
Lemma touch_order ops o ks :
  NoDup ks ->
  (forall k, In k ks -> (0 < lastUse serializeKey ops k)%nat) ->
  StronglySorted (usedBefore ops) ks ->
  let id := opId serializeKey o in
  let ks' := removeKey id ks ++ [id] in
  NoDup ks' /\
  (forall k, In k ks' -> (0 < lastUse serializeKey (ops ++ [o]) k)%nat) /\
  StronglySorted (usedBefore (ops ++ [o])) ks'.
Proof.
  intros Hnd Hused Hsort id ks'. subst ks'.
  destruct (removeKey_NoDup id Hnd) as [Hnd' Hfresh].
  assert (Hold : forall k, In k (removeKey id ks) ->
            lastUse serializeKey (ops ++ [o]) k = lastUse serializeKey ops k).
  { intros k Hk. apply lastUse_snoc_other. intros ->. tauto. }
  split; [|split].
  - apply NoDup_app; [assumption | repeat constructor; simpl; tauto |].
    intros x Hx [<-|[]]. tauto.
  - intros k Hk. apply in_app_or in Hk as [Hk|[<-|[]]].
    + rewrite (Hold _ Hk). apply Hused. eapply removeKey_incl; eauto.
    + subst id. rewrite lastUse_snoc_same. lia.
  - assert (Hrem := removeKey_sorted id Hsort).
    revert Hold Hrem. generalize (removeKey id ks) as l.
    induction l as [|a l IH]; intros Hold Hrem; simpl.
    + repeat constructor.
    + inversion Hrem as [|? ? Hl Hall]; subst. constructor.
      * apply IH; auto. intros k Hk. apply Hold. now right.
      * rewrite Forall_forall in *. intros x Hx.
        unfold usedBefore in *.
        apply in_app_or in Hx as [Hx|[<-|[]]].
        -- rewrite (Hold a), (Hold x); simpl; auto.
        -- rewrite (Hold a) by (simpl; auto). subst id.
           rewrite lastUse_snoc_same.
           pose proof (lastUse_le ops a). lia.
Qed.

Lemma get_hit_store k v c :
  NoDup (keys c) ->
  mapGet (serializeKey k) (store c) = Some v ->
  get serializeKey k c =
    (Some v, {| limit := limit c;
                store := mapDelete (serializeKey k) (store c) ++ [(serializeKey k, v)] |}).
Proof.
  intros Hnd Hget. unfold get. rewrite Hget. do 2 f_equal.
  apply mapSet_fresh. rewrite keys_mapDelete.
  apply (removeKey_NoDup (serializeKey k) Hnd).
Qed.

(** The store after [set], before the overflow check: the key is at the
    most recent position. *)
Definition inserted (k : K) (v : V) c : Store :=
  mapDelete (serializeKey k) (store c) ++ [(serializeKey k, v)].

Lemma set_store k v c :
  NoDup (keys c) ->
  store (set serializeKey k v c) =
    if (mapSize (inserted k v c) >? limit c)%Z
    then tl (inserted k v c) else inserted k v c.
Proof.
  intros Hnd. unfold set, inserted. cbn [store].
  set (id := serializeKey k).
  assert (E : (if mapHas id (store c) then mapDelete id (store c) else store c)
              = mapDelete id (store c)).
  { destruct (mapHas id (store c)) eqn:Eh; auto.
    symmetry. apply mapDelete_fresh. rewrite <- mapHas_true. congruence. }
  rewrite E.
  rewrite mapSet_fresh
    by (rewrite keys_mapDelete; apply (removeKey_NoDup id Hnd)).
  destruct (mapSize _ >? limit c)%Z; auto.
  destruct (mapDelete id (store c) ++ [(id, v)]) as [|[k0 v0] rest] eqn:Es.
  - reflexivity.
  - simpl. now rewrite String.eqb_refl.
Qed.

Lemma keys_inserted k v c :
  map fst (inserted k v c) = removeKey (serializeKey k) (keys c) ++ [serializeKey k].
Proof.
  unfold inserted, keys. rewrite map_app, keys_mapDelete. reflexivity.
Qed.

Lemma map_fst_tl m : map fst (tl m) = tl (map fst m).
Proof. destruct m; reflexivity. Qed.

Lemma Inv_tl ops (ks : list string) :
  NoDup ks /\ (forall k, In k ks -> (0 < lastUse serializeKey ops k)%nat) /\
  StronglySorted (usedBefore ops) ks ->
  NoDup (tl ks) /\ (forall k, In k (tl ks) -> (0 < lastUse serializeKey ops k)%nat) /\
  StronglySorted (usedBefore ops) (tl ks).
Proof.
  intros (Hnd & Hu & Hs). destruct ks as [|a ks]; simpl; auto.
  inversion Hnd; inversion Hs; subst. repeat split; auto.
  intros k Hk. apply Hu. now right.
Qed.

Lemma step_Inv ops c o :
  Inv ops c -> Inv (ops ++ [o]) (step serializeKey c o).
Proof.
  intros [Hnd Hused Hsort].
  pose proof (touch_order o Hnd Hused Hsort) as Htouch. cbv zeta in Htouch.
  destruct o as [k|k v]; simpl in *.
  - destruct (mapGet (serializeKey k) (store c)) as [v|] eqn:Eg.
    + rewrite (@get_hit_store k v c Hnd Eg). simpl.
      destruct Htouch as (H1 & H2 & H3).
      pose proof (keys_inserted k v c) as Ek. unfold inserted in Ek.
      constructor; unfold keys; simpl; rewrite Ek; auto.
    + unfold get. rewrite Eg. simpl.
      apply mapGet_None in Eg. fold (keys c) in Eg.
      rewrite removeKey_fresh in Htouch by assumption.
      destruct Htouch as (H1 & H2 & H3).
      constructor; auto.
      * intros k' Hk'. apply H2. apply in_or_app. now left.
      * clear -H3. induction (keys c) as [|a l IH]; simpl in *.
        -- constructor.
        -- inversion H3 as [|? ? Hl Hall]; subst. constructor; auto.
           rewrite Forall_forall in *. intros x Hx. apply Hall.
           apply in_or_app. now left.
  - rewrite <- keys_inserted with (v := v) in Htouch.
    pose proof (@set_store k v c Hnd) as Es.
    destruct (mapSize (inserted k v c) >? limit c)%Z.
    + apply Inv_tl in Htouch. destruct Htouch as (H1 & H2 & H3).
      constructor; unfold keys; rewrite Es; rewrite map_fst_tl; auto.
    + destruct Htouch as (H1 & H2 & H3).
      constructor; unfold keys; rewrite Es; auto.
Qed.

Lemma step_limit c o : limit (step serializeKey c o) = limit c.
Proof.
  destruct o as [k|k v]; simpl; auto.
  unfold get. destruct (mapGet _ _); reflexivity.
Qed.

Lemma run_snoc c ops o :
  run serializeKey c (ops ++ [o]) = step serializeKey (run serializeKey c ops) o.
Proof. unfold run. now rewrite fold_left_app. Qed.

Lemma run_limit c ops : limit (run serializeKey c ops) = limit c.
Proof.
  induction ops as [|o ops IH] using rev_ind; auto.
  now rewrite run_snoc, step_limit.
Qed.

Lemma run_Inv l ops : Inv ops (run serializeKey (new V l) ops).
Proof.
  induction ops as [|o ops IH] using rev_ind.
  - constructor; simpl; [constructor | tauto | constructor].
  - rewrite run_snoc. now apply step_Inv.
Qed.

Lemma step_size c o :
  NoDup (keys c) -> (0 <= limit c)%Z ->
  (mapSize (store c) <= limit c)%Z ->
  (mapSize (store (step serializeKey c o)) <= limit c)%Z.
Proof.
  intros Hnd Hl Hs. destruct o as [k|k v]; cbn [step].
  - destruct (mapGet (serializeKey k) (store c)) as [v|] eqn:Eg.
    + rewrite (@get_hit_store k v c Hnd Eg). cbn [snd store].
      apply mapGet_Some_In in Eg.
      unfold mapSize in *. rewrite length_app. simpl.
      assert (length (mapDelete (serializeKey k) (store c)) < length (store c))%nat.
      { clear -Eg. induction (store c) as [|[a w] m IH]; simpl in *; [tauto|].
        destruct (String.eqb_spec a (serializeKey k)); simpl; [lia|].
        destruct Eg as [E|Hin]; [congruence|]. specialize (IH Hin). lia. }
      lia.
    + unfold get. rewrite Eg. assumption.
  - rewrite (@set_store k v c Hnd).
    assert (Hlen : (length (inserted k v c) <= S (length (store c)))%nat).
    { unfold inserted. rewrite length_app. simpl.
      pose proof (removeKey_length (serializeKey k) (map fst (store c))) as Hr.
      rewrite <- keys_mapDelete in Hr.
      rewrite !length_map in Hr. lia. }
    destruct (mapSize (inserted k v c) >? limit c)%Z eqn:Eo.
    + unfold mapSize in *. destruct (inserted k v c); simpl in *; lia.
    + rewrite Z.gtb_ltb in Eo. apply Z.ltb_ge in Eo. assumption.
Qed.

Lemma run_size l ops :
  (0 <= limit (new V l))%Z ->
  (mapSize (store (run serializeKey (new V l) ops)) <= limit (new V l))%Z.
Proof.
  intros Hl. induction ops as [|o ops IH] using rev_ind.
  - exact Hl.
  - rewrite run_snoc.
    pose proof (run_Inv l ops) as [Hnd _ _].
    pose proof (run_limit (new V l) ops) as El.
    rewrite <- El. apply step_size; rewrite ?El; auto.
Qed.

(** *** Properties shared by every stored value *)

Variable P : V -> Prop.

Definition storeAll m : Prop := forall id v, In (id, v) m -> P v.

Lemma mapGet_In m id v : mapGet id m = Some v -> exists k, In (k, v) m.
Proof.
  induction m as [|[k w] m IH]; simpl; [discriminate|].
  destruct (String.eqb k id).
  - intros [= ->]. exists k. now left.
  - intros H. destruct (IH H) as (k' & Hk'). exists k'. now right.
Qed.

Lemma mapDelete_subset m id x : In x (mapDelete id m) -> In x m.
Proof.
  induction m as [|[k w] m IH]; simpl; auto.
  destruct (String.eqb k id); simpl; intuition.
Qed.

Lemma mapSet_values m id v k w :
  In (k, w) (mapSet id v m) -> w = v \/ In (k, w) m.
Proof.
  induction m as [|[k0 w0] m IH]; simpl.
  - intros [[= <- <-]|[]]. now left.
  - destruct (String.eqb k0 id); simpl.
    + intros [[= <- <-]|H]; auto.
    + intros [E|H]; auto. destruct (IH H); auto.
Qed.

Lemma get_storeAll key c :
  storeAll (store c) ->
  storeAll (store (snd (get serializeKey key c))) /\
  forall v, fst (get serializeKey key c) = Some v -> P v.
Proof.
  intros Hall. unfold get.
  destruct (mapGet (serializeKey key) (store c)) as [cached|] eqn:Eg; simpl.
  - destruct (mapGet_In _ _ Eg) as (k & Hk).
    split.
    + intros id v Hin. apply mapSet_values in Hin as [->|Hin].
      * eapply Hall, Hk.
      * eapply Hall, mapDelete_subset, Hin.
    + intros v [= <-]. eapply Hall, Hk.
  - split; [assumption | discriminate].
Qed.

Lemma set_storeAll key value c :
  storeAll (store c) -> P value -> storeAll (store (set serializeKey key value c)).
Proof.
  intros Hall Hv. unfold set. cbn [store].
  set (s1 := if mapHas _ _ then _ else _).
  assert (H1 : storeAll s1).
  { unfold s1. destruct (mapHas _ _); [|assumption].
    intros id v Hin. eapply Hall, mapDelete_subset, Hin. }
  set (s2 := mapSet _ value s1).
  assert (H2 : storeAll s2).
  { intros id v Hin. apply mapSet_values in Hin as [->|Hin]; eauto. }
  destruct (mapSize s2 >? limit c)%Z; [|assumption].
  destruct (mapFirstKey s2); [|assumption].
  intros id v Hin. eapply H2, mapDelete_subset, Hin.
Qed.

(** C6.  The damage cache is a strict LRU of fixed capacity (512 by
    default).  For a cache created with a non-negative capacity and
    driven by any history of [get]/[set] operations: the number of
    stored entries never exceeds the capacity; the store lists its keys,
    without repetition, from least to most recently used (recency read
    off the history by [lastUse]); a [get] that hits returns the stored
    value and moves its key to the most recent position, a miss changes
    nothing; a [set] puts its key at the most recent position and, when
    that grows the store beyond the capacity, evicts exactly one entry,
    the least recently used one. *)
Theorem DamageCache_strict_LRU (lim : Z) (ops : list (Op K V)) :
  (0 <= lim)%Z ->
  let c := run serializeKey (new V (Some lim)) ops in
  limit (new V None) = 512%Z /\
  (mapSize (store c) <= lim)%Z /\
  NoDup (keys c) /\
  StronglySorted (usedBefore ops) (keys c) /\
  (forall k v,
      mapGet (serializeKey k) (store c) = Some v ->
      fst (get serializeKey k c) = Some v /\
      store (snd (get serializeKey k c)) =
        mapDelete (serializeKey k) (store c) ++ [(serializeKey k, v)]) /\
  (forall k,
      mapGet (serializeKey k) (store c) = None ->
      get serializeKey k c = (None, c)) /\
  (forall k v,
      let c' := set serializeKey k v c in
      (mapSize (store c') <= lim)%Z /\
      if (mapSize (inserted k v c) >? lim)%Z
      then exists evicted,
             inserted k v c = evicted :: store c' /\
             forall k', In k' (keys c') ->
               usedBefore (ops ++ [OpSet k v]) (fst evicted) k'
      else store c' = inserted k v c).
Proof.
  intros Hlim c.
  pose proof (run_Inv (Some lim) ops) as HI. fold c in HI.
  pose proof (@run_size (Some lim) ops Hlim) as Hsz. fold c in Hsz.
  cbn [new limit] in Hsz.
  assert (Hl : limit c = lim) by (unfold c; now rewrite run_limit).
  destruct HI as [Hnd Hused Hsort].
  split; [reflexivity|]. split; [assumption|].
  split; [assumption|]. split; [assumption|].
  split; [|split].
  - intros k v Hget. rewrite (@get_hit_store k v c Hnd Hget). auto.
  - intros k Hget. unfold get. now rewrite Hget.
  - intros k v c'. split.
    + pose proof (@step_size c (OpSet k v) Hnd) as Hs. cbn [step] in Hs.
      rewrite Hl in Hs. apply Hs; auto.
    + pose proof (@step_Inv ops c (OpSet k v) (@Build_Inv ops c Hnd Hused Hsort)) as HI'.
      cbn [step] in HI'. fold c' in HI'.
      pose proof (@set_store k v c Hnd) as Es. fold c' in Es. rewrite Hl in Es.
      pose proof (@touch_order ops (OpSet k v) (keys c) Hnd Hused Hsort) as Ht.
      cbv zeta in Ht. cbn [opId] in Ht. rewrite <- keys_inserted with (v := v) in Ht.
      destruct (mapSize (inserted k v c) >? lim)%Z eqn:Eo; [|assumption].
      clearbody c' c.
      destruct (inserted k v c) as [|e rest] eqn:Ei.
      * unfold inserted in Ei. apply (f_equal (@length _)) in Ei.
        rewrite length_app in Ei. simpl in Ei. lia.
      * exists e. cbn [tl] in Es. unfold keys. rewrite Es.
        split; [reflexivity|].
        destruct Ht as (_ & _ & Hs'). cbn [map] in Hs'.
        apply StronglySorted_inv in Hs' as [_ Hall].
        rewrite Forall_forall in Hall. exact Hall.
Qed.

End LRU.

(** The theorem at a capacity of two, with string keys serialised by the
    identity and a history that overflows once. *)
Lemma DamageCache_strict_LRU_witness :
  (0 <= 2)%Z /\
  (mapSize (store (run (fun k : string => k) (new nat (Some 2%Z))
                       [OpSet "a"%string 1%nat; OpSet "b"%string 2%nat;
                        OpGet nat "a"%string; OpSet "c"%string 3%nat])) <= 2)%Z.
Proof.
  split; [lia|].
  exact (proj1 (proj2 (@DamageCache_strict_LRU string nat (fun k => k) 2%Z
           [OpSet "a"%string 1%nat; OpSet "b"%string 2%nat;
            OpGet nat "a"%string; OpSet "c"%string 3%nat] ltac:(lia)))).
Defined.

End CacheSpec.
(** ** The EV grid and weighting engine *)

Module EvGridSpec.

Import EvGrid NumFacts.

Local Open Scope Qc_scope.

(** *** Sums of weights *)

Definition qsum (xs : list Qc) : Qc := fold_right Qcplus 0 xs.





Lemma qsum_nonneg (xs : list Qc) : Forall (fun x => 0 <= x) xs -> 0 <= qsum xs.
Proof.
  induction 1 as [|x xs Hx _ IH]; simpl.
  - apply Qcle_refl.
  - qc_lra.
Qed.




Lemma normalizeWeights_length (points : list EVGridPoint) :
  length (normalizeWeights points) = length points.
Proof.
  unfold normalizeWeights. destruct (Num.leb _ _); apply length_map.
Qed.





(** *** The posterior update *)













End EvGridSpec.
(** *** Ranking survival plans *)

Module RankSpec.

Import EvGrid NumFacts SortFacts.

Local Open Scope Qc_scope.





Lemma within_MIN_EV_EPS (a b : Z) :
  Num.leb (Num.abs (Num.ofZ (a - b))) MIN_EV_EPS = (a =? b)%Z.
Proof.
  destruct (Z.eqb_spec a b) as [->|Hne].
  - apply abs_ofZ_small; lia.
  - destruct (Num.leb _ _) eqn:E; auto.
    apply abs_ofZ_small in E; lia.
Qed.

Lemma noTarget_positive (target : Qc) : 0 < target -> noTarget (Some target) = false.
Proof.
  intros H. unfold noTarget. apply orb_false_iff. split.
  - apply eqb_neq. now apply pos_neq0.
  - now apply leb_gt.
Qed.


(** With a positive target the ranking is the filter-sort-filter pipeline. *)
Lemma rankTopPlans_positive (points : list EVGridPoint) (target : Qc) :
  0 < target ->
  rankTopPlans points (Some target) =
  match Num.sortBy byInvestmentThenSurvival (filter (meetsSurvival target) points) with
  | [] => []
  | first :: rest =>
      map toQualifiedPlan
          (filter (fun p => (totalInvestment p =? totalInvestment first)%Z)
                  (first :: rest))
  end.
Proof.
  intros H. unfold rankTopPlans. rewrite (noTarget_positive H).
  destruct (Num.sortBy _ _) as [|first rest]; [reflexivity|].
  f_equal. apply filter_ext. intros p. apply within_MIN_EV_EPS.
Qed.



End RankSpec.
(** *** Building the grids *)

Module GridSpec.

Import EvGrid NumFacts.

(** [x] is an iteration value of [for (x = lo; x <= hi; x += step)]. *)
Definition onAxis (step : Z) (range : Z * Z) (x : Z) : Prop :=
  (fst range <= x <= snd range)%Z /\
  exists i : Z, (0 <= i)%Z /\ x = (fst range + i * step)%Z.

Lemma forRange_stops_at (m : nat) :
  forall step v hi,
    (0 < step)%Z -> (Z.to_nat (hi - v + 1) <= m)%nat ->
    exists n l,
      (forall fuel, (n <= fuel)%nat -> forRange fuel step v hi = Some l) /\
      (forall x, In x l <-> onAxis step (v, hi) x).
Proof.
  induction m as [|m IH]; intros step v hi Hstep Hm.
  - exists 1%nat, []. split.
    + intros [|fuel] Hf; [lia|]. simpl.
      destruct (Z.leb_spec v hi); [lia | reflexivity].
    + intros x. split; [intros []|]. unfold onAxis. simpl. lia.
  - destruct (Z.leb_spec v hi) as [Hle|Hgt].
    + destruct (IH step (v + step)%Z hi Hstep ltac:(lia)) as (n & l & Hrun & Hin).
      exists (S n), (v :: l). split.
      * intros [|fuel] Hf; [lia|]. simpl.
        destruct (Z.leb_spec v hi); [|lia].
        rewrite Hrun by lia. reflexivity.
      * intros x. simpl. rewrite Hin. unfold onAxis. simpl. split.
        -- intros [<-|(Hb & i & Hi & ->)].
           ++ split; [lia|]. exists 0%Z. lia.
           ++ split; [nia|]. exists (i + 1)%Z. lia.
        -- intros (Hb & i & Hi & ->).
           destruct (Z.eq_dec i 0) as [->|Hne]; [left; lia|].
           right. split; [nia|]. exists (i - 1)%Z. lia.
    + exists 1%nat, []. split.
      * intros [|fuel] Hf; [lia|]. simpl.
        destruct (Z.leb_spec v hi); [lia | reflexivity].
      * intros x. split; [intros []|]. unfold onAxis. simpl. lia.
Qed.

Lemma forRange_stops (step v hi : Z) :
  (0 < step)%Z ->
  exists n l,
    (forall fuel, (n <= fuel)%nat -> forRange fuel step v hi = Some l) /\
    (forall x, In x l <-> onAxis step (v, hi) x).
Proof.
  intros H. now apply (@forRange_stops_at (Z.to_nat (hi - v + 1))).
Qed.

(** With a step that is not positive the same loop never leaves a
    non-empty range. *)
Lemma forRange_naive_diverges (fuel : nat) :
  forall step v hi,
    (step <= 0)%Z -> (v <= hi)%Z -> forRange fuel step v hi = None.
Proof.
  induction fuel as [|fuel IH]; intros step v hi Hs Hv; simpl.
  - reflexivity.
  - destruct (Z.leb_spec v hi); [|lia]. rewrite IH by lia. reflexivity.
Qed.

Lemma normalizeWeights_coords (A : Type) (f : EVGridPoint -> A) (points : list EVGridPoint) :
  (forall w p, f (setWeight w p) = f p) ->
  map f (normalizeWeights points) = map f points.
Proof.
  intros Hf. unfold normalizeWeights.
  destruct (Num.leb _ _); rewrite map_map; apply map_ext; intros p; apply Hf.
Qed.

Lemma in_grid (A : Type) (mk : Z -> Z -> A) (limit : option Z)
      (xs ys : list Z) (a : A) :
  In a (flat_map (fun x => flat_map (fun y => if exceeds limit (x + y)
                                              then [] else [mk x y]) ys) xs)
  <-> exists x y, In x xs /\ In y ys /\ exceeds limit (x + y) = false /\ a = mk x y.
Proof.
  rewrite in_flat_map. split.
  - intros (x & Hx & Ha). apply in_flat_map in Ha as (y & Hy & Ha).
    destruct (exceeds limit (x + y)) eqn:E; [destruct Ha|].
    destruct Ha as [<-|[]]. exists x, y. auto.
  - intros (x & y & Hx & Hy & E & ->). exists x. split; [assumption|].
    apply in_flat_map. exists y. split; [assumption|]. rewrite E. now left.
Qed.

Definition withinLimit (limit : option Z) (total : Z) : Prop :=
  match limit with Some l => (total <= l)%Z | None => True end.

Lemma exceeds_false (limit : option Z) (total : Z) :
  exceeds limit total = false <-> withinLimit limit total.
Proof.
  unfold exceeds, withinLimit. destruct limit as [l|]; [|tauto].
  rewrite Z.gtb_ltb, Z.ltb_ge. tauto.
Qed.

Section Grids.

Variable Math_exp : Qc -> Qc.

Definition defenseStep (config : EVGridConfig) : Z := Z.max 4 (axisStep config).

Definition offenseAxisStep (config : EVGridConfig) : Z :=
  Z.max 4 (match offenseStep config with
           | Some s => s
           | None => axisStep config
           end).

Definition offenseRange (r : option (Z * Z)) : Z * Z :=
  match r with Some range => range | None => (0, 252)%Z end.

Definition offenseLimit (config : EVGridConfig) : option Z :=
  match offenseMaxCombinedEV config with
  | Some l => Some l
  | None => maxCombinedEV config
  end.

Lemma buildEVGrid_runs (config : EVGridConfig) :
  exists fuel points,
    (forall fuel', (fuel <= fuel')%nat ->
                   buildEVGrid Math_exp fuel' config = Some points) /\
    (forall p, In p points -> kind p = Some defense) /\
    (forall hp def,
        In (hp, def) (map (fun p => (hpEV p, defEV p)) points) <->
        onAxis (defenseStep config) (hpRange config) hp /\
        onAxis (defenseStep config) (defRange config) def /\
        withinLimit (maxCombinedEV config) (hp + def)).
Proof.
  destruct (hpRange config) as [hpMin hpMax] eqn:Ehp.
  destruct (defRange config) as [defMin defMax] eqn:Edef.
  assert (Hstep : (0 < defenseStep config)%Z) by (unfold defenseStep; lia).
  destruct (forRange_stops hpMin hpMax Hstep) as (n1 & hps & Hrun1 & Hin1).
  destruct (forRange_stops defMin defMax Hstep) as (n2 & defs & Hrun2 & Hin2).
  set (raw := flat_map
                (fun hp => flat_map
                   (fun def => if exceeds (maxCombinedEV config) (hp + def)
                               then [] else [defensePoint Math_exp config hp def])
                   defs) hps).
  exists (Nat.max n1 n2), (normalizeWeights raw). split; [|split].
  - intros fuel' Hf. unfold buildEVGrid. rewrite Ehp, Edef.
    fold (defenseStep config).
    rewrite Hrun1, Hrun2 by lia. reflexivity.
  - intros p Hp. apply (in_map kind) in Hp.
    rewrite normalizeWeights_coords in Hp by reflexivity.
    apply in_map_iff in Hp as (p0 & <- & Hp0).
    apply in_grid in Hp0 as (x & y & _ & _ & _ & ->). reflexivity.
  - intros hp def.
    rewrite normalizeWeights_coords by reflexivity.
    rewrite in_map_iff. split.
    + intros (p0 & E & Hp0).
      apply in_grid in Hp0 as (x & y & Hx & Hy & Hl & ->).
      simpl in E. injection E as <- <-.
      rewrite <- Hin1, <- Hin2, <- exceeds_false. auto.
    + intros (Hx & Hy & Hl).
      exists (defensePoint Math_exp config hp def). split; [reflexivity|].
      apply in_grid. exists hp, def.
      rewrite Hin1, Hin2, exceeds_false. auto.
Qed.

Lemma buildOffenseEVGrid_runs (config : EVGridConfig) :
  exists fuel points,
    (forall fuel', (fuel <= fuel')%nat ->
                   buildOffenseEVGrid fuel' config = Some points) /\
    (forall p, In p points -> kind p = Some offense) /\
    (forall atk spa,
        In (Some atk, Some spa) (map (fun p => (atkEV p, spaEV p)) points) <->
        onAxis (offenseAxisStep config) (offenseRange (atkRange config)) atk /\
        onAxis (offenseAxisStep config) (offenseRange (spaRange config)) spa /\
        withinLimit (offenseLimit config) (atk + spa)).
Proof.
  assert (Hstep : (0 < offenseAxisStep config)%Z) by (unfold offenseAxisStep; lia).
  destruct (offenseRange (atkRange config)) as [atkMin atkMax] eqn:Eatk.
  destruct (offenseRange (spaRange config)) as [spaMin spaMax] eqn:Espa.
  destruct (forRange_stops atkMin atkMax Hstep) as (n1 & atks & Hrun1 & Hin1).
  destruct (forRange_stops spaMin spaMax Hstep) as (n2 & spas & Hrun2 & Hin2).
  set (raw := flat_map
                (fun atk => flat_map
                   (fun spa => if exceeds (offenseLimit config) (atk + spa)
                               then [] else [offensePoint atk spa])
                   spas) atks).
  exists (Nat.max n1 n2), (normalizeWeights raw). split; [|split].
  - intros fuel' Hf. unfold buildOffenseEVGrid.
    fold (offenseRange (atkRange config)) (offenseRange (spaRange config))
         (offenseAxisStep config) (offenseLimit config).
    rewrite Eatk, Espa. cbn [fst snd].
    rewrite Hrun1, Hrun2 by lia. reflexivity.
  - intros p Hp. apply (in_map kind) in Hp.
    rewrite normalizeWeights_coords in Hp by reflexivity.
    apply in_map_iff in Hp as (p0 & <- & Hp0).
    apply in_grid in Hp0 as (x & y & _ & _ & _ & ->). reflexivity.
  - intros atk spa.
    rewrite normalizeWeights_coords by reflexivity.
    rewrite in_map_iff. split.
    + intros (p0 & E & Hp0).
      apply in_grid in Hp0 as (x & y & Hx & Hy & Hl & ->).
      simpl in E. injection E as <- <-.
      rewrite <- Hin1, <- Hin2, <- exceeds_false. auto.
    + intros (Hx & Hy & Hl).
      exists (offensePoint atk spa). split; [reflexivity|].
      apply in_grid. exists atk, spa.
      rewrite Hin1, Hin2, exceeds_false. auto.
Qed.

(** C9.  [buildEVGrid] and [buildOffenseEVGrid] enumerate with the
    effective step [max(4, configured step)], which is at least 4
    whatever the configuration says: both builders therefore return (for
    every large enough amount of fuel, the same array), whereas the loop
    run with a step that is zero or negative never leaves a non-empty
    range.  The points generated are exactly the pairs that lie on the
    effective step within the configured ranges and whose combined
    investment does not exceed the configured maximum. *)
Theorem grid_builders_terminate (config : EVGridConfig) :
  (4 <= defenseStep config)%Z /\ (4 <= offenseAxisStep config)%Z /\
  (forall fuel step lo hi,
      (step <= 0)%Z -> (lo <= hi)%Z -> forRange fuel step lo hi = None) /\
  (exists fuel points,
      (forall fuel', (fuel <= fuel')%nat ->
                     buildEVGrid Math_exp fuel' config = Some points) /\
      (forall p, In p points -> kind p = Some defense) /\
      (forall hp def,
          In (hp, def) (map (fun p => (hpEV p, defEV p)) points) <->
          onAxis (defenseStep config) (hpRange config) hp /\
          onAxis (defenseStep config) (defRange config) def /\
          withinLimit (maxCombinedEV config) (hp + def))) /\
  (exists fuel points,
      (forall fuel', (fuel <= fuel')%nat ->
                     buildOffenseEVGrid fuel' config = Some points) /\
      (forall p, In p points -> kind p = Some offense) /\
      (forall atk spa,
          In (Some atk, Some spa) (map (fun p => (atkEV p, spaEV p)) points) <->
          onAxis (offenseAxisStep config) (offenseRange (atkRange config)) atk /\
          onAxis (offenseAxisStep config) (offenseRange (spaRange config)) spa /\
          withinLimit (offenseLimit config) (atk + spa))).
Proof.
  split; [unfold defenseStep; lia|].
  split; [unfold offenseAxisStep; lia|].
  split; [intros; now apply forRange_naive_diverges|].
  split; [apply buildEVGrid_runs | apply buildOffenseEVGrid_runs].
Qed.

End Grids.

(** A configured step of zero still yields the 2 x 2 grid on step 4. *)
Example buildEVGrid_zero_step :
  option_map (map (fun p => (hpEV p, defEV p)))
    (buildEVGrid (fun _ => 1%Qc) 3
       (mkConfig (0, 4)%Z (0, 4)%Z 0%Z None None None None None
                 (PriorName "uniform"))) =
  Some [(0, 0); (0, 4); (4, 0); (4, 4)]%Z.
Proof. reflexivity. Qed.

(** The theorem at a configured step of zero: the loop run with that step
    on the range 0..4 never returns. *)
Lemma grid_builders_terminate_witness :
  (0 <= 0)%Z /\ (0 <= 4)%Z /\ forRange 5 0 0 4 = None.
Proof.
  split; [lia|]. split; [lia|].
  exact (proj1 (proj2 (proj2
           (@grid_builders_terminate (fun _ => 1%Qc)
              (mkConfig (0, 4)%Z (0, 4)%Z 0%Z None None None None None
                        (PriorName "uniform")))))
           5%nat 0%Z 0%Z 4%Z ltac:(lia) ltac:(lia)).
Defined.

End GridSpec.
(** *** Ranking knockout plans *)

Module OffenseSpec.

Import EvGrid NumFacts SortFacts RankSpec.

Local Open Scope Qc_scope.

Lemma pushUntilThree_prefix (minimal selected : list OffenseEntry) :
  exists k, pushUntilThree selected minimal = selected ++ firstn k minimal /\
            (minimal <> [] -> (1 <= k)%nat).
Proof.
  revert selected.
  induction minimal as [|e minimal IH]; intros selected; cbn [pushUntilThree].
  - exists 0%nat. split; [now rewrite app_nil_r | congruence].
  - destruct (3 <=? length (selected ++ [e]))%nat.
    + exists 1%nat. split; [reflexivity | lia].
    + destruct (IH (selected ++ [e])) as (k & E & _).
      exists (S k). split; [|lia]. rewrite E, <- app_assoc. reflexivity.
Qed.

Lemma minTotalEV_attained (group : list OffenseEntry) (m : Z) :
  minTotalEV group = Some m ->
  exists e, In e group /\ entryTotalEV e = m.
Proof.
  destruct group as [|first rest]; [discriminate|]. simpl. intros [= <-].
  assert (H : forall (l : list OffenseEntry) (acc : Z),
             fold_left (fun a e => Z.min a (entryTotalEV e)) l acc = acc \/
             exists e, In e l /\
               fold_left (fun a e => Z.min a (entryTotalEV e)) l acc = entryTotalEV e).
  { induction l as [|x l IH]; intros acc; simpl; [now left|].
    destruct (IH (Z.min acc (entryTotalEV x))) as [E|(e & He & E)].
    - rewrite E. destruct (Z.min_spec acc (entryTotalEV x)) as [[_ ->]|[_ ->]];
        [now left | right; exists x; auto].
    - right. exists e. auto. }
  destruct (H rest (entryTotalEV first)) as [E|(e & He & E)].
  - exists first. auto.
  - exists e. auto.
Qed.

Lemma within_EV_EPS (a b : Z) :
  Num.leb (Num.abs (Num.ofZ (a - b))) EV_EPS = (a =? b)%Z.
Proof.
  destruct (Z.eqb_spec a b) as [->|Hne].
  - apply abs_ofZ_small; lia.
  - destruct (Num.leb _ _) eqn:E; auto.
    apply abs_ofZ_small in E; lia.
Qed.

Lemma minimalOf_incl (group : list OffenseEntry) (e : OffenseEntry) :
  In e (minimalOf group) -> In e group.
Proof.
  unfold minimalOf. destruct (minTotalEV group); [|intros []].
  intros H. now apply filter_In in H.
Qed.

Lemma minimalOf_nonempty (group : list OffenseEntry) :
  group <> [] -> minimalOf group <> [].
Proof.
  intros Hne. unfold minimalOf.
  destruct (minTotalEV group) as [m|] eqn:Em.
  - destruct (minTotalEV_attained _ Em) as (e & He & Ee).
    assert (Hin : In e (filter (fun entry =>
                     Num.leb (Num.abs (Num.ofZ (entryTotalEV entry - m))) EV_EPS)
                     group)).
    { apply filter_In. split; [assumption|].
      rewrite within_EV_EPS. now apply Z.eqb_eq. }
    intros E. rewrite E in Hin. exact Hin.
  - destruct group; [congruence | discriminate].
Qed.

Lemma firstn_incl (A : Type) (k : nat) (l : list A) (x : A) :
  In x (firstn k l) -> In x l.
Proof.
  revert l. induction k as [|k IH]; intros [|y l]; simpl; try tauto.
  intros [E|H]; auto.
Qed.

Lemma takeWhile_incl (A : Type) (p : A -> bool) (l : list A) (x : A) :
  In x (Num.takeWhile p l) -> In x l /\ p x = true.
Proof.
  induction l as [|y l IH]; simpl; [intros []|].
  destruct (p y) eqn:E; [|intros []].
  intros [<-|H]; [auto | destruct (IH H); auto].
Qed.

Lemma dropWhile_incl (A : Type) (p : A -> bool) (l : list A) (x : A) :
  In x (Num.dropWhile p l) -> In x l.
Proof.
  induction l as [|y l IH]; simpl; auto.
  destruct (p y); simpl; auto.
Qed.

(** The selection only appends to what was selected, and only entries of
    the pool. *)
Lemma selectTiers_grows (pool selected : list OffenseEntry) :
  exists more, selectTiers pool selected = selected ++ more /\
               forall e, In e more -> In e pool.
Proof.
  funelim (selectTiers pool selected).
  - exists []. simp selectTiers. split; [now rewrite app_nil_r | intros e []].
  - destruct H as (more & E & Hin).
    destruct (pushUntilThree_prefix
                (minimalOf (Num.takeWhile (sameTier (entryKoChance first))
                                          (first :: rest))) selected)
      as (k & Ek & _).
    destruct (length selected <? 3)%nat.
    + exists (firstn k (minimalOf (Num.takeWhile (sameTier (entryKoChance first))
                                                 (first :: rest))) ++ more).
      split.
      * rewrite E, Ek, <- app_assoc. reflexivity.
      * intros e He. apply in_app_or in He as [He|He].
        -- apply firstn_incl, minimalOf_incl, takeWhile_incl in He. tauto.
        -- eapply dropWhile_incl, Hin, He.
    + exists []. split; [now rewrite app_nil_r | intros e []].
Qed.

(** On a non-empty pool the selection returns at least one entry, and its
    first entry belongs to the tier of the pool's first entry. *)
Lemma selectTiers_first (first : OffenseEntry) (rest : list OffenseEntry) :
  exists e more,
    selectTiers (first :: rest) [] = e :: more /\
    In e (first :: rest) /\ sameTier (entryKoChance first) e = true.
Proof.
  simp selectTiers. cbn [length Nat.ltb Nat.leb]. cbv zeta.
  set (group := Num.takeWhile (sameTier (entryKoChance first)) (first :: rest)).
  assert (Hgroup : group <> []).
  { unfold group. cbn [Num.takeWhile]. rewrite sameTier_refl. discriminate. }
  pose proof (minimalOf_nonempty Hgroup) as Hmin.
  destruct (pushUntilThree_prefix (minimalOf group) []) as (k & Ek & Hk).
  specialize (Hk Hmin).
  destruct (selectTiers_grows
              (Num.dropWhile (sameTier (entryKoChance first)) (first :: rest))
              (pushUntilThree [] (minimalOf group))) as (more & E & _).
  rewrite E, Ek. cbn [app].
  destruct (minimalOf group) as [|m ms] eqn:Em; [congruence|].
  destruct k as [|k]; [lia|]. cbn [firstn app].
  exists m, (firstn k ms ++ more). split; [reflexivity|].
  assert (Hm : In m (minimalOf group)) by (rewrite Em; now left).
  apply minimalOf_incl, takeWhile_incl in Hm. exact Hm.
Qed.

Definition koGe (a b : OffenseEntry) : Prop := entryKoChance b <= entryKoChance a.

Lemma byKo_le (a b : OffenseEntry) :
  Num.leb (byKoThenInvestment a b) 0 = true -> koGe a b.
Proof.
  unfold byKoThenInvestment, koGe. intros H.
  destruct (Num.eqb (entryKoChance b) (entryKoChance a)) eqn:E; cbn [negb] in H.
  - apply eqb_eq in E. rewrite E. apply Qcle_refl.
  - apply leb_le in H. qc_lra.
Qed.

Lemma byKo_gt (a b : OffenseEntry) :
  Num.leb (byKoThenInvestment a b) 0 = false -> koGe b a.
Proof.
  unfold byKoThenInvestment, koGe. intros H.
  destruct (Num.eqb (entryKoChance b) (entryKoChance a)) eqn:E; cbn [negb] in H.
  - apply eqb_eq in E. rewrite E. apply Qcle_refl.
  - apply leb_gt in H. qc_lra.
Qed.

Lemma koGe_trans (a b c : OffenseEntry) : koGe a b -> koGe b c -> koGe a c.
Proof. unfold koGe. intros H1 H2. eapply Qcle_trans; eauto. Qed.

Lemma sameTier_lower (current : Qc) (e : OffenseEntry) :
  sameTier current e = true -> current - KO_EPS <= entryKoChance e.
Proof.
  unfold sameTier. rewrite leb_le. unfold Num.abs. intros H.
  apply Qcabs.Qcabs_Qcle_condition in H. destruct H as [H _].
  unfold KO_EPS in *. qc_lra.
Qed.

(** The candidate entries of [rankOffensePlans]. *)
Definition sortableOf (points : list EVGridPoint) : list OffenseEntry :=
  map toEntry (filter hasKoChance (filter isOffense points)).

Lemma sortableOf_In (points : list EVGridPoint) (e : OffenseEntry) :
  In e (sortableOf points) <->
  exists p k, In p points /\ kind p = Some offense /\ koChance p = Some k /\
              e = toEntry p.
Proof.
  unfold sortableOf. rewrite in_map_iff. split.
  - intros (p & <- & Hp). apply filter_In in Hp as [Hp Hk].
    apply filter_In in Hp as [Hp Ho].
    unfold hasKoChance in Hk. unfold isOffense in Ho.
    destruct (koChance p) as [k|] eqn:Ek; [|discriminate].
    destruct (kind p) as [[|]|] eqn:Ekind; try discriminate.
    exists p, k. auto.
  - intros (p & k & Hp & Hkind & Hk & ->). exists p. split; [reflexivity|].
    apply filter_In. split.
    + apply filter_In. split; [assumption|]. unfold isOffense. now rewrite Hkind.
    + unfold hasKoChance. now rewrite Hk.
Qed.

Lemma rankOffensePlans_unfold (points : list EVGridPoint) (target : option Qc) :
  sortableOf points <> [] ->
  rankOffensePlans points target =
  let baseSorted := Num.sortBy byKoThenInvestment (sortableOf points) in
  let pool := if hasTarget target then filter (meetsKo target) baseSorted
              else baseSorted in
  map (toOffensePlan target)
      (selectTiers (match pool with [] => baseSorted | _ :: _ => pool end) []).
Proof.
  intros Hne. unfold rankOffensePlans. fold (sortableOf points).
  destruct (sortableOf points); [congruence | reflexivity].
Qed.

Lemma sortBy_nonempty (A : Type) (cmp : A -> A -> Qc) (l : list A) :
  l <> [] -> Num.sortBy cmp l <> [].
Proof.
  intros Hne E. pose proof (sortBy_perm cmp l) as Hp. rewrite E in Hp.
  apply Permutation_nil in Hp. congruence.
Qed.

Lemma filter_none (A : Type) (f : A -> bool) (l : list A) :
  (forall x, In x l -> f x = false) -> filter f l = [].
Proof.
  induction l as [|x l IH]; intros H; simpl; auto.
  rewrite (H x) by now left. apply IH. intros y Hy. apply H. now right.
Qed.

Lemma hasTarget_positive (t : Qc) : 0 < t -> hasTarget (Some t) = true.
Proof. intros H. unfold hasTarget. now rewrite noTarget_positive. Qed.

(** C10.  When the array holds at least one offense-kind point with a
    numeric knockout chance, [rankOffensePlans] returns a non-empty list
    for every target.  If a positive target is given and no candidate
    reaches it (within the tolerance 1e-4), the tier selection runs on the
    full candidate pool sorted by descending knockout chance: the result
    is the one obtained without a target, every returned plan has
    [meetsTarget = false], and the first plan is within the tier tolerance
    of the best knockout chance of any candidate.  [rankTopPlans], in
    contrast, returns the empty list when no point reaches a positive
    target. *)
Theorem rankOffensePlans_falls_back (points : list EVGridPoint) :
  (exists p k, In p points /\ kind p = Some offense /\ koChance p = Some k) ->
  (forall target, rankOffensePlans points target <> []) /\
  (forall t, 0 < t ->
     (forall p k, In p points -> kind p = Some offense -> koChance p = Some k ->
                  k < t - TARGET_EPS) ->
     let baseSorted := Num.sortBy byKoThenInvestment (sortableOf points) in
     StronglySorted koGe baseSorted /\
     rankOffensePlans points (Some t) =
       map (toOffensePlan None) (selectTiers baseSorted []) /\
     rankOffensePlans points (Some t) = rankOffensePlans points None /\
     Forall (fun plan => offMeetsTarget plan = false)
            (rankOffensePlans points (Some t)) /\
     exists best others,
       rankOffensePlans points (Some t) = best :: others /\
       forall p k, In p points -> kind p = Some offense -> koChance p = Some k ->
                   k - KO_EPS <= offKoChance best) /\
  (forall t, 0 < t ->
     (forall p, In p points -> orZero (survival p) < t - TARGET_EPS) ->
     rankTopPlans points (Some t) = []).
Proof.
  intros (p0 & k0 & Hp0 & Hkind0 & Hk0).
  assert (Hsortable : sortableOf points <> []).
  { intros E. assert (Hin : In (toEntry p0) (sortableOf points)).
    { apply sortableOf_In. exists p0, k0. auto. }
    rewrite E in Hin. exact Hin. }
  pose proof (sortBy_nonempty byKoThenInvestment Hsortable) as Hbase.
  split; [|split].
  - intros target. rewrite (@rankOffensePlans_unfold points target Hsortable). cbv zeta.
    set (baseSorted := Num.sortBy byKoThenInvestment (sortableOf points)) in *.
    set (pool := if hasTarget target then filter (meetsKo target) baseSorted
                 else baseSorted).
    assert (Hpool : exists first rest,
               match pool with [] => baseSorted | _ :: _ => pool end = first :: rest).
    { destruct pool as [|a pool'].
      - destruct baseSorted as [|a l]; [congruence | eauto].
      - eauto. }
    destruct Hpool as (first & rest & ->).
    destruct (selectTiers_first first rest) as (e & more & -> & _).
    discriminate.
  - intros t Hpos Hmiss baseSorted.
    assert (Hnone : forall e, In e baseSorted -> meetsKo (Some t) e = false).
    { intros e He. apply sortBy_In, sortableOf_In in He.
      destruct He as (p & k & Hp & Hkind & Hk & ->).
      unfold meetsKo. rewrite (hasTarget_positive Hpos).
      apply leb_gt. unfold toEntry. cbn [entryKoChance]. rewrite Hk. cbn [orZero].
      eapply Hmiss; eauto. }
    assert (Hsome : rankOffensePlans points (Some t) =
                    map (toOffensePlan (Some t)) (selectTiers baseSorted [])).
    { rewrite (@rankOffensePlans_unfold points (Some t) Hsortable). cbv zeta.
      fold baseSorted. rewrite (hasTarget_positive Hpos).
      rewrite (@filter_none _ (meetsKo (Some t)) baseSorted Hnone). reflexivity. }
    assert (Hnull : rankOffensePlans points None =
                    map (toOffensePlan None) (selectTiers baseSorted [])).
    { rewrite (@rankOffensePlans_unfold points None Hsortable). cbv zeta.
      fold baseSorted. cbn [hasTarget noTarget negb].
      destruct baseSorted; reflexivity. }
    destruct (selectTiers_grows baseSorted []) as (more & Esel & Hsub).
    cbn [app] in Esel.
    assert (Hsame : map (toOffensePlan (Some t)) (selectTiers baseSorted []) =
                    map (toOffensePlan None) (selectTiers baseSorted [])).
    { apply map_ext_in. intros e He. rewrite Esel in He.
      unfold toOffensePlan. rewrite (Hnone e (Hsub e He)). reflexivity. }
    pose proof (sortBy_Sorted byKoThenInvestment koGe byKo_le byKo_gt
                              (sortableOf points)) as Hsorted.
    apply Sorted_StronglySorted in Hsorted; [|exact koGe_trans].
    fold baseSorted in Hsorted.
    split; [exact Hsorted|].
    split; [now rewrite Hsome|].
    split; [now rewrite Hsome, Hnull|].
    split.
    + rewrite Hsome, Hsame. apply Forall_map, Forall_forall. reflexivity.
    + rewrite Hsome, Hsame.
      assert (Hcands : forall p k, In p points -> kind p = Some offense ->
                                   koChance p = Some k -> In (toEntry p) baseSorted).
      { intros p k Hp Hkind Hk. apply sortBy_In, sortableOf_In. exists p, k. auto. }
      assert (Hb : baseSorted <> []) by exact Hbase.
      clear Hsome Hnull Hsame Esel Hsub Hnone. clearbody baseSorted.
      destruct baseSorted as [|first rest]; [congruence|].
      destruct (selectTiers_first first rest) as (e & others & Ee & Hin & Htier).
      rewrite Ee. cbn [map].
      exists (toOffensePlan None e), (map (toOffensePlan None) others).
      split; [reflexivity|].
      intros p k Hp Hkind Hk. cbn [toOffensePlan offKoChance].
      apply sameTier_lower in Htier.
      assert (Hmax : k <= entryKoChance first).
      { assert (Hcand : In (toEntry p) (first :: rest)) by eauto.
        apply StronglySorted_inv in Hsorted as [_ Hall].
        rewrite Forall_forall in Hall.
        destruct Hcand as [E|Hc].
        - rewrite E. unfold toEntry. cbn [entryKoChance]. rewrite Hk.
          apply Qcle_refl.
        - specialize (Hall _ Hc). unfold koGe, toEntry in Hall.
          cbn [entryKoChance] in Hall. now rewrite Hk in Hall. }
      unfold KO_EPS in *. qc_lra.
  - intros t Hpos Hmiss. rewrite (rankTopPlans_positive points Hpos).
    rewrite filter_none; [reflexivity|].
    intros p Hp. apply leb_gt. now apply Hmiss.
Qed.

(** One offensive point whose knockout chance of 1/2 misses a target of
    9/10: it is returned all the same. *)
Lemma rankOffensePlans_falls_back_witness :
  let points :=
    [ mkPoint 0 0 (Some 252%Z) (Some 0%Z) (Some offense) 1 1 None
              (Some (Q2Qc (1 # 2))) None None ] in
  (exists p k, In p points /\ kind p = Some offense /\ koChance p = Some k) /\
  rankOffensePlans points (Some (Q2Qc (9 # 10))) <> [].
Proof.
  intros points.
  assert (H : exists p k, In p points /\ kind p = Some offense /\ koChance p = Some k).
  { eexists. eexists. split; [left; reflexivity|]. split; reflexivity. }
  split; [exact H|].
  exact (proj1 (rankOffensePlans_falls_back points H) (Some (Q2Qc (9 # 10)))).
Defined.

End OffenseSpec.
(** ** The branch state machine *)

Module TimelineSpec.

Import Timeline NumFacts.

Local Open Scope Qc_scope.

(** *** Probability mass of a branch set *)

Definition mass (l : list BranchState) : Qc :=
  fold_right (fun b acc => probability b + acc) 0 l.

Lemma fold_probability_from (l : list BranchState) (a : Qc) :
  fold_left (fun acc branch => acc + probability branch) l a = a + mass l.
Proof.
  revert a. induction l as [|b l IH]; intros a; simpl.
  - ring.
  - rewrite IH. ring.
Qed.

Lemma totalProbability_mass (l : list BranchState) : totalProbability l = mass l.
Proof. unfold totalProbability. rewrite fold_probability_from. ring. Qed.

Lemma mass_app (l1 l2 : list BranchState) : mass (l1 ++ l2) = mass l1 + mass l2.
Proof.
  induction l1 as [|b l1 IH]; simpl.
  - ring.
  - rewrite IH. ring.
Qed.

Lemma mass_map (f : BranchState -> BranchState) (l : list BranchState) :
  (forall b, probability (f b) = probability b) -> mass (map f l) = mass l.
Proof.
  intros Hf. induction l as [|b l IH]; simpl; [reflexivity|].
  now rewrite Hf, IH.
Qed.

Lemma mass_const (A : Type) (f : A -> BranchState) (l : list A) (p : Qc) :
  (forall x, probability (f x) = p) ->
  mass (map f l) = Num.ofNat (length l) * p.
Proof.
  intros Hf. induction l as [|x l IH].
  - simpl. unfold Num.ofNat. simpl. rewrite ofZ_0. ring.
  - cbn [map mass fold_right length]. fold (mass (map f l)).
    rewrite Hf, IH. unfold Num.ofNat. rewrite ofZ_succ. ring.
Qed.

(** *** Merging keeps the mass *)

Definition massOfMerged (m : list (BranchKey * BranchState)) : Qc := mass (map snd m).

Lemma mergeInto_mass key branch m :
  massOfMerged (mergeInto key branch m) = massOfMerged m + probability branch.
Proof.
  unfold massOfMerged. induction m as [|[k existing] m IH]; simpl.
  - ring.
  - destruct (BranchKey_eq_dec k key); simpl.
    + ring.
    + rewrite IH. ring.
Qed.

Lemma mergeFold_mass (l : list BranchState) (m : list (BranchKey * BranchState)) :
  massOfMerged
    (fold_left (fun merged branch => mergeInto (buildBranchKey branch) branch merged) l m)
  = massOfMerged m + mass l.
Proof.
  revert m. induction l as [|b l IH]; intros m; simpl.
  - ring.
  - rewrite IH, mergeInto_mass. ring.
Qed.

Lemma mergeBranches_mass (l : list BranchState) : mass (mergeBranches l) = mass l.
Proof.
  unfold mergeBranches. fold (massOfMerged
    (fold_left (fun merged branch => mergeInto (buildBranchKey branch) branch merged) l [])).
  rewrite mergeFold_mass. unfold massOfMerged. simpl. ring.
Qed.

(** *** The processors that do not roll damage keep every branch's mass *)

Lemma setSideHp_probability side v b :
  probability (setSideHp side v b) = probability b.
Proof. reflexivity. Qed.

Lemma processStatChange_mass event l : mass (processStatChange event l) = mass l.
Proof.
  unfold processStatChange. destruct (scActor event) as [side|]; [|reflexivity].
  apply mass_map. intros b. destruct (terminated b); reflexivity.
Qed.

Lemma processHpAdjustment_mass event l : mass (processHpAdjustment event l) = mass l.
Proof.
  unfold processHpAdjustment. apply mass_map. intros b.
  destruct (terminated b); [reflexivity|].
  destruct (truthyBool (haIsDamage event)); [|reflexivity].
  cbv zeta. destruct (Num.leb _ 0); reflexivity.
Qed.

Lemma processHealingEvent_mass event l : mass (processHealingEvent event l) = mass l.
Proof.
  unfold processHealingEvent. destruct (heActor event) as [side|]; [|reflexivity].
  apply mass_map. intros b. destruct (terminated b); reflexivity.
Qed.

Lemma processStatusEvent_mass event l : mass (processStatusEvent event l) = mass l.
Proof.
  unfold processStatusEvent. destruct (suActor event) as [side|]; [|reflexivity].
  apply mass_map. intros b. reflexivity.
Qed.

Lemma processSwitchEvent_mass event l : mass (processSwitchEvent event l) = mass l.
Proof.
  unfold processSwitchEvent. destruct (swActor event) as [side|]; [|reflexivity].
  apply mass_map. intros b. destruct (terminated b); reflexivity.
Qed.

Lemma processFieldToggle_mass event l : mass (processFieldToggle event l) = mass l.
Proof.
  unfold processFieldToggle. apply mass_map. intros b. reflexivity.
Qed.

Lemma leftoversSide_probability side b :
  probability (leftoversSide side b) = probability b.
Proof. unfold leftoversSide. destruct (_ && _); reflexivity. Qed.

Lemma applyLeftoversRecovery_mass l : mass (applyLeftoversRecovery l) = mass l.
Proof.
  unfold applyLeftoversRecovery. apply mass_map. intros b.
  destruct (terminated b); [reflexivity|].
  now rewrite !leftoversSide_probability.
Qed.

(** *** Attacks split a branch without losing mass *)

Section SimulatorFacts.

Variable serializeKey : DamageCacheKey -> string.
Variable computeDamage :
  BattleSide -> PokemonState -> PokemonState -> MoveConfig -> FieldState ->
  DamageComputation.
Variable dexMoveType : string -> option string.

(** The calculator's contract: a damage computation lists at least one
    roll. *)
Definition calculatorRolls : Prop :=
  forall actor attacker defender move fieldv,
    rolls (computeDamage actor attacker defender move fieldv) <> [].

(** Every computation held by a cache lists at least one roll. *)
Definition cacheRolls (cache : DamageCache) : Prop :=
  CacheSpec.storeAll (fun v => rolls v <> []) (Cache.store cache).

Lemma cacheRolls_new (l : option Z) : cacheRolls (Cache.new DamageComputation l).
Proof. intros id v []. Qed.

Lemma markTerminated_probability target actor b :
  probability (markTerminated target actor b) = probability b.
Proof. unfold markTerminated. destruct (_ || _); reflexivity. Qed.

Lemma markTerminated_hp target actor b : hp (markTerminated target actor b) = hp b.
Proof. unfold markTerminated. destruct (_ || _); reflexivity. Qed.

Lemma markTerminated_lastDamage target actor b :
  lastDamage (markTerminated target actor b) = lastDamage b.
Proof. unfold markTerminated. destruct (_ || _); reflexivity. Qed.

Lemma markTerminated_flag target actor b :
  terminated (markTerminated target actor b)
  = terminated b
    || (Num.leb (sideGet (hp b) target) 0 || Num.leb (sideGet (hp b) actor) 0).
Proof.
  unfold markTerminated. destruct (_ || _); cbn; [now rewrite orb_true_r|].
  now rewrite orb_false_r.
Qed.

Lemma rollBranch_probability event execution target branch attacker move type p roll :
  probability (fst (rollBranch event execution target branch attacker move type p roll)) = p.
Proof.
  unfold rollBranch. cbv zeta. cbn [fst]. rewrite markTerminated_probability.
  repeat match goal with
         | |- context [if ?c then _ else _] => destruct c
         | |- context [match ?x with _ => _ end] => destruct x
         end; reflexivity.
Qed.

Lemma damageFor_rolls event execution branch cache :
  calculatorRolls -> cacheRolls cache ->
  let '(computation, _, _, cache') :=
    damageFor serializeKey computeDamage dexMoveType event execution branch cache in
  rolls computation <> [] /\ cacheRolls cache'.
Proof.
  intros Hcalc Hcache. unfold damageFor. cbv zeta.
  match goal with
  | |- context [Cache.get serializeKey ?k cache] =>
      pose proof (@CacheSpec.get_storeAll _ _ serializeKey
                    (fun v => rolls v <> []) k cache Hcache) as [Hstore Hval];
      destruct (Cache.get serializeKey k cache) as [[cached|] cache'] eqn:Eg
  end; cbn [fst snd] in *.
  - split; [now apply Hval | assumption].
  - split; [apply Hcalc|]. apply CacheSpec.set_storeAll; [assumption | apply Hcalc].
Qed.

Lemma ofNat_length_neq0 (A : Type) (l : list A) : l <> [] -> Num.ofNat (length l) <> 0.
Proof.
  intros Hne. unfold Num.ofNat. apply ofZ_pos_neq0.
  destruct l; [congruence | simpl length; lia].
Qed.

Lemma attackStep_mass event execution acc branch :
  calculatorRolls -> cacheRolls (loopCache acc) ->
  let acc' := attackStep serializeKey computeDamage dexMoveType event execution acc branch in
  cacheRolls (loopCache acc') /\
  mass (newBranches acc') = mass (newBranches acc) + probability branch.
Proof.
  intros Hcalc Hcache. unfold attackStep. cbv zeta.
  destruct (terminated branch).
  { cbn [loopCache newBranches]. rewrite mass_app. simpl. split; [assumption | ring]. }
  destruct (_ || _).
  { cbn [loopCache newBranches]. rewrite mass_app. simpl. split; [assumption | ring]. }
  pose proof (@damageFor_rolls event execution branch (loopCache acc) Hcalc Hcache) as Hd.
  destruct (damageFor serializeKey computeDamage dexMoveType event execution branch
                      (loopCache acc)) as [[[computation moveForCalc] attacker] cache'].
  destruct Hd as [Hrolls Hcache'].
  cbn [loopCache newBranches]. split; [assumption|].
  rewrite mass_app, map_map.
  rewrite (@mass_const _ _ (rolls computation)
             (probability branch / Num.ofNat (length (rolls computation))))
    by (intros roll; apply rollBranch_probability).
  f_equal. field. now apply ofNat_length_neq0.
Qed.

Lemma attackLoop_mass event execution (l : list BranchState) acc :
  calculatorRolls -> cacheRolls (loopCache acc) ->
  let final := fold_left (attackStep serializeKey computeDamage dexMoveType event execution)
                         l acc in
  cacheRolls (loopCache final) /\
  mass (newBranches final) = mass (newBranches acc) + mass l.
Proof.
  intros Hcalc. revert acc. induction l as [|b l IH]; intros acc Hcache; cbn [fold_left].
  - split; [assumption | simpl; ring].
  - destruct (@attackStep_mass event execution acc b Hcalc Hcache) as [Hc Hm].
    destruct (IH _ Hc) as [Hc' Hm']. split; [assumption|].
    rewrite Hm', Hm. simpl. ring.
Qed.

Lemma processAttack_mass event l execution cache :
  calculatorRolls -> cacheRolls cache ->
  let '(result, cache') :=
    processAttack serializeKey computeDamage dexMoveType event l execution cache in
  cacheRolls cache' /\ mass (branches result) = mass l.
Proof.
  intros Hcalc Hcache. unfold processAttack. cbv zeta.
  destruct (@attackLoop_mass event execution l (mkAttackLoop [] 0 [] cache) Hcalc Hcache)
    as [Hc Hm].
  cbn [branches]. split; [assumption|]. rewrite Hm. simpl. ring.
Qed.

Lemma processEvent_mass event l execution cache :
  calculatorRolls -> cacheRolls cache ->
  let '(result, cache') :=
    processEvent serializeKey computeDamage dexMoveType event l execution cache in
  cacheRolls cache' /\ mass (branches result) = mass l.
Proof.
  intros Hcalc Hcache. destruct event; cbn [processEvent].
  - now apply processAttack_mass.
  - split; [assumption | apply processHealingEvent_mass].
  - split; [assumption | apply processHpAdjustment_mass].
  - split; [assumption | apply processStatChange_mass].
  - split; [assumption | apply processStatusEvent_mass].
  - split; [assumption | apply processFieldToggle_mass].
  - split; [assumption | apply processSwitchEvent_mass].
  - split; [assumption | reflexivity].
Qed.

Lemma processAction_mass action l execution cache :
  calculatorRolls -> cacheRolls cache ->
  let '(result, cache') :=
    processAction serializeKey computeDamage dexMoveType action l execution cache in
  cacheRolls cache' /\ mass (branches result) = mass l.
Proof.
  intros Hcalc Hcache. destruct action; cbn [processAction].
  - now apply processAttack_mass.
  - split; [assumption | apply processSwitchEvent_mass].
  - split; [assumption | reflexivity].
Qed.
(** *** Conservation of mass *)

Record Conserved (st : SimState) : Prop := {
  conservedMass : mass (simBranches st) = 1;
  conservedSnapshots : Forall (fun s => snapProbability s = 1) (simSnapshots st);
  conservedCache : cacheRolls (simCache st)
}.

Lemma buildSnapshot_probability l prev turn id rollsv sequence snapshot :
  buildSnapshotFromBranches l prev turn id rollsv sequence = Some snapshot ->
  snapProbability snapshot = mass l.
Proof.
  unfold buildSnapshotFromBranches. destruct l as [|first rest]; [discriminate|].
  intros [= <-]. cbn [snapProbability]. apply totalProbability_mass.
Qed.

Lemma settle_conserved st id turn result cache execution :
  Conserved st -> cacheRolls cache ->
  mass (branches result) = mass (simBranches st) ->
  Conserved (settle st id turn result cache execution).
Proof.
  intros [Hm Hs Hc] Hcache Hres. unfold settle. cbv zeta.
  assert (Hmerged : mass (mergeBranches (branches result)) = 1)
    by (rewrite mergeBranches_mass; congruence).
  constructor; cbn [simBranches simSnapshots simCache]; auto.
  destruct (buildSnapshotFromBranches _ _ _ _ _ _) as [snapshot|] eqn:Eb;
    [|assumption].
  apply Forall_app. split; [assumption|]. constructor; [|constructor].
  rewrite (buildSnapshot_probability _ _ _ _ _ _ Eb). assumption.
Qed.

(** *** Invariants of the simulation loop

    A property of the simulation state that survives the processing of
    an event, of an action and the end-of-turn recovery holds when
    [simulateTimeline] leaves its loop. *)
Section LoopInvariant.

Variable I : SimState -> Prop.
Variable execution : TimelineExecutionOptions.

Hypothesis I_event : forall st event,
    I st ->
    I (settle st (evId (eventMeta event)) 0%Z
              (fst (processEvent serializeKey computeDamage dexMoveType event
                                 (simBranches st) execution (simCache st)))
              (snd (processEvent serializeKey computeDamage dexMoveType event
                                 (simBranches st) execution (simCache st)))
              execution).

Hypothesis I_action : forall st action turnNo,
    I st ->
    I (settle st (Some (actionId action)) turnNo
              (fst (processAction serializeKey computeDamage dexMoveType action
                                  (simBranches st) execution (simCache st)))
              (snd (processAction serializeKey computeDamage dexMoveType action
                                  (simBranches st) execution (simCache st)))
              execution).

Hypothesis I_recovery : forall st,
    I st -> I (withBranches (applyLeftoversRecovery (simBranches st)) st).

Lemma runEventSequence_invariant events st :
  I st ->
  I (snd (runEventSequence serializeKey computeDamage dexMoveType
                           events execution st)).
Proof.
  revert st. induction events as [|event events IH]; intros st Hst;
    cbn [runEventSequence]; [assumption|].
  pose proof (I_event (normalizeEvent event) Hst) as Hst'.
  destruct (processEvent serializeKey computeDamage dexMoveType (normalizeEvent event)
                         (simBranches st) execution (simCache st)) as [result cache].
  cbn [fst snd] in Hst'.
  destruct (allBranchesTerminated _); [assumption|]. now apply IH.
Qed.

Lemma runActions_invariant actions events turn st :
  I st ->
  I (runActions serializeKey computeDamage dexMoveType
                actions events turn execution st).
Proof.
  revert st. induction actions as [|action actions IH]; intros st Hst;
    cbn [runActions]; [assumption|].
  pose proof (I_action action (turnNumber turn) Hst) as Hst1.
  destruct (processAction serializeKey computeDamage dexMoveType action
                          (simBranches st) execution (simCache st)) as [result cache].
  cbn [fst snd] in Hst1.
  match goal with
  | |- context [runEventSequence _ _ _ ?evs execution ?s] =>
      pose proof (@runEventSequence_invariant evs s Hst1) as Hst2;
      destruct (runEventSequence serializeKey computeDamage dexMoveType evs execution s)
        as [stop st2]
  end.
  cbn [snd] in Hst2.
  destruct stop; [assumption|].
  destruct (allBranchesTerminated _); [assumption|]. now apply IH.
Qed.

Lemma runTurn_invariant turn options st :
  I st ->
  I (snd (runTurn serializeKey computeDamage dexMoveType
                  turn options execution st)).
Proof.
  intros Hst. unfold runTurn. cbv zeta.
  match goal with
  | |- context [runEventSequence _ _ _ ?evs execution st] =>
      pose proof (@runEventSequence_invariant evs st Hst) as H1;
      destruct (runEventSequence serializeKey computeDamage dexMoveType evs execution st)
        as [stop1 st1]
  end.
  cbn [snd] in H1. destruct stop1; [assumption|].
  pose proof (@runActions_invariant (orderActions turn options)
                (map normalizeEvent (orElse (turnEvents turn) [])) turn st1 H1)
    as H2.
  set (st2 := runActions _ _ _ _ _ _ _ _) in *.
  destruct (allBranchesTerminated (simBranches st2)); [assumption|].
  match goal with
  | |- context [runEventSequence _ _ _ ?evs execution st2] =>
      pose proof (@runEventSequence_invariant evs st2 H2) as H3;
      destruct (runEventSequence serializeKey computeDamage dexMoveType evs execution st2)
        as [stop3 st3]
  end.
  cbn [snd] in H3. destruct stop3; [assumption|].
  pose proof (I_recovery H3) as H4.
  match goal with
  | |- context [runEventSequence _ _ _ ?evs execution ?s] =>
      pose proof (@runEventSequence_invariant evs s H4) as H5;
      destruct (runEventSequence serializeKey computeDamage dexMoveType evs execution s)
        as [stop5 st5]
  end.
  cbn [snd] in H5. destruct stop5; assumption.
Qed.

Lemma runTurns_invariant turnsv options st :
  I st ->
  I (runTurns serializeKey computeDamage dexMoveType
              turnsv options execution st).
Proof.
  revert st. induction turnsv as [|turn turnsv IH]; intros st Hst;
    cbn [runTurns]; [assumption|].
  pose proof (@runTurn_invariant turn options st Hst) as H1.
  destruct (runTurn serializeKey computeDamage dexMoveType turn options execution st)
    as [stop st'].
  cbn [snd] in H1. destruct stop; [assumption | now apply IH].
Qed.

End LoopInvariant.

Lemma withBranches_conserved l st :
  Conserved st -> mass l = mass (simBranches st) -> Conserved (withBranches l st).
Proof.
  intros [Hm Hs Hc] Hl. constructor; cbn [withBranches simBranches simSnapshots simCache];
    auto. congruence.
Qed.

Lemma runTurns_conserved turnsv options execution st :
  calculatorRolls -> Conserved st ->
  Conserved (runTurns serializeKey computeDamage dexMoveType
                      turnsv options execution st).
Proof.
  intros Hcalc. apply runTurns_invariant.
  - intros s event Hs.
    pose proof (@processEvent_mass event (simBranches s) execution
                  (simCache s) Hcalc (conservedCache Hs)) as Hp.
    destruct (processEvent _ _ _ _ _ _ _) as [result cache].
    destruct Hp as [Hc Hm]. now apply settle_conserved.
  - intros s action turnNo Hs.
    pose proof (@processAction_mass action (simBranches s) execution
                  (simCache s) Hcalc (conservedCache Hs)) as Hp.
    destruct (processAction _ _ _ _ _ _ _) as [result cache].
    destruct Hp as [Hc Hm]. now apply settle_conserved.
  - intros s Hs. apply withBranches_conserved; [assumption|].
    apply applyLeftoversRecovery_mass.
Qed.

Lemma initial_mass pokemon0 field0 : mass [createInitialBranch pokemon0 field0] = 1.
Proof. simpl. ring. Qed.

(** C1.  Provided the damage calculator returns at least one roll for
    every query (and the cache handed to the simulation holds only such
    computations), the probability masses of the current branch set sum
    to 1 at every point of [simulateTimeline]: the initial branch has
    mass 1; every action or event processing step, the per-roll split of
    [processAttack] included, keeps the total mass of the branch set it
    is given; so do [mergeBranches] and the end-of-turn recovery; hence
    the branch set that the loop ends with has total mass 1, and every
    snapshot, which records the total mass right after an action or
    event has been processed and merged, records 1. *)
Theorem simulateTimeline_mass_conserved
        (scenario : TimelineScenario) (pokemon0 : PerSide PokemonState)
        (field0 : FieldState) (cache : DamageCache)
        (options : SimulationOptions) (execution : TimelineExecutionOptions) :
  calculatorRolls ->
  cacheRolls cache ->
  let st := simulateBranches serializeKey computeDamage dexMoveType
                             scenario pokemon0 field0 cache options execution in
  totalProbability [createInitialBranch pokemon0 field0] = 1 /\
  (forall l, totalProbability (mergeBranches l) = totalProbability l) /\
  (forall l, totalProbability (applyLeftoversRecovery l) = totalProbability l) /\
  (forall event l c,
      cacheRolls c ->
      totalProbability
        (branches (fst (processEvent serializeKey computeDamage dexMoveType
                                     event l execution c)))
      = totalProbability l) /\
  (forall action l c,
      cacheRolls c ->
      totalProbability
        (branches (fst (processAction serializeKey computeDamage dexMoveType
                                      action l execution c)))
      = totalProbability l) /\
  totalProbability (simBranches st) = 1 /\
  Forall (fun s => snapProbability s = 1) (simSnapshots st) /\
  Num.abs (totalProbability (simBranches st) - 1) <= Q2Qc (1 # 1000000).
Proof.
  intros calculator_rolls Hcache st.
  assert (Hst : Conserved st).
  { unfold st, simulateBranches. apply runTurns_conserved; [assumption|].
    constructor; cbn [simBranches simSnapshots simCache];
      [apply initial_mass | constructor | assumption]. }
  destruct Hst as [Hm Hs Hc].
  split; [|split; [|split; [|split; [|split; [|split; [|split]]]]]].
  - rewrite totalProbability_mass. apply initial_mass.
  - intros l. rewrite !totalProbability_mass. apply mergeBranches_mass.
  - intros l. rewrite !totalProbability_mass. apply applyLeftoversRecovery_mass.
  - intros event l c Hcl. rewrite !totalProbability_mass.
    pose proof (@processEvent_mass event l execution c calculator_rolls Hcl) as Hp.
    destruct (processEvent _ _ _ _ _ _ _) as [result c']. apply Hp.
  - intros action l c Hcl. rewrite !totalProbability_mass.
    pose proof (@processAction_mass action l execution c calculator_rolls Hcl) as Hp.
    destruct (processAction _ _ _ _ _ _ _) as [result c']. apply Hp.
  - rewrite totalProbability_mass. assumption.
  - assumption.
  - rewrite totalProbability_mass, Hm.
    replace (1 - 1) with 0 by ring. discriminate.
Qed.
(** *** One child per roll *)

Lemma sideGet_sideSet_same (A : Type) (r : PerSide A) (s : BattleSide) (v : A) :
  sideGet (sideSet r s v) s = v.
Proof. destruct s; reflexivity. Qed.

Lemma sideGet_sideSet_other (A : Type) (r : PerSide A) (s s' : BattleSide) (v : A) :
  s' <> s -> sideGet (sideSet r s v) s' = sideGet r s'.
Proof. destruct s, s'; congruence || reflexivity. Qed.

Lemma min_le_right (x y : Qc) : Num.min x y <= y.
Proof.
  unfold Num.min. destruct (Num.leb x y) eqn:E.
  - now apply leb_le.
  - apply Qcle_refl.
Qed.

Lemma max0_of_nonneg (x : Qc) : 0 <= x -> Num.max 0 x = x.
Proof.
  intros H. unfold Num.max. destruct (Num.leb 0 x) eqn:E; [reflexivity|].
  apply leb_gt in E. apply Qcle_antisym; [assumption | now apply Qclt_le_weak].
Qed.

Lemma clamped_damage (damage hpv : Qc) :
  Num.max 0 (hpv - Num.min damage hpv) = hpv - Num.min damage hpv /\
  0 <= hpv - Num.min damage hpv.
Proof.
  assert (H : 0 <= hpv - Num.min damage hpv).
  { pose proof (min_le_right damage hpv). qc_lra. }
  split; [now apply max0_of_nonneg | assumption].
Qed.

Lemma rollBranch_lastDamage event execution target branch attacker move type p roll :
  sideGet (lastDamage (fst (rollBranch event execution target branch attacker
                                       move type p roll))) target
  = Num.min (rollDamage roll) (sideGet (hp branch) target).
Proof.
  unfold rollBranch. cbv zeta. cbn [fst]. rewrite markTerminated_lastDamage.
  repeat match goal with
         | |- context [if ?c then _ else _] => destruct c
         | |- context [match ?x with _ => _ end] => destruct x
         end;
    cbn; apply sideGet_sideSet_same.
Qed.

Lemma rollBranch_target_hp event execution target branch attacker move type p roll :
  target <> atActor event ->
  sideGet (hp (fst (rollBranch event execution target branch attacker
                               move type p roll))) target
  = Num.max 0 (sideGet (hp branch) target
               - Num.min (rollDamage roll) (sideGet (hp branch) target)).
Proof.
  intros Hne. unfold rollBranch. cbv zeta. cbn [fst]. rewrite markTerminated_hp.
  repeat match goal with
         | |- context [if ?c then _ else _] => destruct c
         | |- context [match ?x with _ => _ end] => destruct x
         end;
    cbn;
    repeat (rewrite (@sideGet_sideSet_other _ _ (atActor event) target) by assumption);
    apply sideGet_sideSet_same.
Qed.

Lemma attackLoop_grows event execution (l : list BranchState) acc :
  exists more,
    newBranches (fold_left (attackStep serializeKey computeDamage dexMoveType
                                       event execution) l acc)
    = newBranches acc ++ more.
Proof.
  revert acc. induction l as [|b l IH]; intros acc; cbn [fold_left].
  - exists []. now rewrite app_nil_r.
  - destruct (IH (attackStep serializeKey computeDamage dexMoveType
                             event execution acc b)) as (more & ->).
    unfold attackStep. cbv zeta.
    destruct (terminated b); [|destruct (_ || _)];
      try (cbn [newBranches]; rewrite <- app_assoc; eauto).
    destruct (damageFor _ _ _ _ _ _ _) as [[[c m] a] c'].
    cbn [newBranches]. rewrite <- app_assoc. eauto.
Qed.

(** The branches that one step of the loop adds, and the cache it
    leaves, depend on the accumulators through the cache only. *)
Lemma attackStep_frame event execution acc b :
  let fresh := attackStep serializeKey computeDamage dexMoveType event execution
                          (mkAttackLoop [] 0 [] (loopCache acc)) b in
  let step := attackStep serializeKey computeDamage dexMoveType event execution acc b in
  newBranches step = newBranches acc ++ newBranches fresh /\
  loopCache step = loopCache fresh.
Proof.
  unfold attackStep. cbv zeta. cbn [loopCache newBranches].
  destruct (terminated b); [split; reflexivity|].
  destruct (_ || _); [split; reflexivity|].
  destruct (damageFor _ _ _ _ _ _ _) as [[[computation moveForCalc] attacker] cache'].
  cbn [newBranches loopCache app]. split; reflexivity.
Qed.

Lemma attackLoop_split event execution (l : list BranchState) :
  forall acc,
    let final := fold_left (attackStep serializeKey computeDamage dexMoveType
                                       event execution) l acc in
    let alone := processAttack serializeKey computeDamage dexMoveType
                               event l execution (loopCache acc) in
    newBranches final = newBranches acc ++ branches (fst alone) /\
    loopCache final = snd alone.
Proof.
  induction l as [|b l IH]; intros acc; cbv zeta.
  - cbn. now rewrite app_nil_r.
  - unfold processAttack. cbv zeta. cbn [fold_left fst snd branches].
    destruct (attackStep_frame event execution acc b) as [Hn Hc]. cbv zeta in Hn, Hc.
    set (acc1 := attackStep serializeKey computeDamage dexMoveType
                            event execution acc b) in *.
    set (fresh := attackStep serializeKey computeDamage dexMoveType event execution
                             (mkAttackLoop [] 0 [] (loopCache acc)) b) in *.
    destruct (IH acc1) as [H1 H2]. destruct (IH fresh) as [H3 H4].
    cbv zeta in H1, H2, H3, H4. rewrite H1, H2, H3, H4, Hn, Hc.
    split; [now rewrite app_assoc | reflexivity].
Qed.

(** [processAttack] goes through the branches one after the other: the
    branches it returns for an array are those it returns for a first part,
    followed by those it returns for the rest with the cache that the first
    part leaves. *)
Lemma processAttack_app event execution cache (l1 l2 : list BranchState) :
  let first := processAttack serializeKey computeDamage dexMoveType
                             event l1 execution cache in
  let rest := processAttack serializeKey computeDamage dexMoveType
                            event l2 execution (snd first) in
  let whole := processAttack serializeKey computeDamage dexMoveType
                             event (l1 ++ l2) execution cache in
  branches (fst whole) = branches (fst first) ++ branches (fst rest) /\
  snd whole = snd rest.
Proof.
  cbv zeta.
  pose proof (attackLoop_split event execution l2
                (fold_left (attackStep serializeKey computeDamage dexMoveType
                                       event execution) l1
                           (mkAttackLoop [] 0 [] cache))) as H.
  cbv zeta in H. unfold processAttack in *. cbv zeta in *.
  cbn [fst snd branches] in *. rewrite fold_left_app.
  destruct H as [H1 H2]. rewrite H1, H2. split; reflexivity.
Qed.

(** The HP left after the drain and after the recoil of a roll. *)
Definition afterDrain (roll : DamageRollOutcome) (maxHPv hpv : Qc) : Qc :=
  if truthyNumber (rollDrain roll)
  then Num.min maxHPv (hpv + orElse (rollDrain roll) 0) else hpv.

Definition afterRecoil (roll : DamageRollOutcome) (hpv : Qc) : Qc :=
  if truthyNumber (rollRecoil roll)
  then Num.max 0 (hpv - orElse (rollRecoil roll) 0) else hpv.

Lemma rollBranch_self_hp event execution branch attacker move type p roll :
  let actor := atActor event in
  sideGet (hp (fst (rollBranch event execution actor branch attacker
                               move type p roll))) actor
  = afterRecoil roll
      (afterDrain roll (sideGet (maxHP branch) actor)
         (Num.max 0 (sideGet (hp branch) actor
                     - Num.min (rollDamage roll) (sideGet (hp branch) actor)))).
Proof.
  cbv zeta. unfold rollBranch, afterRecoil, afterDrain. cbv zeta. cbn [fst].
  rewrite markTerminated_hp.
  destruct (truthyNumber (rollDrain roll)), (truthyNumber (rollRecoil roll));
    repeat match goal with
           | |- context [match ?x with _ => _ end] => destruct x
           end;
    cbn; rewrite ?sideGet_sideSet_same; reflexivity.
Qed.

(** [processAttack] on a single branch. *)
Lemma processAttack_single_live event execution cache b :
  terminated b = false ->
  0 < sideGet (hp b) (atActor event) ->
  0 < sideGet (hp b) (attackTarget event) ->
  let answer := damageFor serializeKey computeDamage dexMoveType
                          event execution b cache in
  let computation := fst (fst (fst answer)) in
  let moveForCalc := snd (fst (fst answer)) in
  let attacker := snd (fst answer) in
  let alone := processAttack serializeKey computeDamage dexMoveType
                             event [b] execution cache in
  branches (fst alone)
  = map (fun roll =>
           fst (rollBranch event execution (attackTarget event) b attacker moveForCalc
                           (resolveMoveType dexMoveType moveForCalc attacker)
                           (probability b / Num.ofNat (length (rolls computation)))
                           roll))
        (rolls computation) /\
  snd alone = snd answer.
Proof.
  intros Hterm Hactor Htarget.
  assert (Hlive : Num.leb (sideGet (hp b) (atActor event)) 0
                  || Num.leb (sideGet (hp b) (attackTarget event)) 0 = false).
  { apply orb_false_iff. split; now apply leb_gt. }
  cbv zeta. unfold processAttack. cbv zeta. cbn [fold_left].
  unfold attackStep. cbv zeta. rewrite Hterm, Hlive. cbn [loopCache].
  destruct (damageFor serializeKey computeDamage dexMoveType event execution b cache)
    as [[[computation moveForCalc] attacker] cache'].
  cbn [fst snd branches newBranches loopCache app]. rewrite map_map.
  split; reflexivity.
Qed.

Lemma processAttack_single_dead event execution cache b :
  terminated b = false ->
  sideGet (hp b) (atActor event) <= 0 \/ sideGet (hp b) (attackTarget event) <= 0 ->
  processAttack serializeKey computeDamage dexMoveType event [b] execution cache
  = (mkResult [withTerminated true b] 0 None, cache).
Proof.
  intros Hterm Hdead.
  assert (Hguard : Num.leb (sideGet (hp b) (atActor event)) 0
                   || Num.leb (sideGet (hp b) (attackTarget event)) 0 = true).
  { apply orb_true_iff. destruct Hdead as [H|H]; [left | right]; now apply leb_le. }
  unfold processAttack. cbv zeta. cbn [fold_left].
  unfold attackStep. cbv zeta. rewrite Hterm, Hguard. reflexivity.
Qed.

(** C2 (amended).  Take a branch that is not terminated, at any place of
    the branch array handed to [processAttack].  When both the acting side
    and the target have positive HP, the branch is replaced, at its place,
    by exactly one child per roll of the damage computation, in roll
    order, and by nothing else: what precedes the children is the result
    for the branches before it, what follows them is the result for the
    branches after it.  Each child's probability mass is the parent's
    divided by the number of rolls; the damage dealt, recorded as the
    target's [lastDamage], is the roll's damage clamped to the target's
    remaining HP; when the target is not the acting side the target's HP
    drops by exactly that amount and is not negative, and when the attack
    targets the acting side itself the roll's drain and recoil are applied
    to that HP afterwards.  When the acting side or the target has no HP
    left, the branch is replaced by a single branch: itself, with its
    whole mass, marked terminated. *)
Theorem processAttack_one_child_per_roll
        (event : AttackEvent) (execution : TimelineExecutionOptions)
        (cache : DamageCache) (pre post : list BranchState) (b : BranchState) :
  terminated b = false ->
  let actor := atActor event in
  let target := attackTarget event in
  let run := processAttack serializeKey computeDamage dexMoveType event in
  let before := run pre execution cache in
  let answer := damageFor serializeKey computeDamage dexMoveType
                          event execution b (snd before) in
  let computation := fst (fst (fst answer)) in
  let n := length (rolls computation) in
  (0 < sideGet (hp b) actor -> 0 < sideGet (hp b) target ->
   exists children,
     branches (fst (run (pre ++ b :: post) execution cache))
     = branches (fst before) ++ children
       ++ branches (fst (run post execution (snd answer))) /\
     length children = n /\
     Forall2 (fun roll child =>
                let dealt := Num.min (rollDamage roll) (sideGet (hp b) target) in
                probability child = probability b / Num.ofNat n /\
                sideGet (lastDamage child) target = dealt /\
                (target <> actor ->
                 sideGet (hp child) target = sideGet (hp b) target - dealt /\
                 0 <= sideGet (hp child) target) /\
                (target = actor ->
                 sideGet (hp child) target
                 = afterRecoil roll
                     (afterDrain roll (sideGet (maxHP b) actor)
                                 (sideGet (hp b) target - dealt))))
             (rolls computation) children) /\
  (sideGet (hp b) actor <= 0 \/ sideGet (hp b) target <= 0 ->
   branches (fst (run (pre ++ b :: post) execution cache))
   = branches (fst before) ++ [withTerminated true b]
     ++ branches (fst (run post execution (snd before)))).
Proof.
  intros Hterm actor target run before answer computation n.
  subst run. cbv beta in *.
  destruct (processAttack_app event execution cache pre (b :: post)) as [Hwhole _].
  cbv zeta in Hwhole. fold before in Hwhole.
  destruct (processAttack_app event execution (snd before) [b] post) as [Hrest _].
  cbv zeta in Hrest. change ([b] ++ post) with (b :: post) in Hrest.
  rewrite Hwhole, Hrest. clear Hwhole Hrest.
  split.
  - intros Hactor Htarget.
    destruct (processAttack_single_live event execution (snd before) b
                Hterm Hactor Htarget) as [Hone Hcache].
    cbv zeta in Hone, Hcache. fold answer in Hone, Hcache.
    fold computation in Hone. fold n in Hone.
    rewrite Hone, Hcache. clear Hone Hcache. eexists. split; [reflexivity|].
    split; [now rewrite length_map|].
    clearbody n. generalize (probability b / Num.ofNat n).
    intros q. induction (rolls computation) as [|roll rest IH]; cbn [map].
    + constructor.
    + constructor; [|exact IH]. cbv zeta.
      split; [apply rollBranch_probability|].
      split; [apply rollBranch_lastDamage|].
      destruct (clamped_damage (rollDamage roll) (sideGet (hp b) target)) as [E Hpos].
      split.
      * intros Hne. fold target. rewrite rollBranch_target_hp by exact Hne.
        fold target. rewrite E. split; [reflexivity | assumption].
      * intros Heq. fold target. rewrite Heq. fold actor.
        pose proof (rollBranch_self_hp event execution b (snd (fst answer))
                      (snd (fst (fst answer)))
                      (resolveMoveType dexMoveType (snd (fst (fst answer)))
                                       (snd (fst answer))) q roll) as H.
        cbv zeta in H. fold actor in H. rewrite H. rewrite Heq in E. rewrite E.
        reflexivity.
  - intros Hdead.
    rewrite (processAttack_single_dead event execution (snd before) b Hterm Hdead).
    reflexivity.
Qed.
(** *** Terminated branches *)

(** Events whose processor tests [branch.terminated]; [processStatusEvent]
    and [processFieldToggle] do not. *)
Definition guardsTerminated (event : BattleEvent) : Prop :=
  match event with
  | statusEvent _ | fieldToggleEvent _ => False
  | _ => True
  end.

Lemma map_guarded (f : BranchState -> BranchState) (pre post : list BranchState)
      (b : BranchState) :
  terminated b = true ->
  map (fun x => if terminated x then x else f x) (pre ++ b :: post)
  = map (fun x => if terminated x then x else f x) pre
    ++ b :: map (fun x => if terminated x then x else f x) post.
Proof. intros H. rewrite map_app. cbn [map]. now rewrite H. Qed.

Lemma processAttack_carries event execution cache pre post b :
  terminated b = true ->
  let before := processAttack serializeKey computeDamage dexMoveType
                              event pre execution cache in
  branches (fst (processAttack serializeKey computeDamage dexMoveType
                               event (pre ++ b :: post) execution cache))
  = branches (fst before)
    ++ b :: branches (fst (processAttack serializeKey computeDamage dexMoveType
                                         event post execution (snd before))).
Proof.
  intros Hterm before.
  destruct (processAttack_app event execution cache pre (b :: post)) as [Hwhole _].
  cbv zeta in Hwhole. fold before in Hwhole.
  destruct (processAttack_app event execution (snd before) [b] post) as [Hrest _].
  cbv zeta in Hrest. change ([b] ++ post) with (b :: post) in Hrest.
  rewrite Hwhole, Hrest.
  assert (Hone : processAttack serializeKey computeDamage dexMoveType
                               event [b] execution (snd before)
                 = (mkResult [b] 0 None, snd before)).
  { unfold processAttack. cbv zeta. cbn [fold_left].
    unfold attackStep. cbv zeta. rewrite Hterm. reflexivity. }
  rewrite Hone. reflexivity.
Qed.

(** A branch that is not terminated but in which the acting side or the
    target of an attack has no HP left is returned by [processAttack] at
    its place, unchanged except for the flag, which is set. *)
Lemma processAttack_terminates event execution cache pre post b :
  terminated b = false ->
  sideGet (hp b) (atActor event) <= 0 \/ sideGet (hp b) (attackTarget event) <= 0 ->
  let before := processAttack serializeKey computeDamage dexMoveType
                              event pre execution cache in
  branches (fst (processAttack serializeKey computeDamage dexMoveType
                               event (pre ++ b :: post) execution cache))
  = branches (fst before)
    ++ withTerminated true b
       :: branches (fst (processAttack serializeKey computeDamage dexMoveType
                                       event post execution (snd before))).
Proof.
  intros Hterm Hdead before.
  destruct (processAttack_app event execution cache pre (b :: post)) as [Hwhole _].
  cbv zeta in Hwhole. fold before in Hwhole.
  destruct (processAttack_app event execution (snd before) [b] post) as [Hrest _].
  cbv zeta in Hrest. change ([b] ++ post) with (b :: post) in Hrest.
  rewrite Hwhole, Hrest.
  rewrite (processAttack_single_dead event execution (snd before) b Hterm Hdead).
  reflexivity.
Qed.

Lemma processEvent_carries event execution cache pre post b :
  guardsTerminated event -> terminated b = true ->
  let before := processEvent serializeKey computeDamage dexMoveType
                             event pre execution cache in
  branches (fst (processEvent serializeKey computeDamage dexMoveType
                              event (pre ++ b :: post) execution cache))
  = branches (fst before)
    ++ b :: branches (fst (processEvent serializeKey computeDamage dexMoveType
                                        event post execution (snd before))).
Proof.
  intros Hg Hterm. destruct event as [e|e|e|e|e|e|e|m]; cbn [processEvent];
    try contradiction; cbv zeta.
  - now apply processAttack_carries.
  - cbn [fst snd plainResult branches]. unfold processHealingEvent.
    destruct (heActor e) as [side|]; [|reflexivity].
    now rewrite map_guarded by exact Hterm.
  - cbn [fst snd plainResult branches]. unfold processHpAdjustment.
    now rewrite map_guarded by exact Hterm.
  - cbn [fst snd plainResult branches]. unfold processStatChange.
    destruct (scActor e) as [side|]; [|reflexivity].
    now rewrite map_guarded by exact Hterm.
  - cbn [fst snd plainResult branches]. unfold processSwitchEvent.
    destruct (swActor e) as [side|]; [|reflexivity].
    now rewrite map_guarded by exact Hterm.
  - cbn [fst snd plainResult branches]. reflexivity.
Qed.

Lemma processAction_carries action execution cache pre post b :
  terminated b = true ->
  let before := processAction serializeKey computeDamage dexMoveType
                              action pre execution cache in
  branches (fst (processAction serializeKey computeDamage dexMoveType
                               action (pre ++ b :: post) execution cache))
  = branches (fst before)
    ++ b :: branches (fst (processAction serializeKey computeDamage dexMoveType
                                         action post execution (snd before))).
Proof.
  intros Hterm. destruct action as [a|a|id actor]; cbn [processAction]; cbv zeta.
  - now apply processAttack_carries.
  - cbn [fst snd plainResult branches]. unfold processSwitchEvent. cbn [swActor].
    now rewrite map_guarded by exact Hterm.
  - cbn [fst snd plainResult branches]. reflexivity.
Qed.

Lemma applyLeftoversRecovery_carries pre post b :
  terminated b = true ->
  applyLeftoversRecovery (pre ++ b :: post)
  = applyLeftoversRecovery pre ++ b :: applyLeftoversRecovery post.
Proof. intros Hterm. unfold applyLeftoversRecovery. now apply map_guarded. Qed.

(** A side of the branch has no HP left. *)
Definition fainted (b : BranchState) : Prop :=
  sideGet (hp b) player <= 0 \/ sideGet (hp b) opponent <= 0.

(** The flag is only ever set on branches in which a side has fainted. *)
Definition flagSound (b : BranchState) : Prop := terminated b = true -> fainted b.

Lemma fainted_side (b : BranchState) (side : BattleSide) :
  sideGet (hp b) side <= 0 -> fainted b.
Proof. destruct side; [now left | now right]. Qed.

Lemma Forall_map_guarded (f : BranchState -> BranchState) (l : list BranchState) :
  (forall b, terminated b = false -> flagSound (f b)) ->
  Forall flagSound l ->
  Forall flagSound (map (fun x => if terminated x then x else f x) l).
Proof.
  intros Hf Hl. apply Forall_map. eapply Forall_impl; [|exact Hl].
  intros b Hb. cbv beta. destruct (terminated b) eqn:E; auto.
Qed.

Lemma processStatChange_sound event l :
  Forall flagSound l -> Forall flagSound (processStatChange event l).
Proof.
  unfold processStatChange. destruct (scActor event) as [side|]; [|auto].
  apply Forall_map_guarded. intros b Hb. unfold flagSound. cbn. congruence.
Qed.

Lemma processHealingEvent_sound event l :
  Forall flagSound l -> Forall flagSound (processHealingEvent event l).
Proof.
  unfold processHealingEvent. destruct (heActor event) as [side|]; [|auto].
  apply Forall_map_guarded. intros b Hb. unfold flagSound. cbn. congruence.
Qed.

Lemma processSwitchEvent_sound event l :
  Forall flagSound l -> Forall flagSound (processSwitchEvent event l).
Proof.
  unfold processSwitchEvent. destruct (swActor event) as [side|]; [|auto].
  apply Forall_map_guarded. intros b Hb. unfold flagSound. cbn. congruence.
Qed.

Lemma applyLeftoversRecovery_sound l :
  Forall flagSound l -> Forall flagSound (applyLeftoversRecovery l).
Proof.
  unfold applyLeftoversRecovery. apply Forall_map_guarded.
  intros b Hb. unfold flagSound, leftoversSide.
  repeat match goal with
         | |- context [if ?c then _ else _] => destruct c
         end; cbn; congruence.
Qed.

(** The branch written by the damaging arm of [processHpAdjustment]. *)
Lemma processHpAdjustment_sound event l :
  Forall flagSound l -> Forall flagSound (processHpAdjustment event l).
Proof.
  unfold processHpAdjustment. apply Forall_map_guarded.
  intros b Hb. unfold flagSound. cbv zeta.
  destruct (truthyBool (haIsDamage event)); [|cbn; congruence].
  destruct (Num.leb _ 0) eqn:E; [|cbn; congruence].
  intros _. apply leb_le in E.
  apply fainted_side with (side := orElse (haTarget event) (haActor event)).
  cbn. rewrite sideGet_sideSet_same. exact E.
Qed.

Lemma processStatusEvent_sound event l :
  Forall flagSound l -> Forall flagSound (processStatusEvent event l).
Proof.
  unfold processStatusEvent. destruct (suActor event) as [side|]; [|auto].
  intros Hl. apply Forall_map. eapply Forall_impl; [|exact Hl].
  intros b Hb. exact Hb.
Qed.

Lemma processFieldToggle_sound event l :
  Forall flagSound l -> Forall flagSound (processFieldToggle event l).
Proof.
  unfold processFieldToggle.
  intros Hl. apply Forall_map. eapply Forall_impl; [|exact Hl].
  intros b Hb. exact Hb.
Qed.
Lemma rollBranch_flag event execution target branch attacker move type p roll :
  let child := fst (rollBranch event execution target branch attacker move type p roll) in
  terminated child = true <->
  terminated branch = true \/
  sideGet (hp child) target <= 0 \/ sideGet (hp child) (atActor event) <= 0.
Proof.
  unfold rollBranch. cbv zeta. cbn [fst].
  match goal with
  | |- context [markTerminated _ _ ?B] => set (b5 := B)
  end.
  assert (E : terminated b5 = terminated branch).
  { subst b5.
    repeat match goal with
           | |- context [if ?c then _ else _] => destruct c
           | |- context [match ?x with _ => _ end] => destruct x
           end; reflexivity. }
  rewrite markTerminated_flag, markTerminated_hp, E.
  rewrite !orb_true_iff, !leb_le. tauto.
Qed.

Lemma attackStep_sound event execution acc b :
  Forall flagSound (newBranches acc) -> flagSound b ->
  Forall flagSound
         (newBranches (attackStep serializeKey computeDamage dexMoveType
                                  event execution acc b)).
Proof.
  intros Hacc Hb. unfold attackStep. cbv zeta.
  destruct (terminated b) eqn:Hterm.
  { cbn [newBranches]. apply Forall_app. auto. }
  destruct (_ || _) eqn:Hdead.
  { cbn [newBranches]. apply Forall_app. split; [assumption|].
    constructor; [|constructor]. intros _.
    apply orb_true_iff in Hdead as [H|H]; apply leb_le in H;
      eapply fainted_side; cbn; exact H. }
  destruct (damageFor _ _ _ _ _ _ _) as [[[computation moveForCalc] attacker] cache'].
  cbn [newBranches]. apply Forall_app. split; [assumption|].
  rewrite map_map. apply Forall_map, Forall_forall. intros roll _.
  intros Hflag. apply rollBranch_flag in Hflag.
  destruct Hflag as [H|[H|H]]; [congruence | |]; eapply fainted_side; exact H.
Qed.

Lemma processAttack_sound event l execution cache :
  Forall flagSound l ->
  Forall flagSound
         (branches (fst (processAttack serializeKey computeDamage dexMoveType
                                       event l execution cache))).
Proof.
  intros Hl. unfold processAttack. cbv zeta. cbn [fst branches].
  assert (H : forall acc, Forall flagSound (newBranches acc) ->
              Forall flagSound
                (newBranches (fold_left (attackStep serializeKey computeDamage
                                                    dexMoveType event execution) l acc))).
  { induction Hl as [|b l Hb _ IH]; intros acc Hacc; cbn [fold_left]; auto.
    apply IH. now apply attackStep_sound. }
  apply H. constructor.
Qed.

Lemma processEvent_sound event l execution cache :
  Forall flagSound l ->
  Forall flagSound
         (branches (fst (processEvent serializeKey computeDamage dexMoveType
                                      event l execution cache))).
Proof.
  intros Hl. destruct event; cbn [processEvent fst plainResult branches].
  - now apply processAttack_sound.
  - now apply processHealingEvent_sound.
  - now apply processHpAdjustment_sound.
  - now apply processStatChange_sound.
  - now apply processStatusEvent_sound.
  - now apply processFieldToggle_sound.
  - now apply processSwitchEvent_sound.
  - assumption.
Qed.

Lemma processAction_sound action l execution cache :
  Forall flagSound l ->
  Forall flagSound
         (branches (fst (processAction serializeKey computeDamage dexMoveType
                                       action l execution cache))).
Proof.
  intros Hl. destruct action; cbn [processAction fst plainResult branches].
  - now apply processAttack_sound.
  - now apply processSwitchEvent_sound.
  - assumption.
Qed.

Lemma mergeInto_sound key branch m :
  Forall (fun kb => flagSound (snd kb)) m -> flagSound branch ->
  Forall (fun kb => flagSound (snd kb)) (mergeInto key branch m).
Proof.
  intros Hm Hb. induction Hm as [|[k existing] m He Hm IH]; simpl.
  - constructor; [exact Hb | constructor].
  - destruct (BranchKey_eq_dec k key).
    + constructor; [exact He | exact Hm].
    + constructor; [exact He | exact IH].
Qed.

Lemma mergeBranches_sound l : Forall flagSound l -> Forall flagSound (mergeBranches l).
Proof.
  intros Hl. unfold mergeBranches. apply Forall_map.
  assert (H : forall m, Forall (fun kb => flagSound (snd kb)) m ->
              Forall (fun kb => flagSound (snd kb))
                (fold_left (fun merged branch =>
                              mergeInto (buildBranchKey branch) branch merged) l m)).
  { induction Hl as [|b l Hb _ IH]; intros m Hm; cbn [fold_left]; auto.
    apply IH. now apply mergeInto_sound. }
  apply H. constructor.
Qed.

Lemma simulateBranches_sound scenario pokemon0 field0 cache options execution :
  Forall flagSound
         (simBranches (simulateBranches serializeKey computeDamage dexMoveType
                                        scenario pokemon0 field0 cache options execution)).
Proof.
  unfold simulateBranches.
  apply (@runTurns_invariant (fun st => Forall flagSound (simBranches st)) execution).
  - intros st event Hst. cbn [settle simBranches].
    apply mergeBranches_sound. now apply processEvent_sound.
  - intros st action turnNo Hst. cbn [settle simBranches].
    apply mergeBranches_sound. now apply processAction_sound.
  - intros st Hst. cbn [withBranches simBranches].
    now apply applyLeftoversRecovery_sound.
  - cbn [simBranches]. constructor; [|constructor]. intros H. discriminate H.
Qed.
Lemma processHpAdjustment_flag event b :
  terminated b = false -> truthyBool (haIsDamage event) = true ->
  exists c,
    processHpAdjustment event [b] = [c] /\
    (terminated c = true <->
     sideGet (hp c) (orElse (haTarget event) (haActor event)) <= 0).
Proof.
  intros Hterm Hdamage. unfold processHpAdjustment. cbn [map].
  rewrite Hterm, Hdamage. cbv zeta.
  destruct (Num.leb _ 0) eqn:E; eexists; (split; [reflexivity|]); cbn;
    rewrite sideGet_sideSet_same.
  - apply leb_le in E. tauto.
  - apply leb_gt in E. split; [congruence|].
    intros H. exfalso. eapply Qclt_not_le; eauto.
Qed.

(** C3 (amended).  A branch whose terminated flag is set is carried
    forward unmodified, at its place in the branch array, by attack,
    stat-change, hp-adjustment, healing and switch events, by every
    action and by the end-of-turn recovery: what precedes it in the
    result is the result for the branches before it, what follows it is
    the result for the branches after it.  The flag is set only where a
    side has no HP left: an attack marks the child of a roll terminated
    exactly when the target's or the acting side's HP is at most 0 after
    the roll, a damaging hp-adjustment marks a branch terminated
    exactly when the adjusted side's HP is at most 0 afterwards, and in
    every branch that [simulateTimeline] ends with a set flag comes with
    a side at 0 HP or less.  A branch that is not terminated although a
    side has no HP left is terminated, and otherwise left as it is, by
    the next attack in which that side acts or is the target. *)
Theorem terminated_branches_carried_forward (execution : TimelineExecutionOptions) :
  (forall event cache pre post b,
      guardsTerminated event -> terminated b = true ->
      let before := processEvent serializeKey computeDamage dexMoveType
                                 event pre execution cache in
      branches (fst (processEvent serializeKey computeDamage dexMoveType
                                  event (pre ++ b :: post) execution cache))
      = branches (fst before)
        ++ b :: branches (fst (processEvent serializeKey computeDamage dexMoveType
                                            event post execution (snd before)))) /\
  (forall action cache pre post b,
      terminated b = true ->
      let before := processAction serializeKey computeDamage dexMoveType
                                  action pre execution cache in
      branches (fst (processAction serializeKey computeDamage dexMoveType
                                   action (pre ++ b :: post) execution cache))
      = branches (fst before)
        ++ b :: branches (fst (processAction serializeKey computeDamage dexMoveType
                                             action post execution (snd before)))) /\
  (forall pre post b,
      terminated b = true ->
      applyLeftoversRecovery (pre ++ b :: post)
      = applyLeftoversRecovery pre ++ b :: applyLeftoversRecovery post) /\
  (forall event target branch attacker move type p roll,
      terminated branch = false ->
      let child := fst (rollBranch event execution target branch attacker
                                   move type p roll) in
      terminated child = true <->
      sideGet (hp child) target <= 0 \/ sideGet (hp child) (atActor event) <= 0) /\
  (forall event b,
      terminated b = false -> truthyBool (haIsDamage event) = true ->
      exists c,
        processHpAdjustment event [b] = [c] /\
        (terminated c = true <->
         sideGet (hp c) (orElse (haTarget event) (haActor event)) <= 0)) /\
  (forall scenario pokemon0 field0 cache options b,
      In b (simBranches (simulateBranches serializeKey computeDamage dexMoveType
                                          scenario pokemon0 field0 cache options
                                          execution)) ->
      terminated b = true ->
      sideGet (hp b) player <= 0 \/ sideGet (hp b) opponent <= 0) /\
  (forall event cache pre post b,
      terminated b = false ->
      sideGet (hp b) (atActor event) <= 0 \/ sideGet (hp b) (attackTarget event) <= 0 ->
      let before := processAttack serializeKey computeDamage dexMoveType
                                  event pre execution cache in
      branches (fst (processAttack serializeKey computeDamage dexMoveType
                                   event (pre ++ b :: post) execution cache))
      = branches (fst before)
        ++ withTerminated true b
           :: branches (fst (processAttack serializeKey computeDamage dexMoveType
                                           event post execution (snd before)))).
Proof.
  split; [|split; [|split; [|split; [|split; [|split]]]]].
  - intros. now apply processEvent_carries.
  - intros. now apply processAction_carries.
  - intros. now apply applyLeftoversRecovery_carries.
  - intros event target branch attacker move type p roll Hlive child.
    pose proof (rollBranch_flag event execution target branch attacker move type p roll)
      as H.
    cbv zeta in H. fold child in H. rewrite H. split; [|tauto].
    intros [Hc|Hc]; [congruence | exact Hc].
  - intros. now apply processHpAdjustment_flag.
  - intros scenario pokemon0 field0 cache options b Hin Hflag.
    pose proof (simulateBranches_sound scenario pokemon0 field0 cache options execution)
      as Hs.
    rewrite Forall_forall in Hs. exact (Hs b Hin Hflag).
  - intros. now apply processAttack_terminates.
Qed.
End SimulatorFacts.

Import TimelineSamples.

(** The calculator contract cannot be dropped: if the calculator answers
    with no roll at all, an attack on a live branch leaves no branch. *)
Example attack_without_rolls_loses_the_branch :
  branches (fst (processAttack sampleSerializeKey
                   (fun _ attacker defender move _ => mkComputation [] move attacker defender)
                   sampleDex sampleAttack [healthyBranch] sampleExecution emptyCache))
  = [].
Proof. reflexivity. Qed.

Lemma sample_calculator_rolls : calculatorRolls sampleComputeDamage.
Proof. intros actor attacker defender move fieldv. discriminate. Qed.

(** The sample scenario, simulated from both sides at full HP. *)
Lemma simulateTimeline_mass_conserved_witness :
  calculatorRolls sampleComputeDamage /\
  cacheRolls emptyCache /\
  totalProbability
    (simBranches (simulateBranches sampleSerializeKey sampleComputeDamage sampleDex
                    sampleScenario
                    (mkSides (samplePokemon 100%Z 100%Z) (samplePokemon 100%Z 100%Z))
                    sampleField emptyCache sampleOptions sampleExecution)) = 1.
Proof.
  split; [exact sample_calculator_rolls|].
  split; [exact (@cacheRolls_new None)|].
  exact (proj1 (proj2 (proj2 (proj2 (proj2 (proj2
    (@simulateTimeline_mass_conserved sampleSerializeKey sampleComputeDamage sampleDex
       sampleScenario (mkSides (samplePokemon 100%Z 100%Z) (samplePokemon 100%Z 100%Z))
       sampleField emptyCache sampleOptions sampleExecution
       sample_calculator_rolls (@cacheRolls_new None)))))))).
Defined.

(** C2, counterexample.  The starting branch of a player at 0 HP is not
    terminated, and the damage computation for its attack lists two rolls;
    yet [processAttack] returns a single branch, which keeps the whole mass
    1 of its parent (not 1/2) and is marked terminated.  And when the
    player at 100 HP uses on itself a move whose single roll deals 10 and
    costs 5 HP of recoil, the target's HP drops by 15, to 85, while the
    roll's damage clamped to the remaining HP is 10. *)
Lemma processAttack_one_child_per_roll_counterexample :
  (terminated faintedActorBranch = false /\
   length (rolls (fst (fst (fst (damageFor sampleSerializeKey sampleComputeDamage
                                           sampleDex sampleAttack sampleExecution
                                           faintedActorBranch emptyCache))))) = 2%nat /\
   map (fun child => (this (probability child), terminated child))
       (branches (fst (processAttack sampleSerializeKey sampleComputeDamage sampleDex
                                     sampleAttack [faintedActorBranch]
                                     sampleExecution emptyCache)))
   = [((1 # 1)%Q, true)]) /\
  (terminated healthyBranch = false /\
   attackTarget selfAttack = player /\
   this (sideGet (hp healthyBranch) player) = (100 # 1)%Q /\
   map (fun roll => this (Num.min (rollDamage roll) (sideGet (hp healthyBranch) player)))
       (rolls (fst (fst (fst (damageFor sampleSerializeKey recoilComputeDamage
                                        sampleDex selfAttack sampleExecution
                                        healthyBranch emptyCache)))))
   = [(10 # 1)%Q] /\
   map (fun child => this (sideGet (hp child) player))
       (branches (fst (processAttack sampleSerializeKey recoilComputeDamage sampleDex
                                     selfAttack [healthyBranch]
                                     sampleExecution emptyCache)))
   = [(85 # 1)%Q]).
Proof. repeat split. Qed.

(** The attack of the sample scenario on the branch at full HP, which has
    two children, and on the starting branch of a fainted player, which is
    returned terminated. *)
Lemma processAttack_one_child_per_roll_witness :
  (terminated healthyBranch = false /\
   0 < sideGet (hp healthyBranch) (atActor sampleAttack) /\
   0 < sideGet (hp healthyBranch) (attackTarget sampleAttack) /\
   exists children,
     branches (fst (processAttack sampleSerializeKey sampleComputeDamage sampleDex
                                  sampleAttack [healthyBranch]
                                  sampleExecution emptyCache))
     = children /\
     length children = 2%nat) /\
  (terminated faintedActorBranch = false /\
   sideGet (hp faintedActorBranch) (atActor sampleAttack) <= 0 /\
   branches (fst (processAttack sampleSerializeKey sampleComputeDamage sampleDex
                                sampleAttack [faintedActorBranch]
                                sampleExecution emptyCache))
   = [withTerminated true faintedActorBranch]).
Proof.
  split.
  - assert (H1 : terminated healthyBranch = false) by reflexivity.
    assert (H2 : 0 < sideGet (hp healthyBranch) (atActor sampleAttack)) by reflexivity.
    assert (H3 : 0 < sideGet (hp healthyBranch) (attackTarget sampleAttack))
      by reflexivity.
    split; [exact H1|]. split; [exact H2|]. split; [exact H3|].
    destruct (proj1 (@processAttack_one_child_per_roll
                       sampleSerializeKey sampleComputeDamage
                       sampleDex sampleAttack sampleExecution emptyCache [] []
                       healthyBranch H1) H2 H3) as (children & E & Hlen & _).
    exists children. split; [|exact Hlen].
    cbn [app] in E. rewrite E. cbn [processAttack fold_left fst branches newBranches app].
    now rewrite app_nil_r.
  - assert (H1 : terminated faintedActorBranch = false) by reflexivity.
    assert (H2 : sideGet (hp faintedActorBranch) (atActor sampleAttack) <= 0)
      by discriminate.
    split; [exact H1|]. split; [exact H2|].
    exact (proj2 (@processAttack_one_child_per_roll
                    sampleSerializeKey sampleComputeDamage
                    sampleDex sampleAttack sampleExecution emptyCache [] []
                    faintedActorBranch H1) (or_introl H2)).
Defined.

(** C3, counterexample.  A status event rewrites the status of a terminated
    branch and a field toggle rewrites its field, so a terminated branch
    is not carried forward unmodified by every later event; and a switch-in
    at 0% leaves a side at 0 HP in a branch that is not terminated, so
    termination does not occur exactly when a side's HP reaches 0. *)
Lemma terminated_branch_counterexample :
  (terminated terminatedBranch = true /\
   pkStatus (sideGet (pokemon terminatedBranch) opponent) = None /\
   map (fun b => pkStatus (sideGet (pokemon b) opponent))
       (processStatusEvent burnOpponent [terminatedBranch]) = [Some "brn"%string] /\
   fsWeather (field terminatedBranch) = None /\
   map (fun b => fsWeather (field b))
       (processFieldToggle startRain [terminatedBranch]) = [Some "Rain"%string]) /\
  (terminated healthyBranch = false /\
   map (fun b => (this (sideGet (hp b) player), terminated b))
       (processSwitchEvent switchInAtZero [healthyBranch]) = [((0 # 1)%Q, false)]).
Proof. repeat split. Qed.

(** The sample attack on the sample terminated branch, the end-of-turn
    recovery on it, and the sample attack on the starting branch of a
    fainted player, which is not terminated until then. *)
Lemma terminated_branches_carried_forward_witness :
  (terminated terminatedBranch = true /\
   branches (fst (processEvent sampleSerializeKey sampleComputeDamage sampleDex
                               (attackEvent sampleAttack) [terminatedBranch]
                               sampleExecution emptyCache))
   = [terminatedBranch] /\
   applyLeftoversRecovery [terminatedBranch] = [terminatedBranch]) /\
  (terminated faintedActorBranch = false /\
   sideGet (hp faintedActorBranch) (atActor sampleAttack) <= 0 /\
   branches (fst (processAttack sampleSerializeKey sampleComputeDamage sampleDex
                                sampleAttack [faintedActorBranch]
                                sampleExecution emptyCache))
   = [withTerminated true faintedActorBranch]).
Proof.
  pose proof (@terminated_branches_carried_forward sampleSerializeKey sampleComputeDamage
                sampleDex sampleExecution)
    as (Hevent & _ & Hrecovery & _ & _ & _ & Hattack).
  split.
  - assert (H : terminated terminatedBranch = true) by reflexivity.
    split; [exact H|]. split.
    + exact (Hevent (attackEvent sampleAttack) emptyCache [] [] terminatedBranch I H).
    + exact (Hrecovery [] [] terminatedBranch H).
  - assert (H1 : terminated faintedActorBranch = false) by reflexivity.
    assert (H2 : sideGet (hp faintedActorBranch) (atActor sampleAttack) <= 0)
      by discriminate.
    split; [exact H1|]. split; [exact H2|].
    exact (Hattack sampleAttack emptyCache [] [] faintedActorBranch H1 (or_introl H2)).
Defined.

End TimelineSpec.
(** ** The job orchestrator *)

Module WorkerSpec.

Import Worker NumFacts.

Local Open Scope Qc_scope.

Section Protocol.

Variables Point Summary : Type.
Variable host : Host.
Variable speciesKnown : string -> bool.
Variable evaluatePoint : bool -> Point -> string + Point.
Variable runDeterministic : string + Summary.
Variable defensePoints : list Point.
Variable offensePoints : list Point.
Variable applyLikelihoods : list Point -> list Point.
Variable buildSummary : option (list Point) -> option (list Point) -> Summary.

Let W := World Summary.
Let R := Response Summary.

Definition isProgress (r : R) : Prop :=
  match r with progress _ _ _ _ _ => True | _ => False end.

(** The text that a timeout must carry, written out character by
    character with the numbers in decimal: the seconds elapsed, the number
    of grid points processed and the total number of grid points. *)
Definition timeoutText (seconds : Z) (processed total : nat) : string :=
  ("Simulation timeout after "
   ++ NilEmpty.string_of_int (Z.to_int seconds)
   ++ "s (processed "
   ++ NilEmpty.string_of_uint (Nat.to_uint processed)
   ++ "/"
   ++ NilEmpty.string_of_uint (Nat.to_uint total)
   ++ " points)")%string.

(** What a grid evaluation has posted when it ends: progress responses,
    followed by a [cancelled] response when the cancellation flag was
    seen and by a timeout [error] when the deadline was seen exceeded. *)
Definition gridNotices (rid : string) (bound : nat) (outcome : Exit + list Point)
           (notices : list R) : Prop :=
  match outcome with
  | inl exitCancelled =>
      exists pr, notices = pr ++ [cancelled rid] /\ Forall isProgress pr
  | inl (exitTimeout processed total) =>
      exists pr seconds,
        notices = pr ++ [error rid (timeoutText seconds processed total)]
        /\ Forall isProgress pr
        /\ (1 <= processed <= total)%nat /\ total = bound
  | _ => Forall isProgress notices
  end.

Lemma posted_post (r : R) (w : W) : posted (post r w) = posted w ++ [r].
Proof. reflexivity. Qed.

Lemma gridNotices_prefix rid bound outcome (pre notices : list R) :
  Forall isProgress pre ->
  gridNotices rid bound outcome notices ->
  gridNotices rid bound outcome (pre ++ notices).
Proof.
  intros Hpre. unfold gridNotices.
  destruct outcome as [[| |processed total|message]|points].
  - intros H. apply Forall_app. auto.
  - intros (pr & -> & Hpr). exists (pre ++ pr).
    split; [now rewrite app_assoc | apply Forall_app; auto].
  - intros (pr & seconds & -> & Hpr & Hb). exists (pre ++ pr), seconds.
    split; [now rewrite app_assoc|]. split; [apply Forall_app; auto | exact Hb].
  - intros H. apply Forall_app. auto.
  - intros H. apply Forall_app. auto.
Qed.

Lemma gridLoop_notices rid optimizeOffense batch total start timeoutAt
      (remaining : list Point) :
  forall (done : list Point) (w : W),
    (length done + length remaining = total)%nat ->
    exists notices,
      posted (fst (gridLoop host evaluatePoint rid optimizeOffense batch total
                            start timeoutAt remaining done w))
      = posted w ++ notices /\
      gridNotices rid total
                  (snd (gridLoop host evaluatePoint rid optimizeOffense batch total
                                 start timeoutAt remaining done w))
                  notices.
Proof.
  induction remaining as [|point rest IH]; intros done w Hlen; cbn [gridLoop].
  - exists []. cbn. split; [now rewrite app_nil_r | constructor].
  - destruct (activeJob w) as [job|].
    2: { exists []. cbn. split; [now rewrite app_nil_r | constructor]. }
    destruct (negb (String.eqb (jobRequestId job) rid)).
    { exists []. cbn. split; [now rewrite app_nil_r | constructor]. }
    destruct (jobCancelled job).
    { exists [cancelled rid]. cbn. split; [reflexivity|].
      exists []. split; [reflexivity | constructor]. }
    destruct (evaluatePoint optimizeOffense point) as [message|evaluated].
    { exists []. cbn. split; [now rewrite app_nil_r | constructor]. }
    cbv zeta.
    set (processed := S (length done)).
    set (w1 := reportBatch host rid batch total start processed w).
    assert (H1 : exists pre, posted w1 = posted w ++ pre /\ Forall isProgress pre).
    { subst w1. unfold reportBatch. destruct (_ || _).
      - eexists. split; [reflexivity|]. repeat constructor.
      - exists []. split; [now rewrite app_nil_r | constructor]. }
    destruct H1 as (pre & Epre & Hpre).
    unfold now. cbv beta iota zeta.
    destruct (Num.ltb timeoutAt (clock host (clockReads w1))).
    + exists (pre ++ [error rid (timeoutMessage
                (Num.round ((clock host (S (clockReads w1)) - start) / Num.ofZ 1000))
                processed total)]).
      cbn [fst snd]. unfold notifyTimeout, now. cbn [posted post clockReads].
      rewrite Epre. split; [now rewrite app_assoc|].
      exists pre. eexists. split; [reflexivity|]. split; [assumption|].
      subst processed. simpl length in Hlen. split; lia.
    + destruct (IH (done ++ [evaluated])
                   (mkWorld (activeJob w1) (S (clockReads w1)) (ticks w1) (posted w1)))
        as (notices & Eposted & Hnotices).
      { rewrite length_app. simpl length in *. lia. }
      exists (pre ++ notices). split.
      * rewrite Eposted. cbn [posted]. rewrite Epre. now rewrite app_assoc.
      * now apply gridNotices_prefix.
Qed.

Lemma evaluateGridPoints_notices rid optimizeOffense (gridPoints : list Point)
      batch start timeoutAt (w : W) :
  exists notices,
    posted (fst (evaluateGridPoints host evaluatePoint applyLikelihoods rid
                   optimizeOffense gridPoints batch start timeoutAt w))
    = posted w ++ notices /\
    gridNotices rid (length gridPoints)
                (snd (evaluateGridPoints host evaluatePoint applyLikelihoods rid
                        optimizeOffense gridPoints batch start timeoutAt w))
                notices.
Proof.
  unfold evaluateGridPoints. cbv zeta. unfold now. cbv beta iota zeta.
  match goal with
  | |- context [gridLoop host evaluatePoint rid optimizeOffense batch ?t start
                         timeoutAt gridPoints [] ?w2] =>
      destruct (@gridLoop_notices rid optimizeOffense batch t start timeoutAt
                  gridPoints [] w2 eq_refl) as (notices & Eposted & Hnotices);
      destruct (gridLoop host evaluatePoint rid optimizeOffense batch t start
                         timeoutAt gridPoints [] w2) as [w3 [e|points]]
  end; cbn [fst snd] in *.
  - exists ([progress rid 0 (length gridPoints)
                     (clock host (clockReads w) - start) processing] ++ notices).
    split; [rewrite Eposted; cbn [posted post]; now rewrite <- app_assoc|].
    apply gridNotices_prefix; [|exact Hnotices].
    constructor; [exact I | constructor].
  - exists ([progress rid 0 (length gridPoints)
                     (clock host (clockReads w) - start) processing] ++ notices).
    split; [rewrite Eposted; cbn [posted post]; now rewrite <- app_assoc|].
    apply (@gridNotices_prefix rid (length gridPoints) (inr points)); [|exact Hnotices].
    constructor; [exact I | constructor].
Qed.

(** What one invocation of [runSimulation] has posted when it ends. *)
Definition runNotices (rid : string) (caught : bool) (outcome : Exit + unit)
           (notices : list R) : Prop :=
  match outcome with
  | inr _ =>
      exists pr summary, notices = pr ++ [complete rid summary] /\ Forall isProgress pr
  | inl exitCancelled =>
      exists pr, notices = pr ++ [cancelled rid] /\ Forall isProgress pr
  | inl (exitTimeout processed total) =>
      exists pr seconds,
        notices = pr ++ [error rid (timeoutText seconds processed total)]
        /\ Forall isProgress pr
        /\ (1 <= processed <= total)%nat
        /\ (total = length defensePoints \/ total = length offensePoints)
  | inl (exitThrew message) =>
      if caught
      then exists pr, notices = pr ++ [error rid message] /\ Forall isProgress pr
      else Forall isProgress notices
  | inl exitSuperseded => Forall isProgress notices
  end.

Lemma runNotices_of_grid rid bound (e : Exit) (pre notices : list R) :
  Forall isProgress pre ->
  bound = length defensePoints \/ bound = length offensePoints ->
  gridNotices rid bound (inl e : Exit + list Point) notices ->
  runNotices rid false (inl e) (pre ++ notices).
Proof.
  intros Hpre Hbound Hn.
  pose proof (@gridNotices_prefix rid bound (inl e) pre notices Hpre Hn) as H.
  destruct e as [| |processed total|message]; cbn in *; auto.
  destruct H as (pr & seconds & E & Hpr & Hb & ->).
  exists pr, seconds. auto.
Qed.

Lemma runBody_notices (input : SimulationInput) (start : Qc) (w : W) :
  exists notices,
    posted (fst (runBody host speciesKnown evaluatePoint runDeterministic
                         defensePoints offensePoints applyLikelihoods buildSummary
                         input start w))
    = posted w ++ notices /\
    runNotices (requestId input) false
               (snd (runBody host speciesKnown evaluatePoint runDeterministic
                             defensePoints offensePoints applyLikelihoods buildSummary
                             input start w))
               notices.
Proof.
  unfold runBody. cbv zeta.
  set (rid := requestId input).
  set (p0 := progress rid 0 0 0 initializing : R).
  assert (Hp0 : Forall isProgress [p0]) by (constructor; [exact I | constructor]).
  destruct (negb (hasEvConfig input)).
  { exists []. cbn. split; [now rewrite app_nil_r | constructor]. }
  destruct (negb (speciesKnown (playerSpecies input))).
  { exists [p0]. cbn. split; [reflexivity | exact Hp0]. }
  destruct (negb (speciesKnown (opponentSpecies input))).
  { exists [p0]. cbn. split; [reflexivity | exact Hp0]. }
  destruct (negb (enabled input) && negb (enabled input && enableKO input)).
  { destruct runDeterministic as [message|summary].
    - exists [p0]. cbn. split; [reflexivity | exact Hp0].
    - exists ([p0] ++ [complete rid summary]). cbn [fst snd posted post].
      split; [now rewrite <- app_assoc|].
      exists [p0], summary. split; [reflexivity | exact Hp0]. }
  set (batch := Z.to_nat _). set (timeoutAt := start + _).
  set (w1 := post p0 w).
  destruct (enabled input && (negb (enableKO input) || enableSurvival input)).
  - destruct (@evaluateGridPoints_notices rid false defensePoints batch start timeoutAt w1)
      as (n1 & E1 & H1).
    destruct (evaluateGridPoints host evaluatePoint applyLikelihoods rid false
                                 defensePoints batch start timeoutAt w1)
      as [w2 [e|points]]; cbn [fst snd] in *.
    { exists ([p0] ++ n1). split; [rewrite E1; cbn; now rewrite <- app_assoc|].
      apply runNotices_of_grid with (bound := length defensePoints); auto. }
    destruct (enabled input && enableKO input).
    + destruct (@evaluateGridPoints_notices rid true offensePoints batch start timeoutAt w2)
        as (n2 & E2 & H2).
      destruct (evaluateGridPoints host evaluatePoint applyLikelihoods rid true
                                   offensePoints batch start timeoutAt w2)
        as [w3 [e|points']]; cbn [fst snd] in *.
      { exists (([p0] ++ n1) ++ n2).
        split; [rewrite E2, E1; cbn; now rewrite <- !app_assoc|].
        apply runNotices_of_grid with (bound := length offensePoints); auto.
        apply Forall_app. auto. }
      eexists (([p0] ++ n1 ++ n2) ++ [complete rid _]). cbn [fst snd posted post].
      split; [rewrite E2, E1; cbn; now rewrite <- !app_assoc|].
      eexists. eexists. split; [reflexivity|].
      apply Forall_app. split; [exact Hp0 | apply Forall_app; auto].
    + eexists (([p0] ++ n1) ++ [complete rid _]). cbn [fst snd posted post].
      split; [rewrite E1; cbn; now rewrite <- !app_assoc|].
      eexists. eexists. split; [reflexivity|]. apply Forall_app. auto.
  - destruct (enabled input && enableKO input).
    + destruct (@evaluateGridPoints_notices rid true offensePoints batch start timeoutAt w1)
        as (n2 & E2 & H2).
      destruct (evaluateGridPoints host evaluatePoint applyLikelihoods rid true
                                   offensePoints batch start timeoutAt w1)
        as [w3 [e|points']]; cbn [fst snd] in *.
      { exists ([p0] ++ n2). split; [rewrite E2; cbn; now rewrite <- app_assoc|].
        apply runNotices_of_grid with (bound := length offensePoints); auto. }
      eexists (([p0] ++ n2) ++ [complete rid _]). cbn [fst snd posted post].
      split; [rewrite E2; cbn; now rewrite <- !app_assoc|].
      eexists. eexists. split; [reflexivity|]. apply Forall_app. auto.
    + exists [p0]. cbn. split; [reflexivity | exact Hp0].
Qed.

Lemma no_complete_among_progress (pr : list R) (last : R) rid summary :
  Forall isProgress pr -> last <> complete rid summary ->
  ~ In (complete rid summary) (pr ++ [last]).
Proof.
  intros Hpr Hlast Hin. apply in_app_or in Hin as [Hin|[E|[]]].
  - rewrite Forall_forall in Hpr. exact (Hpr _ Hin).
  - congruence.
Qed.

(** C7.  Within one invocation of [runSimulation], whatever the host does
    at the yield points and whatever the clock reads: when the grid loop
    sees the job's cancellation flag set it posts [cancelled] for the
    request and leaves; when it reads a clock value past the deadline
    after a point it leaves with a timeout; an invocation that ended in
    the first way has posted, after progress responses only, exactly one
    [cancelled] response for its request, one that ended in the second
    way exactly one [error] response whose message is the text
    "Simulation timeout after Ns (processed P/T points)", with P the
    number of points processed (at least 1, at most the total) and T the
    total number of points of the grid under evaluation, both in decimal;
    in both cases it has posted no [complete] response. *)
Theorem cancelled_or_timed_out_job_never_completes
        (input : SimulationInput) (w : W) :
  let rid := requestId input in
  let run := runSimulation host speciesKnown evaluatePoint runDeterministic
                           defensePoints offensePoints applyLikelihoods buildSummary
                           input w in
  (forall optimizeOffense batch total start timeoutAt point rest done (w0 : W),
      activeJob w0 = Some (mkJob rid true) ->
      gridLoop host evaluatePoint rid optimizeOffense batch total start timeoutAt
               (point :: rest) done w0
      = (post (cancelled rid) w0, inl exitCancelled)) /\
  (forall optimizeOffense batch total start timeoutAt point rest done (w0 : W) evaluated,
      activeJob w0 = Some (mkJob rid false) ->
      evaluatePoint optimizeOffense point = inr evaluated ->
      Num.ltb timeoutAt
              (fst (now host (reportBatch host rid batch total start
                                          (S (length done)) w0))) = true ->
      snd (gridLoop host evaluatePoint rid optimizeOffense batch total start timeoutAt
                    (point :: rest) done w0)
      = inl (exitTimeout (S (length done)) total)) /\
  exists notices,
    posted (fst run) = posted w ++ notices /\
    runNotices rid true (snd run) notices /\
    (snd run = inl exitCancelled \/
     (exists processed total, snd run = inl (exitTimeout processed total)) ->
     forall rid' summary, ~ In (complete rid' summary) notices).
Proof.
  intros rid run. split; [|split].
  - intros optimizeOffense batch total start timeoutAt point rest done w0 Hjob.
    cbn [gridLoop]. rewrite Hjob. cbn [jobRequestId jobCancelled].
    rewrite String.eqb_refl. reflexivity.
  - intros optimizeOffense batch total start timeoutAt point rest done w0 evaluated
           Hjob Heval Hlate.
    cbn [gridLoop]. rewrite Hjob. cbn [jobRequestId jobCancelled].
    rewrite String.eqb_refl. cbn [negb]. rewrite Heval. cbv zeta.
    destruct (now host (reportBatch host rid batch total start (S (length done)) w0))
      as [t w2].
    cbn [fst] in Hlate. rewrite Hlate. reflexivity.
  - subst run. unfold runSimulation. cbv zeta. unfold now. cbv beta iota zeta.
    fold rid.
    match goal with
    | |- context [runBody _ _ _ _ _ _ _ _ input ?start ?w1] =>
        destruct (@runBody_notices input start w1) as (notices & Eposted & Hnotices);
        destruct (runBody host speciesKnown evaluatePoint runDeterministic
                          defensePoints offensePoints applyLikelihoods buildSummary
                          input start w1) as [w2 outcome]
    end.
    cbn [fst snd posted setActiveJob] in *. fold rid in Hnotices.
    set (w3 := match outcome with
               | inl (exitThrew message) => post (error rid message) w2
               | _ => w2
               end).
    assert (Hfinally : forall w' : W, posted (match activeJob w' with
                        | Some job => if String.eqb (jobRequestId job) rid
                                      then setActiveJob None w' else w'
                        | None => w'
                        end) = posted w').
    { intros w'. destruct (activeJob w') as [job|]; [|reflexivity].
      destruct (String.eqb _ _); reflexivity. }
    destruct outcome as [[| |processed total|message]|[]]; cbn [runNotices] in *;
      subst w3; rewrite Hfinally.
    + exists notices. split; [assumption|]. split; [assumption|].
      intros [H|(p & t & H)]; discriminate.
    + exists notices. split; [assumption|]. split; [assumption|].
      intros _ rid' summary. destruct Hnotices as (pr & -> & Hpr).
      apply no_complete_among_progress; [assumption | discriminate].
    + exists notices. split; [assumption|]. split; [assumption|].
      intros _ rid' summary. destruct Hnotices as (pr & seconds & -> & Hpr & _).
      apply no_complete_among_progress; [assumption | discriminate].
    + exists (notices ++ [error rid message]). cbn [posted post].
      split; [rewrite Eposted; now rewrite <- app_assoc|].
      split; [exists notices; auto|].
      intros [H|(p & t & H)]; discriminate.
    + exists notices. split; [assumption|]. split; [assumption|].
      intros [H|(p & t & H)]; discriminate.
Qed.

End Protocol.

Import WorkerSamples.

Example cancelled_run_responses :
  snd (sampleRun cancellingHost) = inl exitCancelled /\
  map (@responseKind nat) (posted (fst (sampleRun cancellingHost)))
  = ["progress"; "progress"; "progress"; "cancelled"]%string.
Proof. split; vm_compute; reflexivity. Qed.

Example timed_out_run_responses :
  snd (sampleRun slowHost) = inl (exitTimeout 1 3) /\
  map (@responseKind nat) (posted (fst (sampleRun slowHost)))
  = ["progress"; "progress"; "progress";
     "Simulation timeout after 80s (processed 1/3 points)"]%string.
Proof. split; vm_compute; reflexivity. Qed.

Example completed_run_responses :
  snd (sampleRun quietHost) = inr tt /\
  map (@responseKind nat) (posted (fst (sampleRun quietHost)))
  = ["progress"; "progress"; "progress"; "progress"; "progress"; "complete"]%string.
Proof. split; vm_compute; reflexivity. Qed.

Lemma cancelled_or_timed_out_job_never_completes_witness :
  (activeJob (tick cancellingHost
                   (setActiveJob (Some (mkJob "job-1" false)) idleWorld))
   = Some (mkJob "job-1" true) /\
   snd (sampleRun cancellingHost) = inl exitCancelled /\
   (exists pr, posted (fst (sampleRun cancellingHost)) = pr ++ [cancelled "job-1"]) /\
   forall rid summary,
     ~ In (complete rid summary) (posted (fst (sampleRun cancellingHost)))) /\
  (snd (sampleRun slowHost) = inl (exitTimeout 1 3) /\
   (exists pr,
       posted (fst (sampleRun slowHost))
       = pr ++ [error "job-1" "Simulation timeout after 80s (processed 1/3 points)"]) /\
   forall rid summary,
     ~ In (complete rid summary) (posted (fst (sampleRun slowHost)))).
Proof.
  split.
  - split; [reflexivity|].
    assert (Hexit : snd (sampleRun cancellingHost) = inl exitCancelled)
      by (vm_compute; reflexivity).
    split; [exact Hexit|].
    destruct (@cancelled_or_timed_out_job_never_completes
                nat nat cancellingHost (fun _ => true) sampleEvaluate (inr O)
                samplePoints samplePoints (fun points => points) sampleSummary
                sampleInput idleWorld)
      as (_ & _ & notices & Eposted & Hnotices & Hnone).
    cbv zeta in Hnotices, Hnone. unfold sampleRun in Hexit |- *.
    unfold W in *. rewrite Eposted. cbn [posted idleWorld app].
    rewrite Hexit in Hnotices. cbn [runNotices] in Hnotices.
    destruct Hnotices as (pr & E & _).
    split; [exists pr; exact E|].
    intros rid summary. apply Hnone. left. exact Hexit.
  - assert (Hexit : snd (sampleRun slowHost) = inl (exitTimeout 1 3))
      by (vm_compute; reflexivity).
    split; [exact Hexit|].
    destruct (@cancelled_or_timed_out_job_never_completes
                nat nat slowHost (fun _ => true) sampleEvaluate (inr O)
                samplePoints samplePoints (fun points => points) sampleSummary
                sampleInput idleWorld)
      as (_ & _ & notices & Eposted & Hnotices & Hnone).
    assert (Elast : last (posted (fst (sampleRun slowHost))) (cancelled "")
                    = error "job-1" "Simulation timeout after 80s (processed 1/3 points)")
      by (vm_compute; reflexivity).
    cbv zeta in Hnotices, Hnone. unfold sampleRun in Hexit, Elast |- *.
    unfold W in *. rewrite Eposted in Elast |- *. cbn [posted idleWorld app] in *.
    rewrite Hexit in Hnotices. cbn [runNotices] in Hnotices.
    destruct Hnotices as (pr & seconds & E & _).
    split.
    + exists pr. rewrite E in Elast |- *. rewrite last_last in Elast.
      rewrite Elast. reflexivity.
    + intros rid summary. apply Hnone. right. exists 1%nat, 3%nat. exact Hexit.
Defined.

End WorkerSpec.

(** ** The weighting functions on binary64 numbers: what rounding does *)

Module DoublesSpec.

Import Doubles PrimFloat.

Local Open Scope float_scope.



(** The rounding of rationals to binary64 in [Num] agrees with the
    machine on the quotients and products of this example. *)
Example double_agrees_with_the_machine :
  let same (f : float) (q : Qc) := option_map this (Num.ofDouble f) = Some (this q) in
  same (4 / 6) (Num.divDouble (Num.ofZ 4) (Num.ofZ 6)) /\
  same (1 / 6) (Num.divDouble (Num.ofZ 1) (Num.ofZ 6)) /\
  same (7 / 10) (Num.divDouble (Num.ofZ 7) (Num.ofZ 10)) /\
  same (90 * (7 / 10))
       (Num.mulDouble (Num.ofZ 90) (Num.divDouble (Num.ofZ 7) (Num.ofZ 10))) /\
  same (0x1p+53 + 1) (Num.double (Num.ofZ (2 ^ 53 + 1))) /\
  same (0x1p+53 + 3) (Num.double (Num.ofZ (2 ^ 53 + 3))) /\
  same (0x1p-1074 / 2) (Num.double (Q2Qc (1 # 2 ^ 1075))) /\
  same (0x1p-1074 * 1.5) (Num.double (Q2Qc (3 # 2 ^ 1075))).
Proof. repeat split; vm_compute; reflexivity. Qed.

(** The same comparison on a few hundred quotients and products of
    pseudo-random integers, and on products that fall among the subnormal
    numbers. *)
Fixpoint samplePairs (n : nat) (seed : Z) : list (Z * Z) :=
  match n with
  | O => []
  | S n' =>
      let a := ((seed * 6364136223846793005 + 1442695040888963407) mod 2 ^ 64)%Z in
      let b := ((a * 6364136223846793005 + 1442695040888963407) mod 2 ^ 64)%Z in
      (((a / 2 ^ 11) mod 2 ^ 53 + 1)%Z,
       ((b / 2 ^ 11) mod 2 ^ (Z.of_nat (n mod 53) + 1) + 1)%Z)
      :: samplePairs n' b
  end.

Definition ofInteger (z : Z) : float := of_uint63 (Uint63.of_Z z).

Definition sameNumber (f : float) (q : Qc) : bool :=
  match Num.ofDouble f with
  | Some r => Qeq_bool (this r) (this q)
  | None => false
  end.

Definition agreesOn (pq : Z * Z) : bool :=
  let '(p, q) := pq in
  let tiny := FloatOps.Z.ldexp 1 (-1060)%Z in
  sameNumber (ofInteger p / ofInteger q) (Num.divDouble (Num.ofZ p) (Num.ofZ q))
  && sameNumber (ofInteger p * ofInteger q) (Num.mulDouble (Num.ofZ p) (Num.ofZ q))
  && sameNumber (ofInteger p / ofInteger q / ofInteger p)
                (Num.divDouble (Num.divDouble (Num.ofZ p) (Num.ofZ q)) (Num.ofZ p))
  && sameNumber (ofInteger p / ofInteger q * tiny * (1 / ofInteger q))
                (Num.mulDouble
                   (Num.mulDouble (Num.divDouble (Num.ofZ p) (Num.ofZ q))
                                  (Q2Qc (Qpower 2 (-1060))))
                   (Num.divDouble (Num.ofZ 1) (Num.ofZ q))).

Example double_agrees_on_samples : forallb agreesOn (samplePairs 300 2024) = true.
Proof. vm_compute. reflexivity. Qed.

(** [Math.max] on binary64 numbers. *)
Example Math_max_cases :
  Math_max 3 2 = 3 /\ Math_max (-1) 0 = 0 /\ Math_max (-0) 0 = 0 /\
  Math_max 0 (-0) = 0 /\ Math_max nan 0 = nan /\ Math_max neg_infinity 0 = 0.
Proof. repeat split. Qed.



End DoublesSpec.

(** ** More on the damage cache *)

Module CacheFacts.

Import Cache CacheSpec.

Section Lookups.

Variables K V : Type.
Variable serializeKey : K -> string.

Lemma mapGet_app_fresh (m : MapStore V) (id : string) (v : V) :
  ~ In id (map fst m) -> mapGet id (m ++ [(id, v)]) = Some v.
Proof.
  induction m as [|[k w] m IH]; simpl; intros Hn.
  - now rewrite String.eqb_refl.
  - destruct (String.eqb_spec k id) as [->|Hne]; [tauto|]. apply IH. tauto.
Qed.

Lemma mapGet_app_other (m : MapStore V) (id id' : string) (v : V) :
  id' <> id -> mapGet id' (m ++ [(id, v)]) = mapGet id' m.
Proof.
  intros Hne. induction m as [|[k w] m IH]; simpl.
  - destruct (String.eqb_spec id id'); congruence.
  - destruct (String.eqb k id'); auto.
Qed.

Lemma mapGet_mapDelete_other (m : MapStore V) (id id' : string) :
  id' <> id -> mapGet id' (mapDelete id m) = mapGet id' m.
Proof.
  intros Hne. induction m as [|[k w] m IH]; simpl; auto.
  destruct (String.eqb_spec k id) as [->|Hk]; simpl.
  - destruct (String.eqb_spec id id'); congruence.
  - destruct (String.eqb k id'); auto.
Qed.

Lemma mapDelete_absent (m : MapStore V) (id : string) :
  NoDup (map fst m) -> ~ In id (map fst (mapDelete id m)).
Proof.
  intros Hnd. rewrite keys_mapDelete. now apply removeKey_NoDup.
Qed.

(** The value found under the id just written, in a cache with room for
    at least one entry. *)
Lemma set_get_same_id (k k' : K) (v : V) (c : DamageCache V) :
  NoDup (keys c) -> (1 <= limit c)%Z ->
  serializeKey k' = serializeKey k ->
  mapGet (serializeKey k') (store (set serializeKey k v c)) = Some v.
Proof.
  intros Hnd Hlim Eid. rewrite Eid. rewrite (@set_store K V serializeKey k v c Hnd).
  pose proof (@mapDelete_absent (store c) (serializeKey k) Hnd) as Habs.
  unfold inserted.
  destruct (mapSize _ >? limit c)%Z eqn:Eo.
  - destruct (mapDelete (serializeKey k) (store c)) as [|[k0 w0] rest] eqn:Ed.
    + unfold mapSize in Eo. simpl in Eo. lia.
    + cbn [app tl]. apply mapGet_app_fresh. simpl in Habs. tauto.
  - now apply mapGet_app_fresh.
Qed.

Lemma get_of_mapGet (k : K) (c : DamageCache V) :
  fst (get serializeKey k c) = mapGet (serializeKey k) (store c).
Proof.
  unfold get. destruct (mapGet (serializeKey k) (store c)); reflexivity.
Qed.

(** X1.  [set] followed by [get] on the same key returns the value just
    stored, at every point of every history of a cache whose capacity is
    at least 1. *)
Theorem DamageCache_get_after_set
        (lim : Z) (ops : list (Op K V)) (k : K) (v : V) :
  (1 <= lim)%Z ->
  let c := run serializeKey (new V (Some lim)) ops in
  fst (get serializeKey k (set serializeKey k v c)) = Some v.
Proof.
  intros Hlim c. rewrite get_of_mapGet.
  pose proof (run_Inv serializeKey (Some lim) ops) as [Hnd _ _]. fold c in Hnd.
  apply set_get_same_id; auto.
  unfold c. rewrite run_limit. exact Hlim.
Qed.

(** *** A cache without room *)

Lemma step_empty (c : DamageCache V) (o : Op K V) :
  (limit c <= 0)%Z -> store c = [] -> store (step serializeKey c o) = [].
Proof.
  intros Hl E. destruct o as [k|k v]; cbn [step].
  - unfold get. rewrite E. cbn [mapGet snd]. exact E.
  - unfold set. rewrite E. cbn [mapHas mapGet mapSet store].
    replace (mapSize [(serializeKey k, v)] >? limit c)%Z with true
      by (symmetry; apply Z.gtb_lt; unfold mapSize; simpl; lia).
    cbn [mapFirstKey mapDelete]. now rewrite String.eqb_refl.
Qed.

(** X2.  A cache created with a capacity of zero (or less) never holds an
    entry: whatever is written, every [get] misses. *)
Theorem DamageCache_without_room
        (lim : Z) (ops : list (Op K V)) (k : K) :
  (lim <= 0)%Z ->
  let c := run serializeKey (new V (Some lim)) ops in
  store c = [] /\ fst (get serializeKey k c) = None.
Proof.
  intros Hlim c.
  assert (E : store c = []).
  { unfold c. induction ops as [|o ops IH] using rev_ind.
    - reflexivity.
    - rewrite run_snoc. apply step_empty; [|exact IH].
      rewrite run_limit. exact Hlim. }
  split; [exact E|]. rewrite get_of_mapGet, E. reflexivity.
Qed.

(** *** Overwriting *)

(** X3.  Writing under an id that is already stored replaces the value, moves
    the entry to the most recent position and leaves every other entry
    where it is: nothing is evicted. *)
Theorem DamageCache_overwrite_keeps_entries
        (lim : Z) (ops : list (Op K V)) (k : K) (v old : V) :
  (0 <= lim)%Z ->
  let c := run serializeKey (new V (Some lim)) ops in
  mapGet (serializeKey k) (store c) = Some old ->
  store (set serializeKey k v c)
  = mapDelete (serializeKey k) (store c) ++ [(serializeKey k, v)] /\
  length (store (set serializeKey k v c)) = length (store c) /\
  forall id, id <> serializeKey k ->
             mapGet id (store (set serializeKey k v c)) = mapGet id (store c).
Proof.
  intros Hlim c Hold.
  pose proof (run_Inv serializeKey (Some lim) ops) as [Hnd _ _]. fold c in Hnd.
  pose proof (@run_size K V serializeKey (Some lim) ops Hlim) as Hsz. fold c in Hsz.
  cbn [new limit] in Hsz.
  assert (Hl : limit c = lim) by (unfold c; now rewrite run_limit).
  assert (Hlen : length (inserted serializeKey k v c) = length (store c)).
  { unfold inserted. rewrite length_app. simpl.
    apply mapGet_Some_In in Hold. clear -Hold.
    induction (store c) as [|[a w] m IH]; simpl in *; [tauto|].
    destruct (String.eqb_spec a (serializeKey k)); simpl; [lia|].
    destruct Hold as [E|Hin]; [congruence|]. specialize (IH Hin). lia. }
  assert (Es : store (set serializeKey k v c) = inserted serializeKey k v c).
  { rewrite (@set_store K V serializeKey k v c Hnd).
    replace (mapSize (inserted serializeKey k v c) >? limit c)%Z with false; auto.
    symmetry. rewrite Z.gtb_ltb. apply Z.ltb_ge.
    unfold mapSize in *. rewrite Hlen, Hl. exact Hsz. }
  split; [exact Es|]. split; [now rewrite Es|].
  intros id Hne. rewrite Es. unfold inserted.
  rewrite mapGet_app_other by exact Hne.
  now apply mapGet_mapDelete_other.
Qed.

(** *** Last write wins *)

(** The value of the last [set] under [id] in a history. *)
Fixpoint lastSet (ops : list (Op K V)) (id : string) : option V :=
  match ops with
  | [] => None
  | o :: rest =>
      match lastSet rest id with
      | Some v => Some v
      | None =>
          match o with
          | OpSet k v => if String.eqb (serializeKey k) id then Some v else None
          | OpGet _ _ => None
          end
      end
  end.

Lemma lastSet_snoc (ops : list (Op K V)) (o : Op K V) (id : string) :
  lastSet (ops ++ [o]) id =
  match o with
  | OpSet k v => if String.eqb (serializeKey k) id then Some v else lastSet ops id
  | OpGet _ _ => lastSet ops id
  end.
Proof.
  induction ops as [|o' ops IH]; simpl.
  - destruct o as [k|k v]; auto.
  - rewrite IH. destruct o as [k|k v].
    + reflexivity.
    + destruct (String.eqb (serializeKey k) id); auto.
Qed.

Definition Fresh (ops : list (Op K V)) (c : DamageCache V) : Prop :=
  forall id v, mapGet id (store c) = Some v -> lastSet ops id = Some v.

Lemma mapGet_tl (m : MapStore V) (id : string) (v : V) :
  NoDup (map fst m) -> mapGet id (tl m) = Some v -> mapGet id m = Some v.
Proof.
  destruct m as [|[k w] m]; simpl; auto.
  intros Hnd Hg. destruct (String.eqb_spec k id) as [->|Hne]; auto.
  apply mapGet_Some_In in Hg. inversion Hnd; subst. tauto.
Qed.

Lemma inserted_NoDup (k : K) (v : V) (c : DamageCache V) :
  NoDup (keys c) -> NoDup (map fst (inserted serializeKey k v c)).
Proof.
  intros Hnd. rewrite keys_inserted.
  destruct (removeKey_NoDup (serializeKey k) Hnd) as [H1 H2].
  apply NoDup_app; [assumption | repeat constructor; simpl; tauto |].
  intros x Hx [E|[]]. subst. tauto.
Qed.

Lemma step_Fresh (ops : list (Op K V)) (c : DamageCache V) (o : Op K V) :
  NoDup (keys c) -> Fresh ops c -> Fresh (ops ++ [o]) (step serializeKey c o).
Proof.
  intros Hnd Hf id v Hg. rewrite lastSet_snoc. destruct o as [k|k w]; cbn [step] in Hg.
  - destruct (mapGet (serializeKey k) (store c)) as [cached|] eqn:Eg.
    + rewrite (@get_hit_store K V serializeKey k cached c Hnd Eg) in Hg.
      cbn [snd store] in Hg.
      destruct (String.eqb_spec id (serializeKey k)) as [->|Hne].
      * rewrite mapGet_app_fresh in Hg by now apply mapDelete_absent.
        injection Hg as <-. now apply Hf.
      * rewrite mapGet_app_other, mapGet_mapDelete_other in Hg by exact Hne.
        now apply Hf.
    + unfold get in Hg. rewrite Eg in Hg. now apply Hf.
  - rewrite (@set_store K V serializeKey k w c Hnd) in Hg.
    assert (Hi : mapGet id (inserted serializeKey k w c) = Some v).
    { destruct (mapSize _ >? limit c)%Z; [|exact Hg].
      apply mapGet_tl; [now apply inserted_NoDup | exact Hg]. }
    unfold inserted in Hi.
    destruct (String.eqb_spec (serializeKey k) id) as [E|Hne].
    + rewrite <- E in Hi.
      rewrite mapGet_app_fresh in Hi by now apply mapDelete_absent.
      exact Hi.
    + rewrite mapGet_app_other, mapGet_mapDelete_other in Hi by congruence.
      now apply Hf.
Qed.

(** X4.  Whatever a [get] returns is the value of the latest [set] under the
    same id in the history of the cache: no stale value survives an
    overwrite, and no value appears that was never written. *)
Theorem DamageCache_last_write_wins
        (lim : option Z) (ops : list (Op K V)) (k : K) (v : V) :
  let c := run serializeKey (new V lim) ops in
  fst (get serializeKey k c) = Some v ->
  lastSet ops (serializeKey k) = Some v.
Proof.
  intros c. rewrite get_of_mapGet.
  assert (Hf : Fresh ops c).
  { unfold c. induction ops as [|o ops IH] using rev_ind.
    - intros id w Hg. discriminate.
    - rewrite run_snoc. apply step_Fresh; [|exact IH].
      now destruct (run_Inv serializeKey lim ops). }
  apply Hf.
Qed.

End Lookups.

Lemma DamageCache_get_after_set_witness :
  (1 <= 1)%Z /\
  fst (get (fun k : string => k) "b"%string
           (set (fun k : string => k) "b"%string 2%nat
                (run (fun k : string => k) (new nat (Some 1%Z))
                     [OpSet "a"%string 1%nat])))
  = Some 2%nat.
Proof.
  split; [lia|].
  exact (@DamageCache_get_after_set string nat (fun k => k) 1%Z
           [OpSet "a"%string 1%nat] "b"%string 2%nat ltac:(lia)).
Defined.

Lemma DamageCache_without_room_witness :
  (0 <= 0)%Z /\
  fst (get (fun k : string => k) "a"%string
           (run (fun k : string => k) (new nat (Some 0%Z))
                [OpSet "a"%string 1%nat]))
  = None.
Proof.
  split; [lia|].
  exact (proj2 (@DamageCache_without_room string nat (fun k => k) 0%Z
                  [OpSet "a"%string 1%nat] "a"%string ltac:(lia))).
Defined.

Lemma DamageCache_overwrite_keeps_entries_witness :
  let ops := [OpSet "a"%string 1%nat; OpSet "b"%string 2%nat] in
  let c := run (fun k : string => k) (new nat (Some 2%Z)) ops in
  (0 <= 2)%Z /\ mapGet "a"%string (store c) = Some 1%nat /\
  length (store (set (fun k : string => k) "a"%string 7%nat c)) = length (store c).
Proof.
  intros ops c.
  assert (H0 : (0 <= 2)%Z) by lia.
  assert (H1 : mapGet "a"%string (store c) = Some 1%nat) by reflexivity.
  split; [exact H0|]. split; [exact H1|].
  exact (proj1 (proj2 (@DamageCache_overwrite_keeps_entries string nat (fun k => k)
                         2%Z ops "a"%string 7%nat 1%nat H0 H1))).
Defined.

Lemma DamageCache_last_write_wins_witness :
  let ops := [OpSet "a"%string 1%nat; OpSet "a"%string 5%nat; OpGet nat "a"%string] in
  fst (get (fun k : string => k) "a"%string
           (run (fun k : string => k) (new nat None) ops)) = Some 5%nat /\
  lastSet (fun k : string => k) ops "a"%string = Some 5%nat.
Proof.
  intros ops.
  assert (H : fst (get (fun k : string => k) "a"%string
                       (run (fun k : string => k) (new nat None) ops)) = Some 5%nat)
    by reflexivity.
  split; [exact H|].
  exact (@DamageCache_last_write_wins string nat (fun k => k) None ops "a"%string
           5%nat H).
Defined.

(** *** What the cache key leaves out *)

Section Signature.

Import Timeline CacheKey.

Variable stringify : KeySignature -> string.

(** A key rebuilt with other HP values for both combatants, another
    [stellarFirstUse] marker for the move and other side conditions and
    room flags for the field. *)
Definition withUnkeyedParts (key : DamageCacheKey)
           (attackerHP attackerMax defenderHP defenderMax : option Qc)
           (firstUse : option bool) (flags : FieldFlags)
           (attackerSide defenderSide : option SideState) : DamageCacheKey :=
  mkCacheKey (pkWithHP attackerHP attackerMax (keyAttacker key))
             (pkWithHP defenderHP defenderMax (keyDefender key))
             (mvWithTera (mvTeraMode (keyMove key)) (mvTeraType (keyMove key))
                         firstUse (keyMove key))
             (mkField (fsWeather (keyField key)) (fsTerrain (keyField key))
                      (fsTrickRoom (keyField key)) flags attackerSide defenderSide)
             (keyActorSide key).

(** X5.  The cache id is computed from the picked signatures only: the
    combatants' current and maximum HP, the move's [stellarFirstUse]
    marker and the field's side conditions (screens, spikes) and room
    flags do not enter it.  A computation stored for one key is therefore
    returned for every key that differs from it in those parts only. *)
Theorem serializeKey_ignores_unkeyed_parts
        (lim : Z) (ops : list (Op DamageCacheKey DamageComputation))
        (key : DamageCacheKey) (computation : DamageComputation)
        (attackerHP attackerMax defenderHP defenderMax : option Qc)
        (firstUse : option bool) (flags : FieldFlags)
        (attackerSide defenderSide : option SideState) :
  (1 <= lim)%Z ->
  let key' := withUnkeyedParts key attackerHP attackerMax defenderHP defenderMax
                               firstUse flags attackerSide defenderSide in
  let c := run (serializeKey stringify) (new DamageComputation (Some lim)) ops in
  serializeKey stringify key' = serializeKey stringify key /\
  fst (get (serializeKey stringify) key' (set (serializeKey stringify) key computation c))
  = Some computation.
Proof.
  intros Hlim key' c.
  assert (E : serializeKey stringify key' = serializeKey stringify key) by reflexivity.
  split; [exact E|].
  rewrite get_of_mapGet.
  pose proof (run_Inv (serializeKey stringify) (Some lim) ops) as [Hnd _ _].
  fold c in Hnd.
  apply set_get_same_id; auto.
  unfold c. rewrite run_limit. exact Hlim.
Qed.

End Signature.

(** A computation stored for an attack into a bare field is returned for
    the same attack into Reflect, with other HP values. *)
Lemma serializeKey_ignores_unkeyed_parts_witness :
  let stringify := fun s : CacheKey.KeySignature =>
                     CacheKey.sigSpecies (CacheKey.sigAttacker s) in
  let key := Timeline.mkCacheKey
               (TimelineSamples.samplePokemon 100 100)
               (TimelineSamples.samplePokemon 100 100)
               TimelineSamples.sampleMove TimelineSamples.sampleField
               Timeline.player in
  let reflect := Timeline.mkSideState (Some true) None None None None None None
                                      None None None None in
  let key' := withUnkeyedParts key (Some (Num.ofZ 40)) (Some (Num.ofZ 100))
                               (Some (Num.ofZ 7)) (Some (Num.ofZ 100)) (Some true)
                               TimelineSamples.noFlags None (Some reflect) in
  let computation :=
    TimelineSamples.sampleComputeDamage
      Timeline.player (Timeline.keyAttacker key) (Timeline.keyDefender key)
      (Timeline.keyMove key) (Timeline.keyField key) in
  (1 <= 1)%Z /\
  fst (get (CacheKey.serializeKey stringify) key'
           (set (CacheKey.serializeKey stringify) key computation
                (run (CacheKey.serializeKey stringify)
                     (new Timeline.DamageComputation (Some 1%Z)) [])))
  = Some computation.
Proof.
  intros stringify key reflect key' computation.
  split; [lia|].
  exact (proj2 (@serializeKey_ignores_unkeyed_parts stringify 1%Z [] key computation
                  (Some (Num.ofZ 40)) (Some (Num.ofZ 100))
                  (Some (Num.ofZ 7)) (Some (Num.ofZ 100)) (Some true)
                  TimelineSamples.noFlags None (Some reflect) ltac:(lia))).
Defined.

End CacheFacts.

(** ** More on the EV grid engine *)

Module EvGridFacts.

Import EvGrid EvGridInsight NumFacts SortFacts EvGridSpec RankSpec OffenseSpec.

Local Open Scope Qc_scope.

(** *** Ranking without a target *)

Definition survivalGe (a b : EVGridPoint) : Prop :=
  orZero (survival b) <= orZero (survival a).

Lemma bySurvival_le (a b : EVGridPoint) :
  Num.leb (bySurvivalDesc a b) 0 = true -> survivalGe a b.
Proof.
  unfold bySurvivalDesc, survivalGe. rewrite leb_le. intros H. qc_lra.
Qed.

Lemma bySurvival_gt (a b : EVGridPoint) :
  Num.leb (bySurvivalDesc a b) 0 = false -> survivalGe b a.
Proof.
  unfold bySurvivalDesc, survivalGe. rewrite leb_gt. intros H. qc_lra.
Qed.

Lemma survivalGe_trans (a b c : EVGridPoint) :
  survivalGe a b -> survivalGe b c -> survivalGe a c.
Proof. unfold survivalGe. intros H1 H2. qc_lra. Qed.

Lemma StronglySorted_app_inv (A : Type) (R : A -> A -> Prop) (l1 l2 : list A) :
  StronglySorted R (l1 ++ l2) ->
  StronglySorted R l1 /\ StronglySorted R l2 /\
  forall a b, In a l1 -> In b l2 -> R a b.
Proof.
  induction l1 as [|x l1 IH]; simpl; intros Hs.
  - split; [constructor|]. split; [assumption|]. intros a b [].
  - apply StronglySorted_inv in Hs as [Hs Hall].
    destruct (IH Hs) as (H1 & H2 & H3).
    rewrite Forall_forall in Hall.
    split; [|split; [assumption|]].
    + constructor; [assumption|]. apply Forall_forall. intros y Hy.
      apply Hall, in_or_app. now left.
    + intros a b [<-|Ha] Hb; [|now apply H3].
      apply Hall, in_or_app. now right.
Qed.

Lemma rankTopPlans_noTarget (points : list EVGridPoint) (target : option Qc) :
  noTarget target = true ->
  rankTopPlans points target
  = map toPlan (firstn 3 (Num.sortBy bySurvivalDesc points)).
Proof.
  intros H. unfold rankTopPlans. destruct target as [t|]; [|reflexivity].
  now rewrite H.
Qed.

(** X6.  Without a target ([undefined], zero or negative) [rankTopPlans]
    returns the three points of highest survival, best first (all of them
    when there are fewer than three), none marked as meeting a target. *)
Theorem rankTopPlans_top_three (points : list EVGridPoint) (target : option Qc) :
  noTarget target = true ->
  let result := rankTopPlans points target in
  length result = Nat.min 3 (length points) /\
  Forall (fun plan => planMeetsTarget plan = false) result /\
  exists top others,
    result = map toPlan top /\
    Permutation (top ++ others) points /\
    StronglySorted survivalGe top /\
    forall a b, In a top -> In b others -> survivalGe a b.
Proof.
  intros Hno result. unfold result. rewrite (@rankTopPlans_noTarget points target Hno).
  set (sorted := Num.sortBy bySurvivalDesc points).
  assert (Hperm : Permutation sorted points) by apply sortBy_perm.
  assert (Hsorted : StronglySorted survivalGe sorted).
  { apply Sorted_StronglySorted; [exact survivalGe_trans|].
    apply sortBy_Sorted; [exact bySurvival_le | exact bySurvival_gt]. }
  split; [|split].
  - rewrite length_map, length_firstn. now rewrite (Permutation_length Hperm).
  - apply Forall_map, Forall_forall. reflexivity.
  - exists (firstn 3 sorted), (skipn 3 sorted).
    rewrite firstn_skipn. split; [reflexivity|]. split; [assumption|].
    rewrite <- (firstn_skipn 3 sorted) in Hsorted.
    apply StronglySorted_app_inv in Hsorted as (H1 & _ & H3). auto.
Qed.

Lemma rankTopPlans_top_three_witness :
  let pt := fun hp s =>
    mkPoint hp 0 None None (Some defense) 1 1 (Some s) None None None in
  let points := [ pt 0%Z (Q2Qc (1 # 4)); pt 4%Z (Q2Qc (3 # 4));
                  pt 8%Z (Q2Qc (1 # 2)); pt 12%Z 1 ] in
  noTarget (Some 0) = true /\
  length (rankTopPlans points (Some 0)) = 3%nat.
Proof.
  intros pt points.
  assert (H : noTarget (Some 0) = true) by reflexivity.
  split; [exact H|].
  exact (proj1 (@rankTopPlans_top_three points (Some 0) H)).
Defined.

(** *** Knockout plans *)

Lemma pushUntilThree_length (minimal selected : list OffenseEntry) :
  (length selected < 3)%nat ->
  (length (pushUntilThree selected minimal) <= 3)%nat.
Proof.
  revert selected.
  induction minimal as [|e minimal IH]; intros selected Hlen; cbn [pushUntilThree].
  - lia.
  - destruct (3 <=? length (selected ++ [e]))%nat eqn:E.
    + rewrite length_app. simpl. lia.
    + apply IH. apply Nat.leb_gt in E. exact E.
Qed.

Lemma selectTiers_length (pool selected : list OffenseEntry) :
  (length (selectTiers pool selected) <= Nat.max 3 (length selected))%nat.
Proof.
  funelim (selectTiers pool selected).
  - simp selectTiers. lia.
  - destruct (length selected <? 3)%nat eqn:E.
    + apply Nat.ltb_lt in E.
      pose proof (@pushUntilThree_length
                    (minimalOf (Num.takeWhile (sameTier (entryKoChance first))
                                              (first :: rest))) selected E) as Hp.
      lia.
    + lia.
Qed.

Lemma hasTarget_spec (target : option Qc) :
  hasTarget target = true <-> exists t, target = Some t /\ 0 < t.
Proof.
  unfold hasTarget, noTarget. destruct target as [t|].
  - rewrite negb_true_iff, orb_false_iff, eqb_neq, leb_gt. split.
    + intros [_ H]. eauto.
    + intros (t' & [= <-] & H). split; [|assumption].
      intros E. subst t. qc_lra.
  - split; [discriminate | intros (t & E & _); discriminate].
Qed.

Lemma meetsKo_spec (target : option Qc) (e : OffenseEntry) :
  meetsKo target e = true <->
  exists t, target = Some t /\ 0 < t /\ t - TARGET_EPS <= entryKoChance e.
Proof.
  unfold meetsKo. destruct target as [t|].
  - destruct (hasTarget (Some t)) eqn:Eh.
    + apply hasTarget_spec in Eh as (t' & [= <-] & Hpos).
      rewrite leb_le. split; [eauto|]. intros (t' & [= <-] & _ & H). exact H.
    + split; [discriminate|]. intros (t' & [= <-] & Hpos & _).
      rewrite (hasTarget_positive Hpos) in Eh. discriminate.
  - split; [discriminate | intros (t & E & _); discriminate].
Qed.

(** X7.  [rankOffensePlans] returns at most three plans, each built from an
    offense-kind point that carries a knockout chance; a plan is marked
    as meeting the target exactly when a positive target is given and the
    plan's knockout chance reaches it within the tolerance 1e-4; and as
    soon as one candidate reaches a positive target, only plans that reach
    it are returned. *)
Theorem rankOffensePlans_selection (points : list EVGridPoint) (target : option Qc) :
  let result := rankOffensePlans points target in
  (length result <= 3)%nat /\
  (forall plan, In plan result ->
     exists p k,
       In p points /\ kind p = Some offense /\ koChance p = Some k /\
       plan = toOffensePlan target (toEntry p) /\
       (offMeetsTarget plan = true <->
        exists t, target = Some t /\ 0 < t /\ t - TARGET_EPS <= k)) /\
  (forall t p k,
     target = Some t -> 0 < t ->
     In p points -> kind p = Some offense -> koChance p = Some k ->
     t - TARGET_EPS <= k ->
     (exists best others, result = best :: others) /\
     Forall (fun plan => offMeetsTarget plan = true) result).
Proof.
  intros result.
  destruct (sortableOf points) as [|s0 ss] eqn:Es.
  { assert (E : result = []).
    { pose proof Es as Es'. unfold sortableOf in Es'.
      unfold result, rankOffensePlans. cbv zeta. rewrite Es'. reflexivity. }
    rewrite E. split; [simpl; lia|]. split; [intros plan []|].
    intros t p k _ _ Hp Hkind Hk _. exfalso.
    assert (Hin : In (toEntry p) (sortableOf points))
      by (apply sortableOf_In; exists p, k; auto).
    rewrite Es in Hin. exact Hin. }
  assert (Hsortable : sortableOf points <> []) by (rewrite Es; discriminate).
  clear Es s0 ss.
  assert (E : result =
              let baseSorted := Num.sortBy byKoThenInvestment (sortableOf points) in
              let pool := if hasTarget target then filter (meetsKo target) baseSorted
                          else baseSorted in
              map (toOffensePlan target)
                  (selectTiers (match pool with [] => baseSorted | _ :: _ => pool end) []))
    by (apply rankOffensePlans_unfold; exact Hsortable).
  cbv zeta in E.
  set (baseSorted := Num.sortBy byKoThenInvestment (sortableOf points)) in *.
  set (pool := if hasTarget target then filter (meetsKo target) baseSorted
               else baseSorted) in *.
  set (chosen := match pool with [] => baseSorted | _ :: _ => pool end) in *.
  assert (Hchosen : forall e, In e chosen -> In e baseSorted).
  { intros e He. unfold chosen in He. destruct pool as [|a pool'] eqn:Ep; [exact He|].
    rewrite <- Ep in He. unfold pool in He.
    destruct (hasTarget target); [|exact He].
    apply filter_In in He. tauto. }
  destruct (selectTiers_grows chosen []) as (more & Esel & Hsub). cbn [app] in Esel.
  rewrite E. clearbody result. clear E result.
  split; [|split].
  - rewrite length_map. pose proof (selectTiers_length chosen []) as H.
    simpl in H. exact H.
  - intros plan Hplan. apply in_map_iff in Hplan as (e & <- & He).
    rewrite Esel in He. apply Hsub, Hchosen, sortBy_In, sortableOf_In in He.
    destruct He as (p & k & Hp & Hkind & Hk & ->).
    exists p, k. repeat (split; [assumption|]). split; [reflexivity|].
    cbn [toOffensePlan offMeetsTarget]. rewrite meetsKo_spec.
    unfold toEntry. cbn [entryKoChance]. rewrite Hk. reflexivity.
  - intros t p k -> Hpos Hp Hkind Hk Hreach.
    assert (Hin : In (toEntry p) (filter (meetsKo (Some t)) baseSorted)).
    { apply filter_In. split.
      - apply sortBy_In, sortableOf_In. exists p, k. auto.
      - apply meetsKo_spec. exists t. split; [reflexivity|]. split; [assumption|].
        unfold toEntry. cbn [entryKoChance]. now rewrite Hk. }
    assert (Epool : chosen = filter (meetsKo (Some t)) baseSorted).
    { unfold chosen, pool. rewrite (hasTarget_positive Hpos).
      destruct (filter (meetsKo (Some t)) baseSorted); [destruct Hin | reflexivity]. }
    split.
    + destruct chosen as [|first rest] eqn:Ec.
      * rewrite <- Epool in Hin. destruct Hin.
      * destruct (selectTiers_first first rest) as (e & others & -> & _).
        cbn [map]. eauto.
    + apply Forall_map, Forall_forall. intros e He.
      rewrite Esel in He. apply Hsub in He. rewrite Epool in He.
      apply filter_In in He. cbn [toOffensePlan offMeetsTarget]. tauto.
Qed.

(** *** Aggregates are weighted means *)






(** *** Nearest point and sensitivity *)

Definition nearestState (points : list EVGridPoint) (hp def : Z)
  : option (EVGridPoint * Z) :=
  fold_left (nearestStep hp def) points None.

Lemma nearestState_snoc (points : list EVGridPoint) (x : EVGridPoint) (hp def : Z) :
  nearestState (points ++ [x]) hp def
  = nearestStep hp def (nearestState points hp def) x.
Proof. unfold nearestState. now rewrite fold_left_app. Qed.

(** What the scan has found after any number of points: the first point
    at the least distance so far. *)
Lemma nearestState_spec (points : list EVGridPoint) (hp def : Z) :
  match nearestState points hp def with
  | None => points = []
  | Some (p, d) =>
      d = pointDistance hp def p /\
      exists pre post,
        points = pre ++ p :: post /\
        (forall q, In q pre -> (pointDistance hp def p < pointDistance hp def q)%Z) /\
        (forall q, In q post -> (pointDistance hp def p <= pointDistance hp def q)%Z)
  end.
Proof.
  induction points as [|x points IH] using rev_ind.
  - reflexivity.
  - rewrite nearestState_snoc.
    destruct (nearestState points hp def) as [[p d]|]; cbn [nearestStep].
    + destruct IH as (-> & pre & post & -> & Hpre & Hpost).
      destruct (Z.ltb_spec (pointDistance hp def x) (pointDistance hp def p)) as [Hlt|Hge].
      * split; [reflexivity|]. exists (pre ++ p :: post), [].
        split; [reflexivity|]. split; [|intros q []].
        intros q Hq. apply in_app_or in Hq as [Hq|[<-|Hq]].
        -- specialize (Hpre q Hq). lia.
        -- exact Hlt.
        -- specialize (Hpost q Hq). lia.
      * split; [reflexivity|]. exists pre, (post ++ [x]).
        split; [now rewrite <- app_assoc|]. split; [exact Hpre|].
        intros q Hq. apply in_app_or in Hq as [Hq|[<-|[]]]; auto.
    + subst points. split; [reflexivity|]. exists [], [].
      split; [reflexivity|]. split; intros q [].
Qed.

(** X10.  [findNearestPoint] returns nothing exactly on the empty array, and
    otherwise the first point of the array at the least Manhattan
    distance from the given coordinates. *)
Theorem findNearestPoint_first_closest (points : list EVGridPoint) (hp def : Z) :
  (findNearestPoint points hp def = None <-> points = []) /\
  forall p,
    findNearestPoint points hp def = Some p ->
    exists pre post,
      points = pre ++ p :: post /\
      (forall q, In q pre -> (pointDistance hp def p < pointDistance hp def q)%Z) /\
      (forall q, In q post -> (pointDistance hp def p <= pointDistance hp def q)%Z).
Proof.
  pose proof (nearestState_spec points hp def) as H.
  unfold findNearestPoint. fold (nearestState points hp def).
  destruct (nearestState points hp def) as [[p d]|]; cbn [option_map fst].
  - destruct H as (_ & pre & post & E & Hpre & Hpost). split.
    + split; [discriminate|]. intros ->. destruct pre; discriminate.
    + intros p' [= <-]. eauto.
  - split; [tauto | discriminate].
Qed.

(** No two points of the array share their coordinates. *)
Definition distinctCoordinates (points : list EVGridPoint) : Prop :=
  forall p q, In p points -> In q points ->
              hpEV p = hpEV q -> defEV p = defEV q -> p = q.

Lemma findNearestPoint_exact (points : list EVGridPoint) (b : EVGridPoint) (hp def : Z) :
  distinctCoordinates points -> In b points ->
  hpEV b = hp -> defEV b = def ->
  findNearestPoint points hp def = Some b.
Proof.
  intros Hd Hb Ehp Edef.
  pose proof (nearestState_spec points hp def) as H.
  unfold findNearestPoint. fold (nearestState points hp def).
  destruct (nearestState points hp def) as [[p d]|]; cbn [option_map fst].
  - destruct H as (_ & pre & post & E & Hpre & Hpost).
    assert (Hzero : pointDistance hp def b = 0%Z) by (unfold pointDistance; lia).
    assert (Hp : pointDistance hp def p = 0%Z).
    { assert (Hle : (pointDistance hp def p <= pointDistance hp def b)%Z).
      { rewrite E in Hb. apply in_app_or in Hb as [Hb|[<-|Hb]].
        - specialize (Hpre b Hb). lia.
        - lia.
        - now apply Hpost. }
      unfold pointDistance in *. lia. }
    f_equal. apply Hd.
    + rewrite E. apply in_or_app. right. now left.
    + exact Hb.
    + unfold pointDistance in Hp. lia.
    + unfold pointDistance in Hp. lia.
  - subst points. destruct Hb.
Qed.

(** X11.  On an array without repeated coordinates, the sensitivities computed
    at a point whose right and upper neighbours at distance [step] are in
    the array are the finite differences of the survival towards those
    neighbours, divided by [max(step, 1)]; on the empty array both
    sensitivities are 0. *)
Theorem computeSensitivity_finite_difference
        (points : list EVGridPoint) (base right up : EVGridPoint) (step : Z)
        (baseSurvival rightSurvival upSurvival : Qc) :
  distinctCoordinates points ->
  In base points -> In right points -> In up points ->
  hpEV right = (hpEV base + step)%Z -> defEV right = defEV base ->
  hpEV up = hpEV base -> defEV up = (defEV base + step)%Z ->
  survival base = Some baseSurvival ->
  survival right = Some rightSurvival ->
  survival up = Some upSurvival ->
  computeSensitivity [] (hpEV base) (defEV base) step = mkSensitivity 0 0 /\
  computeSensitivity points (hpEV base) (defEV base) step
  = mkSensitivity ((rightSurvival - baseSurvival) / Num.ofZ (Z.max step 1))
                  ((upSurvival - baseSurvival) / Num.ofZ (Z.max step 1)).
Proof.
  intros Hd Hb Hr Hu Erh Erd Euh Eud Esb Esr Esu.
  split; [reflexivity|].
  unfold computeSensitivity.
  rewrite (@findNearestPoint_exact points base (hpEV base) (defEV base) Hd Hb
             eq_refl eq_refl).
  cbv zeta.
  rewrite (@findNearestPoint_exact points right (hpEV base + step) (defEV base)
             Hd Hr Erh Erd).
  rewrite (@findNearestPoint_exact points up (hpEV base) (defEV base + step)
             Hd Hu Euh Eud).
  unfold survivalOr. rewrite Esb, Esr, Esu. reflexivity.
Qed.

Lemma computeSensitivity_finite_difference_witness :
  let pt := fun hp def s =>
    mkPoint hp def None None (Some defense) 1 1 (Some s) None None None in
  let base := pt 0%Z 0%Z (Q2Qc (1 # 2)) in
  let right := pt 4%Z 0%Z (Q2Qc (3 # 4)) in
  let up := pt 0%Z 4%Z 1 in
  let points := [base; right; up] in
  distinctCoordinates points /\
  computeSensitivity points 0 0 4
  = mkSensitivity ((Q2Qc (3 # 4) - Q2Qc (1 # 2)) / Num.ofZ (Z.max 4 1))
                  ((1 - Q2Qc (1 # 2)) / Num.ofZ (Z.max 4 1)).
Proof.
  intros pt base right up points.
  assert (Hd : distinctCoordinates points).
  { intros p q Hp Hq.
    destruct Hp as [<-|[<-|[<-|[]]]]; destruct Hq as [<-|[<-|[<-|[]]]];
      cbn [hpEV defEV pt base right up]; intros E1 E2;
      first [reflexivity | discriminate]. }
  split; [exact Hd|].
  exact (proj2 (@computeSensitivity_finite_difference points base right up 4%Z
                  (Q2Qc (1 # 2)) (Q2Qc (3 # 4)) 1 Hd
                  (or_introl eq_refl) (or_intror (or_introl eq_refl))
                  (or_intror (or_intror (or_introl eq_refl)))
                  eq_refl eq_refl eq_refl eq_refl eq_refl eq_refl eq_refl)).
Defined.

End EvGridFacts.

(** ** The EV search *)

Module StatsFacts.

Import Stats NumFacts.

Local Open Scope Z_scope.

Lemma roundUpToStep_div (m : Z) : roundUpToStep m = (m + 3) / 4 * 4.
Proof.
  unfold roundUpToStep, Num.ceil. f_equal.
  assert (E : (this (Num.ofZ m / Num.ofZ 4)%Qc == m # 4)%Q).
  { unfold Qcdiv, Qcmult, Qcinv, Num.ofZ, Q2Qc. cbn [this].
    rewrite !Qred_correct. unfold Qeq, Qmult, Qinv, inject_Z. simpl. lia. }
  rewrite E. clear E. unfold Qceiling, Qfloor, Qopp. cbn [Qnum Qden].
  Z.div_mod_to_equations. lia.
Qed.

Lemma roundUpToStep_bounds (m : Z) :
  m <= roundUpToStep m < m + 4 /\ roundUpToStep m mod 4 = 0.
Proof.
  rewrite roundUpToStep_div. split; [Z.div_mod_to_equations; lia|].
  apply Z.mod_mul. lia.
Qed.

Section Search.

Variable calcStat : Z -> Z.
Variable targetStat : Z.

(** What the loop maintains: [minEV] is 252 as long as nothing was found,
    and otherwise the EV just above [high], which reaches the target. *)
Definition searchState (high minEV : Z) : Prop :=
  (high = 252 /\ minEV = 252) \/
  (minEV = high + 1 /\ minEV <= 252 /\ targetStat <= calcStat minEV).

Lemma searchMinEV_found (low high minEV : Z) :
  0 <= low -> high <= 252 -> low <= high + 1 ->
  searchState high minEV ->
  let m := searchMinEV calcStat targetStat low high minEV in
  0 <= m <= 252 /\ (m = 252 \/ targetStat <= calcStat m).
Proof.
  funelim (searchMinEV calcStat targetStat low high minEV);
    intros Hlow Hhigh Hgap Hstate; cbv zeta.
  - assert (Hmid : low <= (low + high) / 2 <= high)
      by (split; [apply Z.div_le_lower_bound | apply Z.div_le_upper_bound]; lia).
    destruct (calcStat ((low + high) / 2) >=? targetStat) eqn:E.
    + apply H; try lia. right. split; [lia|]. split; [lia|].
      replace ((low + high) / 2 - 1 + 1) with ((low + high) / 2) by lia. lia.
    + apply H0; try lia. exact Hstate.
  - destruct Hstate as [[-> ->]|(-> & Hle & Hreach)]; [lia|].
    split; [lia|]. now right.
Qed.

Hypothesis calcStat_monotone :
  forall a b, 0 <= a <= b -> b <= 252 -> calcStat a <= calcStat b.

Lemma searchMinEV_least (low high minEV : Z) :
  0 <= low -> high <= 252 -> low <= high + 1 ->
  searchState high minEV ->
  (forall ev, 0 <= ev < low -> calcStat ev < targetStat) ->
  let m := searchMinEV calcStat targetStat low high minEV in
  (m = 252 /\ forall ev, 0 <= ev <= 252 -> calcStat ev < targetStat) \/
  (targetStat <= calcStat m /\ forall ev, 0 <= ev < m -> calcStat ev < targetStat).
Proof.
  funelim (searchMinEV calcStat targetStat low high minEV);
    intros Hlow Hhigh Hgap Hstate Hbelow; cbv zeta.
  - assert (Hmid : low <= (low + high) / 2 <= high)
      by (split; [apply Z.div_le_lower_bound | apply Z.div_le_upper_bound]; lia).
    destruct (calcStat ((low + high) / 2) >=? targetStat) eqn:E.
    + apply H; try lia; [|exact Hbelow]. right. split; [lia|]. split; [lia|].
      replace ((low + high) / 2 - 1 + 1) with ((low + high) / 2) by lia. lia.
    + apply H0; try lia; [exact Hstate|].
      intros ev Hev.
      assert (calcStat ev <= calcStat ((low + high) / 2))
        by (apply calcStat_monotone; lia).
      lia.
  - destruct Hstate as [[-> ->]|(-> & Hle & Hreach)].
    + left. split; [reflexivity|]. intros ev Hev. apply Hbelow. lia.
    + right. split; [assumption|]. intros ev Hev. apply Hbelow. lia.
Qed.

End Search.

(** X12.  [computeMinEVForStat] always returns a multiple of 4 between 0 and
    252.  When the stat does not decrease as the EV grows, the search
    finds the least EV that reaches the target: the result reaches the
    target and is less than 4 above every EV that reaches it; when no EV
    up to 252 reaches the target the result is 252. *)
Theorem computeMinEVForStat_least_step
        (calcStat : Z -> Z) (targetStat : Z) :
  let result := computeMinEVForStat calcStat targetStat in
  (0 <= result <= 252 /\ result mod 4 = 0) /\
  ((forall a b, 0 <= a <= b -> b <= 252 -> calcStat a <= calcStat b) ->
   ((forall ev, 0 <= ev <= 252 -> calcStat ev < targetStat) -> result = 252) /\
   (forall ev, 0 <= ev <= 252 -> targetStat <= calcStat ev ->
               targetStat <= calcStat result /\ result < ev + 4)).
Proof.
  intros result. unfold result, computeMinEVForStat.
  set (m := searchMinEV calcStat targetStat 0 252 252).
  assert (Hstate : searchState calcStat targetStat 252 252) by (left; auto).
  pose proof (@searchMinEV_found calcStat targetStat 0 252 252
                ltac:(lia) ltac:(lia) ltac:(lia) Hstate) as Hfound.
  cbv zeta in Hfound. fold m in Hfound. destruct Hfound as [Hm _].
  pose proof (roundUpToStep_bounds m) as [Hr Hmod].
  split.
  - split; [|exact Hmod]. split; [lia|].
    rewrite roundUpToStep_div in *.
    assert ((m + 3) / 4 <= 63) by (Z.div_mod_to_equations; lia). lia.
  - intros Hmono.
    pose proof (@searchMinEV_least calcStat targetStat Hmono 0 252 252
                  ltac:(lia) ltac:(lia) ltac:(lia) Hstate
                  ltac:(intros; lia)) as Hleast.
    cbv zeta in Hleast. fold m in Hleast.
    assert (Hr252 : roundUpToStep m <= 252).
    { rewrite roundUpToStep_div.
      assert ((m + 3) / 4 <= 63) by (Z.div_mod_to_equations; lia). lia. }
    split.
    + intros Hnone. destruct Hleast as [[-> _]|[Hreach _]].
      * reflexivity.
      * specialize (Hnone m Hm). lia.
    + intros ev Hev Hreach. destruct Hleast as [[_ Hnone]|[Hm' Hbelow]].
      * specialize (Hnone ev Hev). lia.
      * split.
        -- assert (calcStat m <= calcStat (roundUpToStep m))
             by (apply Hmono; lia).
           lia.
        -- assert (m <= ev).
           { destruct (Z_le_gt_dec m ev); auto.
             specialize (Hbelow ev ltac:(lia)). lia. }
           lia.
Qed.

(** A stat that gains a point every 8 EVs, offset by 2: the least EV for
    110 is 78, reported as 80. *)
Example computeMinEVForStat_rounds_up :
  computeMinEVForStat (fun ev => 100 + (ev + 2) / 8) 110 = 80.
Proof. vm_compute. reflexivity. Qed.

End StatsFacts.

(** ** More on the event processors *)

Module TimelineFacts.

Import Timeline NumFacts TimelineSpec TimelineSamples.

Local Open Scope Qc_scope.

(** *** Arithmetic of the clamps *)

Lemma min_cases (x y : Qc) :
  (x <= y /\ Num.min x y = x) \/ (y < x /\ Num.min x y = y).
Proof.
  unfold Num.min. destruct (Num.leb x y) eqn:E.
  - left. split; [now apply leb_le | reflexivity].
  - right. split; [now apply leb_gt | reflexivity].
Qed.

Lemma max_cases (x y : Qc) :
  (x <= y /\ Num.max x y = y) \/ (y < x /\ Num.max x y = x).
Proof.
  unfold Num.max. destruct (Num.leb x y) eqn:E.
  - left. split; [now apply leb_le | reflexivity].
  - right. split; [now apply leb_gt | reflexivity].
Qed.

Lemma abs_nonneg (x : Qc) : 0 <= Num.abs x.
Proof. apply Qcabs.Qcabs_nonneg. Qed.

(** Case analysis on every [Math.min] and [Math.max] in sight, then
    linear arithmetic. *)
Ltac clamp_lra :=
  repeat match goal with
  | |- context [Num.min ?x ?y] =>
      let H := fresh in let E := fresh in
      destruct (min_cases x y) as [[H E]|[H E]]; rewrite E in *; clear E
  | |- context [Num.max ?x ?y] =>
      let H := fresh in let E := fresh in
      destruct (max_cases x y) as [[H E]|[H E]]; rewrite E in *; clear E
  | H0 : context [Num.min ?x ?y] |- _ =>
      let H := fresh in let E := fresh in
      destruct (min_cases x y) as [[H E]|[H E]]; rewrite E in *; clear E
  | H0 : context [Num.max ?x ?y] |- _ =>
      let H := fresh in let E := fresh in
      destruct (max_cases x y) as [[H E]|[H E]]; rewrite E in *; clear E
  end;
  qc_lra.

Lemma otherSide_neq (side : BattleSide) : otherSide side <> side.
Proof. destruct side; discriminate. Qed.

Lemma hp_setSideHp_same (side : BattleSide) (v : Qc) (b : BranchState) :
  sideGet (hp (setSideHp side v b)) side = v.
Proof. cbn. apply sideGet_sideSet_same. Qed.

Lemma hp_setSideHp_other (side side' : BattleSide) (v : Qc) (b : BranchState) :
  side' <> side -> sideGet (hp (setSideHp side v b)) side' = sideGet (hp b) side'.
Proof. intros H. cbn. now apply sideGet_sideSet_other. Qed.

Lemma currentHP_setSideHp (side : BattleSide) (v : Qc) (b : BranchState) :
  pkCurrentHP (sideGet (pokemon (setSideHp side v b)) side) = Some v.
Proof. cbn. rewrite sideGet_sideSet_same. reflexivity. Qed.

(** *** HP adjustments *)

(** X13.  On a live branch an HP adjustment acts on the side it targets
    (the actor when no target is given) with the amount that its mode
    resolves to.  A damaging adjustment deals that amount clamped between
    0 and the remaining HP: the damage is recorded as the side's last
    damage and subtracted from its HP, which therefore never rises and
    never goes below zero, and the branch is terminated exactly when the
    HP is at most 0 afterwards.  A non-damaging adjustment heals by the
    absolute value of the amount: the HP becomes
    [min(maxHP, hp + |amount|)], and the branch is not terminated.  The
    other side's HP, the maximum HP and the probability are left alone. *)
Theorem processHpAdjustment_bounds (event : HpAdjustmentEvent) (b : BranchState) :
  terminated b = false ->
  let side := orElse (haTarget event) (haActor event) in
  let before := sideGet (hp b) side in
  let amount := resolveAdjustment event (sideGet (maxHP b) side)
                                  (sideGet (lastDamage b) side) in
  exists c,
    processHpAdjustment event [b] = [c] /\
    probability c = probability b /\
    maxHP c = maxHP b /\
    sideGet (hp c) (otherSide side) = sideGet (hp b) (otherSide side) /\
    pkCurrentHP (sideGet (pokemon c) side) = Some (sideGet (hp c) side) /\
    if truthyBool (haIsDamage event) then
      sideGet (lastDamage c) side = Num.max 0 (Num.min amount before) /\
      sideGet (hp c) side = before - Num.max 0 (Num.min amount before) /\
      (terminated c = true <-> sideGet (hp c) side <= 0) /\
      sideGet (hp c) side <= before /\
      (0 <= before -> 0 <= sideGet (hp c) side) /\
      0 <= sideGet (lastDamage c) side
    else
      sideGet (hp c) side
      = Num.min (sideGet (maxHP b) side) (before + Num.abs amount) /\
      sideGet (hp c) side <= sideGet (maxHP b) side /\
      (before <= sideGet (maxHP b) side -> before <= sideGet (hp c) side) /\
      lastDamage c = lastDamage b /\
      terminated c = false.
Proof.
  intros Hlive side before amount.
  unfold processHpAdjustment. cbn [map]. rewrite Hlive. cbv zeta. fold side.
  change (sideGet (hp (cloneBranch b)) side) with before.
  change (sideGet (maxHP (cloneBranch b)) side) with (sideGet (maxHP b) side).
  change (sideGet (lastDamage (cloneBranch b)) side) with (sideGet (lastDamage b) side).
  fold amount. clearbody amount.
  destruct (truthyBool (haIsDamage event)).
  - set (damage := Num.max 0 (Num.min amount before)).
    eexists. split; [reflexivity|].
    assert (Hd : 0 <= damage /\ damage <= Num.max 0 before)
      by (unfold damage; split; clamp_lra).
    destruct (Num.leb (before - damage) 0) eqn:Eleb;
      cbn [probability maxHP hp lastDamage pokemon terminated withTerminated setSideHp
           withPokemon withHp withLastDamage cloneBranch];
      rewrite ?sideGet_sideSet_same;
      rewrite ?sideGet_sideSet_other by apply otherSide_neq;
      (split; [reflexivity|]); (split; [reflexivity|]); (split; [reflexivity|]);
      (split; [reflexivity|]); (split; [reflexivity|]); (split; [reflexivity|]);
      destruct Hd as [Hd1 Hd2];
      (split; [|split; [clamp_lra|split; [intros; clamp_lra | assumption]]]).
    + apply leb_le in Eleb. split; [intros _; exact Eleb | reflexivity].
    + apply leb_gt in Eleb. rewrite Hlive. split; [discriminate|].
      intros H. exfalso. eapply Qclt_not_le; eauto.
  - eexists. split; [reflexivity|].
    pose proof (abs_nonneg amount) as Habs.
    cbn [probability maxHP hp lastDamage pokemon terminated setSideHp
         withPokemon withHp withLastDamage cloneBranch].
    rewrite ?sideGet_sideSet_same.
    rewrite ?sideGet_sideSet_other by apply otherSide_neq.
    split; [reflexivity|]. split; [reflexivity|]. split; [reflexivity|].
    split; [reflexivity|]. split; [reflexivity|].
    split; [clamp_lra|]. split; [intros; clamp_lra|]. split; [reflexivity | exact Hlive].
Qed.

(** *** Healing *)

Lemma computeHealingAmount_fraction (event : HealingEvent) (maxHPv : Qc) :
  heAmount event = healFraction -> 1 <= computeHealingAmount event maxHPv.
Proof.
  intros E. unfold computeHealingAmount. rewrite E. cbv zeta. clamp_lra.
Qed.

(** X14.  A healing event without an actor changes nothing.  On a live branch
    the healed side ends at [min(maxHP, hp + amount)], so never above its
    maximum HP; a fractional heal restores at least 1 HP, so it strictly
    raises any HP below the maximum.  The other side, the maximum HP, the
    probability and the terminated flag are left alone. *)
Theorem processHealingEvent_bounds (event : HealingEvent) :
  (heActor event = None -> forall l, processHealingEvent event l = l) /\
  (forall side b,
      heActor event = Some side -> terminated b = false ->
      let amount := computeHealingAmount event (sideGet (maxHP b) side) in
      exists c,
        processHealingEvent event [b] = [c] /\
        probability c = probability b /\ maxHP c = maxHP b /\
        terminated c = false /\
        sideGet (hp c) (otherSide side) = sideGet (hp b) (otherSide side) /\
        sideGet (hp c) side
        = Num.min (sideGet (maxHP b) side) (sideGet (hp b) side + amount) /\
        sideGet (hp c) side <= sideGet (maxHP b) side /\
        (heAmount event = healFraction ->
         sideGet (hp b) side < sideGet (maxHP b) side ->
         sideGet (hp b) side < sideGet (hp c) side)).
Proof.
  split.
  - intros E l. unfold processHealingEvent. now rewrite E.
  - intros side b E Hlive amount.
    unfold processHealingEvent. rewrite E. cbn [map]. rewrite Hlive. cbv zeta.
    change (sideGet (hp (cloneBranch b)) side) with (sideGet (hp b) side).
    change (sideGet (maxHP (cloneBranch b)) side) with (sideGet (maxHP b) side).
    fold amount.
    eexists. split; [reflexivity|].
    cbn [probability maxHP hp terminated setSideHp withPokemon withHp cloneBranch].
    rewrite ?sideGet_sideSet_same.
    rewrite ?sideGet_sideSet_other by apply otherSide_neq.
    split; [reflexivity|]. split; [reflexivity|]. split; [exact Hlive|].
    split; [reflexivity|]. split; [reflexivity|].
    split; [clamp_lra|].
    intros Ef Hlt.
    pose proof (@computeHealingAmount_fraction event (sideGet (maxHP b) side) Ef) as H1.
    fold amount in H1. clamp_lra.
Qed.

(** *** End-of-turn recovery *)

(** The test of [applyLeftoversRecovery] for one side. *)
Definition leftoversApplies (b : BranchState) (side : BattleSide) : bool :=
  match pkItem (sideGet (pokemon b) side) with
  | Some i => String.eqb i "Leftovers"
  | None => false
  end
  && Num.ltb 0 (sideGet (hp b) side)
  && Num.ltb (sideGet (hp b) side) (sideGet (maxHP b) side).

Definition leftoversAmount (b : BranchState) (side : BattleSide) : Qc :=
  Num.max 1 (floorQ (sideGet (maxHP b) side / Num.ofZ 16)).

Lemma leftoversSide_unfold (side : BattleSide) (b : BranchState) :
  leftoversSide side b
  = if leftoversApplies b side
    then setSideHp side
                   (Num.min (sideGet (maxHP b) side)
                            (sideGet (hp b) side + leftoversAmount b side)) b
    else b.
Proof. reflexivity. Qed.

Lemma leftoversSide_maxHP (side : BattleSide) (b : BranchState) :
  maxHP (leftoversSide side b) = maxHP b.
Proof. rewrite leftoversSide_unfold. destruct (leftoversApplies b side); reflexivity. Qed.

Lemma leftoversSide_terminated (side : BattleSide) (b : BranchState) :
  terminated (leftoversSide side b) = terminated b.
Proof. rewrite leftoversSide_unfold. destruct (leftoversApplies b side); reflexivity. Qed.

Lemma leftoversSide_hp_other (side side' : BattleSide) (b : BranchState) :
  side' <> side ->
  sideGet (hp (leftoversSide side b)) side' = sideGet (hp b) side'.
Proof.
  intros H. rewrite leftoversSide_unfold. destruct (leftoversApplies b side); auto.
  now apply hp_setSideHp_other.
Qed.

Lemma leftoversSide_hp_same (side : BattleSide) (b : BranchState) :
  sideGet (hp (leftoversSide side b)) side
  = if leftoversApplies b side
    then Num.min (sideGet (maxHP b) side)
                 (sideGet (hp b) side + leftoversAmount b side)
    else sideGet (hp b) side.
Proof.
  rewrite leftoversSide_unfold. destruct (leftoversApplies b side); auto.
  apply hp_setSideHp_same.
Qed.

Lemma leftoversSide_item (side side' : BattleSide) (b : BranchState) :
  pkItem (sideGet (pokemon (leftoversSide side b)) side')
  = pkItem (sideGet (pokemon b) side').
Proof.
  rewrite leftoversSide_unfold. destruct (leftoversApplies b side); auto.
  cbn. destruct side, side'; reflexivity.
Qed.

Lemma leftoversApplies_after (side side' : BattleSide) (b : BranchState) :
  side' <> side ->
  leftoversApplies (leftoversSide side b) side' = leftoversApplies b side'.
Proof.
  intros H. unfold leftoversApplies.
  now rewrite leftoversSide_item, leftoversSide_maxHP, leftoversSide_hp_other.
Qed.

Lemma ltb_lt (x y : Qc) : Num.ltb x y = true <-> x < y.
Proof. unfold Num.ltb. rewrite negb_true_iff. apply leb_gt. Qed.

(** X15.  At the end of a turn each side of a live branch that holds Leftovers
    and whose HP lies strictly between 0 and its maximum recovers
    [max(1, floor(maxHP / 16))] HP, capped at the maximum: its HP rises
    strictly and stays within the maximum.  A side that does not hold
    the item, has fainted or is at full HP keeps its HP. *)
Theorem applyLeftoversRecovery_effect (b : BranchState) (side : BattleSide) :
  terminated b = false ->
  exists c,
    applyLeftoversRecovery [b] = [c] /\
    probability c = probability b /\ maxHP c = maxHP b /\ terminated c = false /\
    sideGet (hp c) side
    = (if leftoversApplies b side
       then Num.min (sideGet (maxHP b) side)
                    (sideGet (hp b) side + leftoversAmount b side)
       else sideGet (hp b) side) /\
    (leftoversApplies b side = true ->
     sideGet (hp b) side < sideGet (hp c) side /\
     sideGet (hp c) side <= sideGet (maxHP b) side) /\
    (leftoversApplies b side = true <->
     pkItem (sideGet (pokemon b) side) = Some "Leftovers"%string /\
     0 < sideGet (hp b) side /\ sideGet (hp b) side < sideGet (maxHP b) side).
Proof.
  intros Hlive. unfold applyLeftoversRecovery. cbn [map]. rewrite Hlive.
  eexists. split; [reflexivity|].
  set (clone := cloneBranch b).
  assert (Eapp : forall s, leftoversApplies clone s = leftoversApplies b s)
    by (intros s; unfold leftoversApplies; cbn; destruct s; reflexivity).
  assert (Ehp : sideGet (hp (leftoversSide opponent (leftoversSide player clone))) side
                = if leftoversApplies b side
                  then Num.min (sideGet (maxHP b) side)
                               (sideGet (hp b) side + leftoversAmount b side)
                  else sideGet (hp b) side).
  { destruct side.
    - rewrite leftoversSide_hp_other by discriminate.
      rewrite leftoversSide_hp_same, Eapp. reflexivity.
    - rewrite leftoversSide_hp_same.
      rewrite leftoversApplies_after by discriminate. rewrite Eapp.
      unfold leftoversAmount.
      rewrite leftoversSide_maxHP, leftoversSide_hp_other by discriminate.
      reflexivity. }
  split; [|split; [|split; [|split; [exact Ehp|split]]]].
  - rewrite leftoversSide_unfold. destruct (leftoversApplies _ opponent).
    + cbn [probability setSideHp withPokemon withHp].
      rewrite leftoversSide_unfold. destruct (leftoversApplies _ player); reflexivity.
    + rewrite leftoversSide_unfold. destruct (leftoversApplies _ player); reflexivity.
  - now rewrite !leftoversSide_maxHP.
  - now rewrite !leftoversSide_terminated.
  - intros Ha. rewrite Ehp, Ha.
    unfold leftoversApplies in Ha.
    apply andb_true_iff in Ha as [Ha Hlt]. apply andb_true_iff in Ha as [_ Hpos].
    apply ltb_lt in Hlt. apply ltb_lt in Hpos.
    unfold leftoversAmount. clamp_lra.
  - unfold leftoversApplies. rewrite !andb_true_iff, !ltb_lt.
    destruct (pkItem (sideGet (pokemon b) side)) as [i|].
    + destruct (String.eqb_spec i "Leftovers") as [->|Hne].
      * tauto.
      * split; [intros [[H _] _]; discriminate|]. intros [[= E] _]. congruence.
    + split; [intros [[H _] _]; discriminate | intros [E _]; discriminate].
Qed.

(** *** Switching *)

Lemma switchedHp_bounds (event : SwitchEvent) (maxHPv : Qc) :
  0 <= maxHPv ->
  0 <= switchedHp event maxHPv <= maxHPv.
Proof.
  intros H. unfold switchedHp. destruct (swSetHpPercent event) as [p|].
  - cbv zeta. split; clamp_lra.
  - split; [assumption | apply Qcle_refl].
Qed.

(** X16.  A switch without an actor changes nothing.  On a live branch the new
    combatant enters with the maximum HP of the one it replaces and, when
    that maximum is not negative, with an HP between 0 and it: all of it
    unless a percentage is given.  It enters without status, boosts or
    terastallisation and with no damage taken; it keeps the level,
    nature, IVs and EVs of the combatant it replaces, the [pokemon]
    payload of the event being ignored.  The other side is left alone,
    and the branch is not terminated even when the combatant enters at
    0 HP. *)
Theorem processSwitchEvent_effect (event : SwitchEvent) :
  (swActor event = None -> forall l, processSwitchEvent event l = l) /\
  (forall side b,
      swActor event = Some side -> terminated b = false ->
      exists c,
        processSwitchEvent event [b] = [c] /\
        probability c = probability b /\ maxHP c = maxHP b /\
        terminated c = false /\
        sideGet (hp c) (otherSide side) = sideGet (hp b) (otherSide side) /\
        sideGet (hp c) side = switchedHp event (sideGet (maxHP b) side) /\
        (swSetHpPercent event = None ->
         sideGet (hp c) side = sideGet (maxHP b) side) /\
        (0 <= sideGet (maxHP b) side ->
         0 <= sideGet (hp c) side <= sideGet (maxHP b) side) /\
        sideGet (lastDamage c) side = 0 /\
        sideGet (teraMode c) side = teraNone /\
        sideGet (teraType c) side = None /\
        let incoming := sideGet (pokemon c) side in
        let outgoing := sideGet (pokemon b) side in
        pkStatus incoming = None /\ pkBoosts incoming = None /\
        pkTeraMode incoming = Some teraNone /\ pkTeraType incoming = None /\
        pkCurrentHP incoming = Some (sideGet (hp c) side) /\
        pkMaxHP incoming = Some (sideGet (maxHP b) side) /\
        pkSpecies incoming = orElse (swTargetSpecies event) (pkSpecies outgoing) /\
        pkLevel incoming = pkLevel outgoing /\
        pkNature incoming = pkNature outgoing /\
        pkIvs incoming = pkIvs outgoing /\
        pkEvs incoming = pkEvs outgoing).
Proof.
  split.
  - intros E l. unfold processSwitchEvent. now rewrite E.
  - intros side b E Hlive.
    unfold processSwitchEvent. rewrite E. cbn [map]. rewrite Hlive. cbv zeta.
    change (sideGet (maxHP (cloneBranch b)) side) with (sideGet (maxHP b) side).
    eexists. split; [reflexivity|].
    cbn [probability maxHP hp terminated lastDamage teraMode teraType pokemon
         withLastDamage withTeraType withTeraMode withPokemon withHp cloneBranch].
    rewrite ?sideGet_sideSet_same.
    rewrite ?sideGet_sideSet_other by apply otherSide_neq.
    split; [reflexivity|]. split; [reflexivity|]. split; [exact Hlive|].
    split; [reflexivity|]. split; [reflexivity|].
    split; [intros En; unfold switchedHp; now rewrite En|].
    split; [apply switchedHp_bounds|].
    split; [reflexivity|]. split; [reflexivity|]. split; [reflexivity|].
    destruct side; cbn; repeat split; reflexivity.
Qed.

(** *** Stat stages *)

Inductive StatId := statHp | statAtk | statDef | statSpa | statSpd | statSpe.

Definition statGet (A : Type) (t : StatsTable A) (id : StatId) : A :=
  match id with
  | statHp => stHp t | statAtk => stAtk t | statDef => stDef t
  | statSpa => stSpa t | statSpd => stSpd t | statSpe => stSpe t
  end.

Lemma clampStage_range (v : Z) : (-6 <= clampStage v <= 6)%Z.
Proof. unfold clampStage. lia. Qed.

(** X17.  A stat-change event without an actor changes nothing.  On a live
    branch every stage for which the event gives a delta becomes the old
    stage (0 when absent) plus the delta, clamped to -6..6, and is
    removed from the table when that is 0; the stages for which it gives
    no delta are kept.  HP, probability and the terminated flag are left
    alone. *)
Theorem processStatChange_stages (event : StatChangeEvent) :
  (scActor event = None -> forall l, processStatChange event l = l) /\
  (forall side b,
      scActor event = Some side -> terminated b = false ->
      exists c boosts,
        processStatChange event [b] = [c] /\
        probability c = probability b /\ hp c = hp b /\ maxHP c = maxHP b /\
        terminated c = false /\
        pkBoosts (sideGet (pokemon c) side) = Some boosts /\
        forall id,
          let old := statGet (orElse (pkBoosts (sideGet (pokemon b) side)) noBoosts) id in
          match statGet (scStages event) id with
          | None => statGet boosts id = old
          | Some delta =>
              let next := clampStage (orElse old 0%Z + delta) in
              (-6 <= next <= 6)%Z /\
              statGet boosts id = (if (next =? 0)%Z then None else Some next) /\
              statGet boosts id <> Some 0%Z
          end).
Proof.
  split.
  - intros E l. unfold processStatChange. now rewrite E.
  - intros side b E Hlive.
    unfold processStatChange. rewrite E. cbn [map]. rewrite Hlive. cbv zeta.
    eexists. eexists. split; [reflexivity|].
    cbn [probability maxHP hp terminated pokemon withPokemon cloneBranch].
    rewrite ?sideGet_sideSet_same.
    split; [reflexivity|]. split; [reflexivity|]. split; [reflexivity|].
    split; [exact Hlive|]. split; [reflexivity|].
    intros id.
    assert (Eold : orElse (pkBoosts (sideGet
                     (mkSides (clonePokemonState (onPlayer (pokemon b)))
                              (clonePokemonState (onOpponent (pokemon b)))) side))
                          noBoosts
                   = orElse (pkBoosts (sideGet (pokemon b) side)) noBoosts).
    { destruct side; cbn; destruct (pkBoosts _); reflexivity. }
    rewrite Eold.
    set (olds := orElse (pkBoosts (sideGet (pokemon b) side)) noBoosts).
    assert (Eget : statGet (statsMap2 updateBoost olds (scStages event)) id
                   = updateBoost (statGet olds id) (statGet (scStages event) id))
      by (destruct id; reflexivity).
    rewrite Eget. unfold updateBoost.
    destruct (statGet (scStages event) id) as [delta|]; [|reflexivity].
    cbv zeta. split; [apply clampStage_range|]. split; [reflexivity|].
    destruct (Z.eqb_spec (clampStage (orElse (statGet olds id) 0%Z + delta)) 0);
      congruence.
Qed.

(** *** Samples *)

Definition poisonTick : HpAdjustmentEvent :=
  mkHpAdjustment (sampleMeta "p1") opponent None (Num.ofZ 12) (Some true)
                 (Some percentMax) None None.

Lemma processHpAdjustment_bounds_witness :
  terminated healthyBranch = false /\
  exists c,
    processHpAdjustment poisonTick [healthyBranch] = [c] /\
    probability c = probability healthyBranch.
Proof.
  assert (H : terminated healthyBranch = false) by reflexivity.
  split; [exact H|].
  destruct (@processHpAdjustment_bounds poisonTick healthyBranch H)
    as (c & E & Hp & _).
  exists c. split; [exact E | exact Hp].
Defined.

(** An adjustment by 7/10 of a maximum HP of 90: the machine's product
    of 90 and the binary64 value nearest to 7/10 is just below 63, so 62
    HP are taken. *)
Definition seventyPercent : HpAdjustmentEvent :=
  mkHpAdjustment (sampleMeta "p2") opponent None 0 (Some true)
                 (Some fractionMax) (Some (Num.ofZ 7)) (Some (Num.ofZ 10)).

(** A heal by the fraction 0.7 of a maximum HP of 90. *)
Definition healSeventyPercent : HealingEvent :=
  mkHealing (sampleMeta "h1") (Some opponent) healFraction (Some (Q2Qc (7 # 10)))
            None None.

Example seven_tenths_of_ninety :
  resolveAdjustment seventyPercent (Num.ofZ 90) 0 = Num.ofZ 62 /\
  computeHealingAmount healSeventyPercent (Num.ofZ 90) = Num.ofZ 62 /\
  option_map this
    (Num.ofDouble (PrimFloat.mul (Doubles.ofNat 90)
                                 (PrimFloat.div (Doubles.ofNat 7) (Doubles.ofNat 10))))
  = Some (this (Num.mulDouble (Num.ofZ 90) (Q2Qc (7 # 10)))).
Proof. repeat split; vm_compute; reflexivity. Qed.

Example poison_tick_on_full_hp :
  map (fun c => (this (sideGet (hp c) opponent), this (sideGet (lastDamage c) opponent)))
      (processHpAdjustment poisonTick [healthyBranch])
  = [((88 # 1)%Q, (12 # 1)%Q)].
Proof. reflexivity. Qed.

Lemma applyLeftoversRecovery_effect_witness :
  terminated healthyBranch = false /\
  exists c,
    applyLeftoversRecovery [healthyBranch] = [c] /\
    maxHP c = maxHP healthyBranch.
Proof.
  assert (H : terminated healthyBranch = false) by reflexivity.
  split; [exact H|].
  destruct (@applyLeftoversRecovery_effect healthyBranch player H)
    as (c & E & _ & Hm & _).
  exists c. split; [exact E | exact Hm].
Defined.

End TimelineFacts.

(** ** Merging, distributions and action order *)

Module MergeFacts.

Import Timeline NumFacts SortFacts TimelineSpec TimelineSamples.

Local Open Scope Qc_scope.

(** *** [mergeBranches] *)

Definition sameKey (k : BranchKey) (b : BranchState) : bool :=
  if BranchKey_eq_dec (buildBranchKey b) k then true else false.

(** The mass of the branches of [l] whose key is [k]. *)
Definition massOf (k : BranchKey) (l : list BranchState) : Qc :=
  mass (filter (sameKey k) l).

Definition bump (key : BranchKey) (branch : BranchState)
           (entry : BranchKey * BranchState) : BranchKey * BranchState :=
  if BranchKey_eq_dec (fst entry) key
  then (fst entry,
        withProbability (probability (snd entry) + probability branch) (snd entry))
  else entry.

Lemma mergeInto_absent key branch (m : list (BranchKey * BranchState)) :
  ~ In key (map fst m) -> mergeInto key branch m = m ++ [(key, branch)].
Proof.
  induction m as [|[k e] m IH]; simpl; intros Hn; [reflexivity|].
  destruct (BranchKey_eq_dec k key) as [->|Hne]; [tauto|].
  rewrite IH by tauto. reflexivity.
Qed.

Lemma mergeInto_present key branch (m : list (BranchKey * BranchState)) :
  NoDup (map fst m) -> In key (map fst m) ->
  mergeInto key branch m = map (bump key branch) m.
Proof.
  induction m as [|[k e] m IH]; simpl; intros Hnd Hin; [destruct Hin|].
  inversion Hnd as [|? ? Hk Hnd']; subst.
  unfold bump at 1. cbn [fst snd].
  destruct (BranchKey_eq_dec k key) as [->|Hne].
  - f_equal. rewrite <- (map_id m) at 1. apply map_ext_in.
    intros [k' e'] He. unfold bump. cbn [fst].
    destruct (BranchKey_eq_dec k' key) as [->|]; [|reflexivity].
    exfalso. apply Hk. apply in_map_iff. exists (key, e'). auto.
  - f_equal. apply IH; [assumption|]. destruct Hin; [congruence | assumption].
Qed.

Lemma map_fst_bump key branch (m : list (BranchKey * BranchState)) :
  map fst (map (bump key branch) m) = map fst m.
Proof.
  rewrite map_map. apply map_ext. intros [k e]. unfold bump. cbn [fst].
  destruct (BranchKey_eq_dec k key); reflexivity.
Qed.

Lemma buildBranchKey_withProbability (p : Qc) (b : BranchState) :
  buildBranchKey (withProbability p b) = buildBranchKey b.
Proof. reflexivity. Qed.

Definition mergeFold (l : list BranchState) : list (BranchKey * BranchState) :=
  fold_left (fun merged branch => mergeInto (buildBranchKey branch) branch merged) l [].

Lemma mergeFold_snoc (l : list BranchState) (b : BranchState) :
  mergeFold (l ++ [b]) = mergeInto (buildBranchKey b) b (mergeFold l).
Proof. unfold mergeFold. now rewrite fold_left_app. Qed.

Lemma massOf_snoc (k : BranchKey) (l : list BranchState) (b : BranchState) :
  massOf k (l ++ [b])
  = massOf k l + (if sameKey k b then probability b else 0).
Proof.
  unfold massOf. rewrite filter_app, mass_app. f_equal. cbn [filter].
  destruct (sameKey k b); cbn [mass fold_right]; ring.
Qed.

Record Merged (l : list BranchState) (m : list (BranchKey * BranchState)) : Prop := {
  merged_nodup : NoDup (map fst m);
  merged_keys : forall k, In k (map fst m) <-> In k (map buildBranchKey l);
  merged_entries : forall k c,
      In (k, c) m -> buildBranchKey c = k /\ probability c = massOf k l;
  merged_origin : forall k c,
      In (k, c) m -> exists b, In b l /\ c = withProbability (probability c) b
}.

Lemma withProbability_same (b : BranchState) : withProbability (probability b) b = b.
Proof. destruct b; reflexivity. Qed.

Lemma mergeFold_Merged (l : list BranchState) : Merged l (mergeFold l).
Proof.
  induction l as [|b l IH] using rev_ind.
  - constructor; simpl; [constructor | tauto | tauto | tauto].
  - destruct IH as [Hnd Hkeys Hentries Horigin]. rewrite mergeFold_snoc.
    set (key := buildBranchKey b).
    destruct (in_dec BranchKey_eq_dec key (map fst (mergeFold l))) as [Hin|Hout].
    + rewrite (@mergeInto_present key b _ Hnd Hin). constructor.
      * now rewrite map_fst_bump.
      * intros k. rewrite map_fst_bump, Hkeys, map_app, in_app_iff. cbn [map In].
        fold key. split; [tauto|]. intros [H|[<-|[]]]; [assumption|].
        now apply Hkeys.
      * intros k c Hc. apply in_map_iff in Hc as ([k0 c0] & E & H0).
        destruct (Hentries k0 c0 H0) as [Ek Ep].
        unfold bump in E. cbn [fst snd] in E. rewrite massOf_snoc.
        unfold sameKey. fold key.
        destruct (BranchKey_eq_dec k0 key) as [E0|Hne]; injection E as <- <-.
        -- split; [exact Ek|]. cbn [probability withProbability]. rewrite Ep.
           destruct (BranchKey_eq_dec key k0); [reflexivity | congruence].
        -- split; [exact Ek|]. rewrite Ep.
           destruct (BranchKey_eq_dec key k0); [congruence | ring].
      * intros k c Hc. apply in_map_iff in Hc as ([k0 c0] & E & H0).
        destruct (Horigin k0 c0 H0) as (b0 & Hb0 & Ec0).
        exists b0. split; [apply in_or_app; now left|].
        unfold bump in E. cbn [fst snd] in E.
        destruct (BranchKey_eq_dec k0 key); injection E as <- <-.
        -- rewrite Ec0. reflexivity.
        -- exact Ec0.
    + rewrite (@mergeInto_absent key b _ Hout). constructor.
      * rewrite map_app. cbn [map fst]. apply NoDup_app; [assumption | | ].
        -- constructor; [intros [] | constructor].
        -- intros x Hx [<-|[]]. contradiction.
      * intros k. rewrite !map_app, !in_app_iff, Hkeys. cbn [map fst In]. tauto.
      * intros k c Hc. apply in_app_or in Hc as [Hc|[[= <- <-]|[]]].
        -- destruct (Hentries k c Hc) as [Ek Ep]. split; [exact Ek|].
           rewrite massOf_snoc, Ep. unfold sameKey. fold key.
           destruct (BranchKey_eq_dec key k) as [E|]; [|ring].
           exfalso. apply Hout. rewrite E. apply in_map_iff. exists (k, c). auto.
        -- split; [reflexivity|]. rewrite massOf_snoc. unfold sameKey. fold key.
           destruct (BranchKey_eq_dec key key); [|congruence].
           assert (E0 : massOf key l = 0).
           { unfold massOf. rewrite (@OffenseSpec.filter_none _ (sameKey key) l).
             - reflexivity.
             - intros x Hx. unfold sameKey.
               destruct (BranchKey_eq_dec (buildBranchKey x) key) as [E|]; auto.
               exfalso. apply Hout, Hkeys. rewrite <- E. now apply in_map. }
           rewrite E0. ring.
      * intros k c Hc. apply in_app_or in Hc as [Hc|[[= <- <-]|[]]].
        -- destruct (Horigin k c Hc) as (b0 & Hb0 & Ec0).
           exists b0. split; [apply in_or_app; now left | exact Ec0].
        -- exists b. split; [apply in_or_app; right; now left|].
           symmetry. apply withProbability_same.
Qed.

Lemma mergeFold_distinct (l : list BranchState) :
  NoDup (map buildBranchKey l) ->
  mergeFold l = map (fun b => (buildBranchKey b, b)) l.
Proof.
  induction l as [|b l IH] using rev_ind; intros Hnd; [reflexivity|].
  rewrite map_app in Hnd. apply NoDup_app_remove_r in Hnd as Hl.
  rewrite mergeFold_snoc, IH by exact Hl.
  rewrite mergeInto_absent.
  - now rewrite map_app.
  - rewrite map_map. cbn [fst]. intros Hin.
    apply NoDup_remove_2 in Hnd. rewrite app_nil_r in Hnd. exact (Hnd Hin).
Qed.

Lemma map_snd_keyed (l : list BranchState) :
  map snd (map (fun b => (buildBranchKey b, b)) l) = l.
Proof. rewrite map_map. cbn [snd]. apply map_id. Qed.

(** X18.  [mergeBranches] leaves exactly one branch per branch key: the keys of
    the result are pairwise distinct and are those of the input, each
    merged branch carries the summed probability of the input branches
    that share its key, and merging once more changes nothing. *)
Theorem mergeBranches_groups_by_key (l : list BranchState) :
  let merged := mergeBranches l in
  NoDup (map buildBranchKey merged) /\
  (forall k, In k (map buildBranchKey merged) <-> In k (map buildBranchKey l)) /\
  Forall (fun c => probability c = massOf (buildBranchKey c) l) merged /\
  mergeBranches merged = merged.
Proof.
  intros merged. unfold merged, mergeBranches. fold (mergeFold l).
  destruct (mergeFold_Merged l) as [Hnd Hkeys Hentries _].
  assert (Ekeys : map buildBranchKey (map snd (mergeFold l)) = map fst (mergeFold l)).
  { rewrite map_map. apply map_ext_in. intros [k c] Hc. cbn [fst snd].
    now destruct (Hentries k c Hc). }
  split; [now rewrite Ekeys|]. split; [now rewrite Ekeys|]. split.
  - apply Forall_forall. intros c Hc. apply in_map_iff in Hc as ([k c'] & <- & Hc).
    cbn [snd]. destruct (Hentries k c' Hc) as [-> Ep]. exact Ep.
  - fold (mergeFold (map snd (mergeFold l))).
    rewrite mergeFold_distinct by now rewrite Ekeys.
    apply map_snd_keyed.
Qed.

(** Two rolls that leave the same state are merged into one branch. *)
Example mergeBranches_sums_equal_states :
  map (fun c => this (probability c))
      (mergeBranches [withProbability (Q2Qc (1 # 4)) healthyBranch;
                      withProbability (Q2Qc (1 # 2)) terminatedBranch;
                      withProbability (Q2Qc (1 # 4)) healthyBranch])
  = [(1 # 2)%Q; (1 # 2)%Q].
Proof. vm_compute. reflexivity. Qed.

(** *** [toDistribution] *)

Section Distribution.

Variable side : BattleSide.























End Distribution.

Example toDistribution_of_two_branches :
  map (fun e => (distHp e, this (distProbability e)))
      (toDistribution [withProbability (Q2Qc (1 # 4)) healthyBranch;
                       withProbability (Q2Qc (3 # 4)) faintedActorBranch] player)
  = [(0%Z, (3 # 4)%Q); (100%Z, (1 # 4)%Q)].
Proof. vm_compute. reflexivity. Qed.

(** *** [orderActions] *)

Lemma filter_three_way (A : Type) (f g : A -> bool) (l : list A) :
  (forall x, f x = true -> g x = false) ->
  Permutation (filter f l ++ filter g l
               ++ filter (fun x => negb (f x) && negb (g x)) l) l.
Proof.
  intros Hfg. induction l as [|x l IH]; simpl; [constructor|].
  destruct (f x) eqn:Ef.
  - rewrite (Hfg x Ef). simpl. now apply perm_skip.
  - destruct (g x) eqn:Eg; simpl.
    + apply Permutation_sym, Permutation_cons_app, Permutation_sym, IH.
    + rewrite app_assoc.
      apply Permutation_sym, Permutation_cons_app, Permutation_sym.
      rewrite <- app_assoc. exact IH.
Qed.

Lemma sideEqb_eq (a b : BattleSide) : sideEqb a b = true <-> a = b.
Proof. destruct a, b; simpl; split; congruence. Qed.

(** X20.  [orderActions] only reorders: its result is a permutation of the
    actions of the turn.  In doubles the actions keep their order; in
    singles the actions of the side that moves first come first, followed
    by those of the other side, each group in its original order. *)
Theorem orderActions_reorders (turn : TimelineTurn) (options : SimulationOptions) :
  let actions := orElse (turnActions turn) [] in
  Permutation (orderActions turn options) actions /\
  (battleStyle options = Some doubles -> orderActions turn options = actions) /\
  (battleStyle options <> Some doubles ->
   forall first, turnOrder turn = Some first ->
     orderActions turn options
     = filter (fun a => sideEqb (actionActor a) first) actions
       ++ filter (fun a => sideEqb (actionActor a) (otherSide first)) actions).
Proof.
  intros actions. unfold orderActions. fold actions.
  split; [|split].
  - destruct (battleStyle options) as [[|]|]; try apply Permutation_refl;
      apply filter_three_way; intros x Hx;
      destruct (turnOrder turn) as [[|]|]; try discriminate;
      destruct (actionActor x); simpl in *; congruence.
  - intros ->. reflexivity.
  - intros Hstyle first Efirst. rewrite Efirst.
    assert (Enone : filter (fun a => negb (sideEqb (actionActor a) first)
                                    && negb (sideEqb (actionActor a)
                                               match first with
                                               | player => opponent
                                               | opponent => player
                                               end)) actions = []).
    { apply OffenseSpec.filter_none. intros x _.
      destruct first, (actionActor x); reflexivity. }
    destruct (battleStyle options) as [[|]|]; try congruence;
      rewrite Enone, app_nil_r; destruct first; reflexivity.
Qed.

End MergeFacts.

(** ** Invariants of a simulation run *)

Module SimulationFacts.

Import Timeline NumFacts SortFacts TimelineSpec TimelineFacts MergeFacts TimelineSamples.

Local Open Scope Qc_scope.

(** *** Bookkeeping kept by every branch *)

(** The combatant records repeat the HP and maximum HP of the branch. *)
Definition mirrored (b : BranchState) : Prop :=
  forall side,
    pkCurrentHP (sideGet (pokemon b) side) = Some (sideGet (hp b) side) /\
    pkMaxHP (sideGet (pokemon b) side) = Some (sideGet (maxHP b) side).

Definition wellFormed (maxHPs : PerSide Qc) (b : BranchState) : Prop :=
  0 <= probability b /\ maxHP b = maxHPs /\ mirrored b.

Lemma mass_nonneg (l : list BranchState) :
  (forall x, In x l -> 0 <= probability x) -> 0 <= mass l.
Proof.
  induction l as [|x l IH]; intros H; cbn [mass fold_right]; [discriminate|].
  assert (0 <= probability x) by (apply H; now left).
  assert (0 <= mass l) by (apply IH; intros y Hy; apply H; now right).
  change (0 <= probability x + mass l). clear H IH.
  generalize dependent (mass l). generalize dependent (probability x).
  intros. qc_lra.
Qed.

Section WellFormed.

Variable maxHPs : PerSide Qc.

Let WF := wellFormed maxHPs.

Lemma wellFormed_withProbability (p : Qc) (b : BranchState) :
  0 <= p -> WF b -> WF (withProbability p b).
Proof. intros Hp (_ & Hm & Hr). split; [exact Hp|]. split; [exact Hm | exact Hr]. Qed.

Lemma wellFormed_withTerminated (v : bool) (b : BranchState) :
  WF b -> WF (withTerminated v b).
Proof. intros H. exact H. Qed.

Lemma wellFormed_withField (f : FieldState) (b : BranchState) :
  WF b -> WF (withField f b).
Proof. intros H. exact H. Qed.

Lemma wellFormed_withLastDamage (v : PerSide Qc) (b : BranchState) :
  WF b -> WF (withLastDamage v b).
Proof. intros H. exact H. Qed.

Lemma wellFormed_withStellarUsage (v : PerSide (list string)) (b : BranchState) :
  WF b -> WF (withStellarUsage v b).
Proof. intros H. exact H. Qed.

Lemma wellFormed_cloneBranch (b : BranchState) : WF b -> WF (cloneBranch b).
Proof.
  intros (Hp & Hm & Hr). split; [exact Hp|]. split; [exact Hm|].
  intros side. destruct (Hr side) as [H1 H2]. destruct side; cbn in *; auto.
Qed.

Lemma wellFormed_setSideHp (side : BattleSide) (v : Qc) (b : BranchState) :
  WF b -> WF (setSideHp side v b).
Proof.
  intros (Hp & Hm & Hr). split; [exact Hp|]. split; [exact Hm|].
  intros side'. destruct (Hr side') as [H1 H2].
  destruct side, side'; cbn in *; auto.
Qed.

(** Rewriting the combatant of one side without touching its HP
    fields. *)
Lemma wellFormed_withPokemon (side : BattleSide) (p : PokemonState) (b : BranchState) :
  pkCurrentHP p = pkCurrentHP (sideGet (pokemon b) side) ->
  pkMaxHP p = pkMaxHP (sideGet (pokemon b) side) ->
  WF b -> WF (withPokemon (sideSet (pokemon b) side p) b).
Proof.
  intros E1 E2 (Hp & Hm & Hr). split; [exact Hp|]. split; [exact Hm|].
  intros side'. destruct (Hr side') as [H1 H2].
  destruct side, side'; cbn in *; auto; split; congruence.
Qed.

Lemma wellFormed_withTera (side : BattleSide) (mode : TeraMode) (type : option string)
      (b : BranchState) :
  WF b ->
  WF (withPokemon
        (sideSet (pokemon b) side (pkWithTera (Some mode) type (sideGet (pokemon b) side)))
        (withTeraType (sideSet (teraType b) side type)
           (withTeraMode (sideSet (teraMode b) side mode) b))).
Proof.
  intros (Hp & Hm & Hr). split; [exact Hp|]. split; [exact Hm|].
  intros side'. destruct (Hr side') as [H1 H2].
  destruct side, side'; cbn in *; auto.
Qed.

Lemma Forall_guarded (f : BranchState -> BranchState) (l : list BranchState) :
  (forall b, WF b -> WF (f b)) ->
  Forall WF l -> Forall WF (map (fun x => if terminated x then x else f x) l).
Proof.
  intros Hf Hl. apply Forall_map. eapply Forall_impl; [|exact Hl].
  intros b Hb. destruct (terminated b); auto.
Qed.

Lemma processStatChange_wellFormed event l :
  Forall WF l -> Forall WF (processStatChange event l).
Proof.
  unfold processStatChange. destruct (scActor event) as [side|]; [|auto].
  apply Forall_guarded. intros b Hb. cbv zeta.
  apply wellFormed_withPokemon; [reflexivity | reflexivity |].
  now apply wellFormed_cloneBranch.
Qed.

Lemma processHpAdjustment_wellFormed event l :
  Forall WF l -> Forall WF (processHpAdjustment event l).
Proof.
  unfold processHpAdjustment. apply Forall_guarded. intros b Hb. cbv zeta.
  destruct (truthyBool (haIsDamage event)).
  - destruct (Num.leb _ 0); [apply wellFormed_withTerminated|];
      apply wellFormed_setSideHp, wellFormed_withLastDamage;
      now apply wellFormed_cloneBranch.
  - now apply wellFormed_setSideHp, wellFormed_cloneBranch.
Qed.

Lemma processHealingEvent_wellFormed event l :
  Forall WF l -> Forall WF (processHealingEvent event l).
Proof.
  unfold processHealingEvent. destruct (heActor event) as [side|]; [|auto].
  apply Forall_guarded. intros b Hb. cbv zeta.
  now apply wellFormed_setSideHp, wellFormed_cloneBranch.
Qed.

Lemma processStatusEvent_wellFormed event l :
  Forall WF l -> Forall WF (processStatusEvent event l).
Proof.
  unfold processStatusEvent. destruct (suActor event) as [side|]; [|auto].
  intros Hl. apply Forall_map. eapply Forall_impl; [|exact Hl].
  intros b Hb. cbv zeta.
  apply wellFormed_withPokemon; [reflexivity | reflexivity |].
  now apply wellFormed_cloneBranch.
Qed.

Lemma processFieldToggle_wellFormed event l :
  Forall WF l -> Forall WF (processFieldToggle event l).
Proof.
  unfold processFieldToggle.
  intros Hl. apply Forall_map. eapply Forall_impl; [|exact Hl].
  intros b Hb. cbv zeta. now apply wellFormed_withField, wellFormed_cloneBranch.
Qed.

Lemma processSwitchEvent_wellFormed event l :
  Forall WF l -> Forall WF (processSwitchEvent event l).
Proof.
  unfold processSwitchEvent. destruct (swActor event) as [side|]; [|auto].
  apply Forall_guarded. intros b Hb. cbv zeta.
  apply wellFormed_cloneBranch in Hb. destruct Hb as (Hp & Hm & Hr).
  split; [exact Hp|]. split; [exact Hm|].
  intros side'. destruct (Hr side') as [H1 H2].
  destruct side, side'; cbn in *; auto.
Qed.

Lemma leftoversSide_wellFormed side b : WF b -> WF (leftoversSide side b).
Proof.
  intros Hb. rewrite leftoversSide_unfold. destruct (leftoversApplies b side); auto.
  now apply wellFormed_setSideHp.
Qed.

Lemma applyLeftoversRecovery_wellFormed l :
  Forall WF l -> Forall WF (applyLeftoversRecovery l).
Proof.
  unfold applyLeftoversRecovery. apply Forall_guarded. intros b Hb.
  now apply leftoversSide_wellFormed, leftoversSide_wellFormed, wellFormed_cloneBranch.
Qed.

Lemma mergeBranches_wellFormed l : Forall WF l -> Forall WF (mergeBranches l).
Proof.
  intros Hl. rewrite Forall_forall in Hl. apply Forall_forall. intros c Hc.
  unfold mergeBranches in Hc. fold (mergeFold l) in Hc.
  apply in_map_iff in Hc as ([k c'] & <- & Hc). cbn [snd].
  destruct (mergeFold_Merged l) as [_ _ Hentries Horigin].
  destruct (Horigin k c' Hc) as (b & Hb & Ec).
  destruct (Hentries k c' Hc) as [_ Ep].
  rewrite Ec. apply wellFormed_withProbability; [|now apply Hl].
  rewrite Ep. unfold massOf.
  apply mass_nonneg. intros x Hx. apply filter_In in Hx as [Hx _]. now apply Hl.
Qed.

Ltac wf_step :=
  match goal with
  | |- _ (withTerminated _ _) => apply wellFormed_withTerminated
  | |- _ (withStellarUsage _ _) => apply wellFormed_withStellarUsage
  | |- _ (withPokemon _ (withTeraType _ _)) => apply wellFormed_withTera
  | |- _ (setSideHp _ _ _) => apply wellFormed_setSideHp
  | |- _ (withLastDamage _ _) => apply wellFormed_withLastDamage
  | |- _ (withField _ _) => apply wellFormed_withField
  | |- _ (cloneBranch _) => apply wellFormed_cloneBranch
  end.

Lemma rollBranch_wellFormed event execution target branch attacker move type p roll :
  WF branch -> 0 <= p ->
  WF (fst (rollBranch event execution target branch attacker move type p roll)).
Proof.
  intros Hb Hp. unfold rollBranch, markTerminated. cbv zeta. cbn [fst].
  repeat match goal with
         | |- context [if ?c then _ else _] => destruct c
         | |- context [match ?x with _ => _ end] => destruct x
         end;
    repeat wf_step;
    (apply wellFormed_withProbability; [exact Hp|]);
    now apply wellFormed_cloneBranch.
Qed.

Section Simulator.

Variable serializeKey : DamageCacheKey -> string.
Variable computeDamage :
  BattleSide -> PokemonState -> PokemonState -> MoveConfig -> FieldState ->
  DamageComputation.
Variable dexMoveType : string -> option string.

Lemma attackStep_wellFormed event execution acc b :
  Forall WF (newBranches acc) -> WF b ->
  Forall WF (newBranches (attackStep serializeKey computeDamage dexMoveType
                                     event execution acc b)).
Proof.
  intros Hacc Hb. unfold attackStep. cbv zeta.
  destruct (terminated b).
  { cbn [newBranches]. apply Forall_app. auto. }
  destruct (_ || _).
  { cbn [newBranches]. apply Forall_app. split; [assumption|].
    constructor; [exact Hb | constructor]. }
  destruct (damageFor _ _ _ _ _ _ _) as [[[computation moveForCalc] attacker] cache'].
  cbn [newBranches]. apply Forall_app. split; [assumption|].
  rewrite map_map. apply Forall_map, Forall_forall. intros roll _.
  apply rollBranch_wellFormed; [exact Hb|].
  destruct Hb as (Hp & _).
  destruct (rolls computation) as [|r rs].
  - unfold Qcdiv. replace (/ Num.ofNat (length (@nil DamageRollOutcome))) with 0
      by (apply Qc_is_canon; reflexivity).
    replace (probability b * 0) with 0 by ring. discriminate.
  - apply div_nonneg; [exact Hp|].
    unfold Num.ofNat. rewrite <- ofZ_0. apply ofZ_lt. simpl length. lia.
Qed.

Lemma processAttack_wellFormed event l execution cache :
  Forall WF l ->
  Forall WF (branches (fst (processAttack serializeKey computeDamage dexMoveType
                                          event l execution cache))).
Proof.
  intros Hl. unfold processAttack. cbv zeta. cbn [fst branches].
  assert (H : forall acc, Forall WF (newBranches acc) ->
              Forall WF
                (newBranches (fold_left (attackStep serializeKey computeDamage
                                                    dexMoveType event execution) l acc))).
  { induction Hl as [|b l Hb _ IH]; intros acc Hacc; cbn [fold_left]; auto.
    apply IH. now apply attackStep_wellFormed. }
  apply H. constructor.
Qed.

Lemma processEvent_wellFormed event l execution cache :
  Forall WF l ->
  Forall WF (branches (fst (processEvent serializeKey computeDamage dexMoveType
                                         event l execution cache))).
Proof.
  intros Hl. destruct event; cbn [processEvent fst plainResult branches].
  - now apply processAttack_wellFormed.
  - now apply processHealingEvent_wellFormed.
  - now apply processHpAdjustment_wellFormed.
  - now apply processStatChange_wellFormed.
  - now apply processStatusEvent_wellFormed.
  - now apply processFieldToggle_wellFormed.
  - now apply processSwitchEvent_wellFormed.
  - assumption.
Qed.

Lemma processAction_wellFormed action l execution cache :
  Forall WF l ->
  Forall WF (branches (fst (processAction serializeKey computeDamage dexMoveType
                                          action l execution cache))).
Proof.
  intros Hl. destruct action; cbn [processAction fst plainResult branches].
  - now apply processAttack_wellFormed.
  - now apply processSwitchEvent_wellFormed.
  - assumption.
Qed.

Lemma runTurns_wellFormed turnsv options execution st :
  Forall WF (simBranches st) ->
  Forall WF (simBranches (runTurns serializeKey computeDamage dexMoveType
                                   turnsv options execution st)).
Proof.
  apply (@runTurns_invariant serializeKey computeDamage dexMoveType
           (fun st => Forall WF (simBranches st)) execution).
  - intros s event Hs. cbn [settle simBranches].
    apply mergeBranches_wellFormed. now apply processEvent_wellFormed.
  - intros s action turnNo Hs. cbn [settle simBranches].
    apply mergeBranches_wellFormed. now apply processAction_wellFormed.
  - intros s Hs. cbn [withBranches simBranches].
    now apply applyLeftoversRecovery_wellFormed.
Qed.

End Simulator.

End WellFormed.

Lemma createInitialBranch_wellFormed pokemon0 field0 :
  wellFormed (maxHP (createInitialBranch pokemon0 field0))
             (createInitialBranch pokemon0 field0).
Proof.
  split; [discriminate|]. split; [reflexivity|].
  intros side. destruct side; cbn; split; reflexivity.
Qed.

(** X21.  Whatever the scenario, every branch that [simulateTimeline] ends with
    has a non-negative probability, the maximum HP that the starting
    state had on both sides (switches included), and combatant records
    whose current and maximum HP repeat those of the branch. *)
Theorem branches_keep_their_bookkeeping
        (serializeKey : DamageCacheKey -> string)
        (computeDamage : BattleSide -> PokemonState -> PokemonState -> MoveConfig ->
                         FieldState -> DamageComputation)
        (dexMoveType : string -> option string)
        (scenario : TimelineScenario) (pokemon0 : PerSide PokemonState)
        (field0 : FieldState) (cache : DamageCache)
        (options : SimulationOptions) (execution : TimelineExecutionOptions) :
  let start := createInitialBranch pokemon0 field0 in
  sideGet (maxHP start) player
  = orElse (orElseOpt (pkMaxHP (onPlayer pokemon0)) (pkCurrentHP (onPlayer pokemon0))) 1 /\
  sideGet (maxHP start) opponent
  = orElse (orElseOpt (pkMaxHP (onOpponent pokemon0)) (pkCurrentHP (onOpponent pokemon0))) 1 /\
  Forall (fun b =>
            0 <= probability b /\
            maxHP b = maxHP start /\
            forall side,
              pkCurrentHP (sideGet (pokemon b) side) = Some (sideGet (hp b) side) /\
              pkMaxHP (sideGet (pokemon b) side) = Some (sideGet (maxHP b) side))
         (simBranches (simulateBranches serializeKey computeDamage dexMoveType
                                        scenario pokemon0 field0 cache options execution)).
Proof.
  intros start. split; [reflexivity|]. split; [reflexivity|].
  unfold simulateBranches.
  apply (@runTurns_wellFormed (maxHP start)).
  cbn [simBranches]. constructor; [|constructor].
  apply createInitialBranch_wellFormed.
Qed.


(** *** The reported numbers are probabilities *)



Section Observation.

Variable serializeKey : DamageCacheKey -> string.
Variable computeDamage :
  BattleSide -> PokemonState -> PokemonState -> MoveConfig -> FieldState ->
  DamageComputation.
Variable dexMoveType : string -> option string.



Variable maxHPs : PerSide Qc.









Hypothesis calculator_rolls : calculatorRolls computeDamage.







End Observation.





End SimulationFacts.

(** ** Summaries of a grid evaluation *)

Module SummaryFacts.

Import Timeline EvGrid NumFacts SortFacts Summary.

Local Open Scope Qc_scope.

(** *** [combineDistributions] *)























(** *** [adjustOpponentBulkConfig] *)

Lemma clampAround_cases (span step : Z) (range : Z * Z) (center : Z) :
  let half := Z.max span (step * 3) in
  let next := clampAround span step range center in
  next = range \/
  (fst next = Z.max (fst range) (center - half) /\
   snd next = Z.min (snd range) (center + half) /\
   (step * 3 <= snd next - fst next)%Z).
Proof.
  destruct range as [lo hi]. unfold clampAround. cbv zeta.
  destruct (Z.ltb_spec (Z.min hi (center + Z.max span (step * 3))
                        - Z.max lo (center - Z.max span (step * 3))) (step * 3)).
  - now left.
  - right. cbn [fst snd]. auto.
Qed.

(** X25.  [adjustOpponentBulkConfig] only ever narrows the search window.  It
    returns the configuration as it is unless the damage-range heatmap
    is wanted for the opponent's bulk range and the configured step is
    below 8.  Otherwise the step becomes 8, the combined limit is capped
    at 252, and each of the HP and Defense ranges is either kept or cut
    to the part of it within 48 EVs of the base Pokemon's own EV, the
    cut being made only when at least 24 EVs remain; the offense fields
    and the prior are kept.  In every case the returned ranges lie inside
    the configured ones. *)
Theorem adjustOpponentBulkConfig_narrows (targetSide : option BattleSide)
        (enableOpponentBulkRange : bool) (evConfig : EVGridConfig)
        (basePokemon : PokemonState) (useDamageRangeHeatmap : bool) :
  let adjusted := adjustOpponentBulkConfig targetSide enableOpponentBulkRange
                                           evConfig basePokemon
                                           useDamageRangeHeatmap in
  let narrowed (range next : Z * Z) (center : Z) :=
    next = range \/
    (fst next = Z.max (fst range) (center - 48) /\
     snd next = Z.min (snd range) (center + 48) /\
     (24 <= snd next - fst next)%Z) in
  (useDamageRangeHeatmap = false \/ targetSide <> Some opponent \/
   enableOpponentBulkRange = false \/ (8 <= axisStep evConfig)%Z ->
   adjusted = evConfig) /\
  (useDamageRangeHeatmap = true -> targetSide = Some opponent ->
   enableOpponentBulkRange = true -> (axisStep evConfig < 8)%Z ->
   axisStep adjusted = 8%Z /\
   narrowed (hpRange evConfig) (hpRange adjusted) (stHp (pkEvs basePokemon)) /\
   narrowed (defRange evConfig) (defRange adjusted) (stDef (pkEvs basePokemon)) /\
   (exists limit, maxCombinedEV adjusted = Some limit /\ (limit <= 252)%Z /\
                  (maxCombinedEV evConfig = None -> limit = 252%Z) /\
                  (forall m, maxCombinedEV evConfig = Some m -> limit = Z.min m 252)) /\
   atkRange adjusted = atkRange evConfig /\
   spaRange adjusted = spaRange evConfig /\
   offenseStep adjusted = offenseStep evConfig /\
   offenseMaxCombinedEV adjusted = offenseMaxCombinedEV evConfig /\
   prior adjusted = prior evConfig) /\
  (fst (hpRange evConfig) <= fst (hpRange adjusted))%Z /\
  (snd (hpRange adjusted) <= snd (hpRange evConfig))%Z /\
  (fst (defRange evConfig) <= fst (defRange adjusted))%Z /\
  (snd (defRange adjusted) <= snd (defRange evConfig))%Z /\
  (axisStep evConfig <= axisStep adjusted)%Z.
Proof.
  intros adjusted narrowed.
  assert (Hactive : useDamageRangeHeatmap = true -> targetSide = Some opponent ->
                    enableOpponentBulkRange = true -> (axisStep evConfig < 8)%Z ->
                    adjusted
                    = mkConfig (clampAround 48 8 (hpRange evConfig)
                                            (stHp (pkEvs basePokemon)))
                               (clampAround 48 8 (defRange evConfig)
                                            (stDef (pkEvs basePokemon)))
                               8
                               (atkRange evConfig) (spaRange evConfig)
                               (offenseStep evConfig)
                               (Some (Z.min (match maxCombinedEV evConfig with
                                             | Some m => m
                                             | None => 252%Z
                                             end) 252))
                               (offenseMaxCombinedEV evConfig) (prior evConfig)).
  { intros -> -> -> Hstep. unfold adjusted, adjustOpponentBulkConfig. cbv zeta.
    cbn [negb orb].
    replace (Z.max (axisStep evConfig) 8) with 8%Z by lia.
    destruct (Z.leb_spec 8 (axisStep evConfig)); [lia|]. reflexivity. }
  assert (Hidle : useDamageRangeHeatmap = false \/ targetSide <> Some opponent \/
                  enableOpponentBulkRange = false \/ (8 <= axisStep evConfig)%Z ->
                  adjusted = evConfig).
  { intros H. unfold adjusted, adjustOpponentBulkConfig. cbv zeta.
    destruct useDamageRangeHeatmap; [|reflexivity].
    destruct targetSide as [[|]|]; cbn [negb orb]; try reflexivity.
    destruct enableOpponentBulkRange; cbn [negb orb]; [|reflexivity].
    destruct H as [H|[H|[H|H]]]; try congruence.
    replace (Z.max (axisStep evConfig) 8) with (axisStep evConfig) by lia.
    rewrite Z.leb_refl. reflexivity. }
  assert (Hcases : adjusted = evConfig \/
                   (useDamageRangeHeatmap = true /\ targetSide = Some opponent /\
                    enableOpponentBulkRange = true /\ (axisStep evConfig < 8)%Z)).
  { destruct useDamageRangeHeatmap; [|left; apply Hidle; auto].
    destruct enableOpponentBulkRange; [|left; apply Hidle; auto].
    destruct (Z.lt_ge_cases (axisStep evConfig) 8); [|left; apply Hidle; auto].
    destruct targetSide as [[|]|]; [left; apply Hidle; right; left; congruence
                                   | right; auto
                                   | left; apply Hidle; right; left; congruence]. }
  split; [exact Hidle|]. split.
  - intros H1 H2 H3 H4. rewrite (Hactive H1 H2 H3 H4).
    cbn [axisStep hpRange defRange maxCombinedEV atkRange spaRange offenseStep
         offenseMaxCombinedEV prior].
    split; [reflexivity|].
    split; [exact (clampAround_cases 48 8 (hpRange evConfig) (stHp (pkEvs basePokemon)))|].
    split; [exact (clampAround_cases 48 8 (defRange evConfig) (stDef (pkEvs basePokemon)))|].
    split; [|repeat split; reflexivity].
    eexists. split; [reflexivity|]. split; [lia|].
    split; [intros ->; reflexivity | intros m ->; reflexivity].
  - destruct Hcases as [->|(H1 & H2 & H3 & H4)]; [repeat split; lia|].
    rewrite (Hactive H1 H2 H3 H4). cbn [axisStep hpRange defRange].
    destruct (clampAround_cases 48 8 (hpRange evConfig) (stHp (pkEvs basePokemon)))
      as [->|(E1 & E2 & _)];
      destruct (clampAround_cases 48 8 (defRange evConfig) (stDef (pkEvs basePokemon)))
        as [->|(E3 & E4 & _)];
      try rewrite E1; try rewrite E2; try rewrite E3; try rewrite E4;
      repeat split; lia.
Qed.

End SummaryFacts.

(** ** The simulation worker: completion and errors *)

Module WorkerFacts.

Import Worker NumFacts WorkerSamples.

Local Open Scope Qc_scope.

Section Orchestration.

Variables Point Summary : Type.
Variable host : Host.
Variable speciesKnown : string -> bool.
Variable evaluatePoint : bool -> Point -> string + Point.
Variable runDeterministic : string + Summary.
Variable defensePoints : list Point.
Variable offensePoints : list Point.
Variable applyLikelihoods : list Point -> list Point.
Variable buildSummary : option (list Point) -> option (list Point) -> Summary.

Let W := World Summary.
Let R := Response Summary.

(** The timeout of a job: [input.options?.timeoutMs ?? 30000]. *)
Definition allowance (input : SimulationInput) : Qc :=
  match timeoutMs input with Some t => t | None => Num.ofZ 30000 end.

Lemma finally_posted (rid : string) (w : W) :
  posted (match activeJob w with
          | Some job => if String.eqb (jobRequestId job) rid
                        then setActiveJob None w else w
          | None => w
          end) = posted w.
Proof.
  destruct (activeJob w) as [job|]; [|reflexivity].
  destruct (String.eqb _ _); reflexivity.
Qed.

(** *** Where errors come from *)

Lemma gridLoop_threw rid optimizeOffense batch total start timeoutAt
      (remaining : list Point) message :
  forall (done : list Point) (w : W),
    snd (gridLoop host evaluatePoint rid optimizeOffense batch total
                  start timeoutAt remaining done w) = inl (exitThrew message) ->
    exists point, In point remaining /\
                  evaluatePoint optimizeOffense point = inl message.
Proof.
  induction remaining as [|point rest IH]; intros done w; cbn [gridLoop].
  - discriminate.
  - destruct (activeJob w) as [job|]; [|discriminate].
    destruct (negb (String.eqb (jobRequestId job) rid)); [discriminate|].
    destruct (jobCancelled job); [discriminate|].
    destruct (evaluatePoint optimizeOffense point) as [thrown|evaluated] eqn:E.
    + intros [= <-]. exists point. split; [now left | exact E].
    + cbv zeta. unfold now. cbv beta iota zeta.
      destruct (Num.ltb timeoutAt _); [discriminate|].
      intros H. destruct (IH _ _ H) as (p & Hp & Ep). exists p. split; [now right | exact Ep].
Qed.

Lemma evaluateGridPoints_threw rid optimizeOffense (gridPoints : list Point)
      batch start timeoutAt (w : W) message :
  snd (evaluateGridPoints host evaluatePoint applyLikelihoods rid optimizeOffense
                          gridPoints batch start timeoutAt w)
  = inl (exitThrew message) ->
  exists point, In point gridPoints /\
                evaluatePoint optimizeOffense point = inl message.
Proof.
  unfold evaluateGridPoints. cbv zeta. unfold now. cbv beta iota zeta.
  match goal with
  | |- context [gridLoop host evaluatePoint rid optimizeOffense batch ?t start
                         timeoutAt gridPoints [] ?w2] =>
      pose proof (@gridLoop_threw rid optimizeOffense batch t start timeoutAt
                    gridPoints message [] w2) as H;
      destruct (gridLoop host evaluatePoint rid optimizeOffense batch t start
                         timeoutAt gridPoints [] w2) as [w3 [e|points]]
  end; cbn [fst snd] in *; [exact H | discriminate].
Qed.

(** X26.  Every error that an invocation of [runSimulation] reports, other than
    a timeout, has one of four origins: the request carries no EV grid
    configuration; the species of one of the two Pokemon is unknown; the
    grid is disabled and the single deterministic run threw; the grid is
    enabled and the evaluation of one of its points threw.  The messages
    are those of the source, and the message of the check that follows
    the grid evaluations is among them only if the simulator threw it. *)
Theorem runSimulation_error_origins (input : SimulationInput) (w : W)
        (message : string) :
  snd (runSimulation host speciesKnown evaluatePoint runDeterministic
                     defensePoints offensePoints applyLikelihoods buildSummary
                     input w) = inl (exitThrew message) ->
  (hasEvConfig input = false /\
   message = "EV grid config is required"%string) \/
  (hasEvConfig input = true /\
   speciesKnown (playerSpecies input) = false /\
   message = ("Unknown species: " ++ playerSpecies input)%string) \/
  (hasEvConfig input = true /\
   speciesKnown (playerSpecies input) = true /\
   speciesKnown (opponentSpecies input) = false /\
   message = ("Unknown species: " ++ opponentSpecies input)%string) \/
  (hasEvConfig input = true /\ enabled input = false /\
   runDeterministic = inl message) \/
  (hasEvConfig input = true /\ enabled input = true /\
   ((exists point, In point defensePoints /\ evaluatePoint false point = inl message) \/
    (exists point, In point offensePoints /\ evaluatePoint true point = inl message))).
Proof.
  unfold runSimulation. cbv zeta. unfold now. cbv beta iota zeta.
  match goal with
  | |- context [runBody _ _ _ _ _ _ _ _ input ?start ?w1] =>
      set (body := runBody host speciesKnown evaluatePoint runDeterministic
                           defensePoints offensePoints applyLikelihoods buildSummary
                           input start w1);
      assert (Hbody : body = runBody host speciesKnown evaluatePoint runDeterministic
                           defensePoints offensePoints applyLikelihoods buildSummary
                           input start w1) by reflexivity;
      clearbody body
  end.
  destruct body as [w2 outcome]. cbn [snd]. intros ->.
  apply (f_equal snd) in Hbody. cbn [snd] in Hbody. symmetry in Hbody.
  cbn [setActiveJob clockReads] in Hbody.
  revert Hbody. unfold runBody. cbv zeta.
  destruct (hasEvConfig input); cbn [negb]; [|intros [= <-]; auto].
  destruct (speciesKnown (playerSpecies input)); cbn [negb];
    [|intros [= <-]; right; left; auto].
  destruct (speciesKnown (opponentSpecies input)); cbn [negb];
    [|intros [= <-]; right; right; left; auto].
  destruct (enabled input); cbn [negb andb orb].
  2: { destruct runDeterministic as [thrown|summary]; [|discriminate].
       intros [= <-]. right. right. right. left. auto. }
  intros H. right. right. right. right. split; [reflexivity|]. split; [reflexivity|].
  revert H.
  set (batch := Z.to_nat _). set (timeoutAt := _ + _).
  set (w1 := post _ _).
  assert (Hdefense :
            forall (w3 : W) e,
              snd (evaluateGridPoints host evaluatePoint applyLikelihoods
                     (requestId input) false defensePoints batch
                     (clock host (clockReads w)) timeoutAt w3) = inl e ->
              e = exitThrew message ->
              exists point, In point defensePoints /\
                            evaluatePoint false point = inl message).
  { intros w3 e E ->. exact (evaluateGridPoints_threw _ _ _ _ _ _ _ E). }
  assert (Hoffense :
            forall (w3 : W) e,
              snd (evaluateGridPoints host evaluatePoint applyLikelihoods
                     (requestId input) true offensePoints batch
                     (clock host (clockReads w)) timeoutAt w3) = inl e ->
              e = exitThrew message ->
              exists point, In point offensePoints /\
                            evaluatePoint true point = inl message).
  { intros w3 e E ->. exact (evaluateGridPoints_threw _ _ _ _ _ _ _ E). }
  destruct (enableKO input), (enableSurvival input); cbn [negb orb];
    repeat match goal with
      | |- context [evaluateGridPoints host evaluatePoint applyLikelihoods
                      (requestId input) ?opt ?pts batch ?start timeoutAt ?w0] =>
          let E := fresh "E" in
          destruct (evaluateGridPoints host evaluatePoint applyLikelihoods
                      (requestId input) opt pts batch start timeoutAt w0)
            as [? [?|?]] eqn:E;
          apply (f_equal snd) in E; cbn [snd] in E;
          cbv beta iota delta [fst snd]
      end;
    try discriminate;
    intros [= ->]; eauto.
Qed.

(** *** Jobs that run undisturbed *)

Section Undisturbed.

(** No message handler touches the job slot during a yield, none of the
    first [readings] clock readings lies past the deadline, and no
    evaluation throws. *)
Variable evaluated : bool -> Point -> Point.
Variable timeoutAt : Qc.
Variable readings : nat.
Hypothesis quiet : forall n job, duringTick host n job = job.
Hypothesis in_time : forall n, (n < readings)%nat -> clock host n <= timeoutAt.
Hypothesis evaluates : forall optimizeOffense point,
    evaluatePoint optimizeOffense point = inr (evaluated optimizeOffense point).

Lemma reportBatch_quiet rid batch total start processed (w : W) :
  activeJob (reportBatch host rid batch total start processed w) = activeJob w /\
  (clockReads (reportBatch host rid batch total start processed w)
   <= S (clockReads w))%nat /\
  exists pr, posted (reportBatch host rid batch total start processed w)
             = posted w ++ pr /\ Forall (@WorkerSpec.isProgress Summary) pr.
Proof.
  unfold reportBatch. destruct (_ || _).
  - unfold now, tick, post. cbn [activeJob posted clockReads].
    split; [apply quiet|]. split; [lia|].
    eexists. split; [reflexivity|]. repeat constructor.
  - split; [reflexivity|]. split; [lia|].
    exists []. split; [now rewrite app_nil_r | constructor].
Qed.

Lemma gridLoop_quiet rid optimizeOffense batch total start (remaining : list Point) :
  forall (done : list Point) (w : W),
    activeJob w = Some (mkJob rid false) ->
    (clockReads w + 2 * length remaining <= readings)%nat ->
    exists (w' : W) pr,
      gridLoop host evaluatePoint rid optimizeOffense batch total start timeoutAt
               remaining done w
      = (w', inr (done ++ map (evaluated optimizeOffense) remaining)) /\
      activeJob w' = Some (mkJob rid false) /\
      (clockReads w' <= clockReads w + 2 * length remaining)%nat /\
      posted w' = posted w ++ pr /\
      Forall (@WorkerSpec.isProgress Summary) pr.
Proof.
  induction remaining as [|point rest IH]; intros done w Hjob Hreads;
    cbn [gridLoop map].
  - exists w, []. rewrite !app_nil_r. repeat split; auto. simpl. lia.
  - rewrite Hjob. cbn [jobRequestId jobCancelled]. rewrite String.eqb_refl.
    cbn [negb]. rewrite evaluates. cbv zeta.
    destruct (@reportBatch_quiet rid batch total start (S (length done)) w)
      as (Hactive & Hclock & pre & Epre & Hpre).
    set (w1 := reportBatch host rid batch total start (S (length done)) w) in *.
    unfold now. cbv beta iota zeta.
    cbn [length] in Hreads.
    replace (Num.ltb timeoutAt (clock host (clockReads w1))) with false.
    2: { symmetry. unfold Num.ltb. apply negb_false_iff.
         apply (proj2 (leb_le _ _)). apply in_time. lia. }
    destruct (IH (done ++ [evaluated optimizeOffense point])
                 (mkWorld (activeJob w1) (S (clockReads w1)) (ticks w1) (posted w1)))
      as (w' & pr & E & Hactive' & Hclock' & Eposted & Hpr).
    { cbn [activeJob]. now rewrite Hactive. }
    { cbn [clockReads]. lia. }
    exists w', (pre ++ pr). rewrite E, <- app_assoc. cbn [app].
    split; [reflexivity|]. split; [assumption|].
    split; [cbn [clockReads length] in *; lia|].
    split; [rewrite Eposted; cbn [posted]; rewrite Epre; now rewrite app_assoc|].
    apply Forall_app. auto.
Qed.

Lemma evaluateGridPoints_quiet rid optimizeOffense (gridPoints : list Point)
      batch start (w : W) :
  activeJob w = Some (mkJob rid false) ->
  (clockReads w + 1 + 2 * length gridPoints <= readings)%nat ->
  exists (w' : W) pr,
    evaluateGridPoints host evaluatePoint applyLikelihoods rid optimizeOffense
                       gridPoints batch start timeoutAt w
    = (w', inr (if optimizeOffense
                then map (evaluated true) gridPoints
                else applyLikelihoods (map (evaluated false) gridPoints))) /\
    activeJob w' = Some (mkJob rid false) /\
    (clockReads w' <= clockReads w + 1 + 2 * length gridPoints)%nat /\
    posted w' = posted w ++ pr /\
    Forall (@WorkerSpec.isProgress Summary) pr.
Proof.
  intros Hjob Hreads. unfold evaluateGridPoints. cbv zeta. unfold now.
  cbv beta iota zeta.
  match goal with
  | |- context [gridLoop host evaluatePoint rid optimizeOffense batch ?t start
                         timeoutAt gridPoints [] ?w2] =>
      destruct (@gridLoop_quiet rid optimizeOffense batch t start gridPoints [] w2 Hjob)
        as (w' & pr & E & Hactive & Hclock & Eposted & Hpr);
      [cbn [post clockReads]; lia|]
  end.
  rewrite E. cbn [app post clockReads] in *.
  exists w', (progress rid 0 (length gridPoints) (clock host (clockReads w) - start)
                       processing :: pr).
  split; [destruct optimizeOffense; reflexivity|].
  split; [assumption|].
  split; [lia|].
  split; [rewrite Eposted; cbn [posted post]; now rewrite <- app_assoc|].
  constructor; [exact I | assumption].
Qed.

End Undisturbed.

(** X27.  A request that carries a configuration and names two known species
    runs to completion when nothing disturbs it: if no message handler
    changes the job slot while the job yields, none of the clock readings
    that the job can make (three, and two for every grid point) lies past
    the deadline (the start time plus [timeoutMs], 30000 by default) and
    the simulator never throws, the invocation ends normally with the job
    slot released, having posted progress responses followed by one
    [complete] response.  With the grid disabled the summary is that of
    the single deterministic run; otherwise it is built from the defense
    grid (every point evaluated in order, then reweighted by the
    observation likelihoods) when KO optimisation is off or survival is
    on, and from the offense grid (every point evaluated in order) when
    KO optimisation is on. *)
Theorem undisturbed_job_completes (input : SimulationInput) (w : W)
        (evaluated : bool -> Point -> Point) (deterministic : Summary) :
  hasEvConfig input = true ->
  speciesKnown (playerSpecies input) = true ->
  speciesKnown (opponentSpecies input) = true ->
  (forall n job, duringTick host n job = job) ->
  (forall n,
      (n < clockReads w + 3 + 2 * (length defensePoints + length offensePoints))%nat ->
      clock host n <= clock host (clockReads w) + allowance input) ->
  (forall optimizeOffense point,
      evaluatePoint optimizeOffense point = inr (evaluated optimizeOffense point)) ->
  runDeterministic = inr deterministic ->
  let run := runSimulation host speciesKnown evaluatePoint runDeterministic
                           defensePoints offensePoints applyLikelihoods buildSummary
                           input w in
  let summary :=
    if enabled input then
      buildSummary
        (if negb (enableKO input) || enableSurvival input
         then Some (applyLikelihoods (map (evaluated false) defensePoints))
         else None)
        (if enableKO input
         then Some (map (evaluated true) offensePoints)
         else None)
    else deterministic in
  snd run = inr tt /\
  activeJob (fst run) = None /\
  exists pr, posted (fst run) = posted w ++ pr ++ [complete (requestId input) summary] /\
             Forall (@WorkerSpec.isProgress Summary) pr.
Proof.
  intros Hconfig Hplayer Hopponent Hquiet Htime Heval Hdet run summary.
  set (rid := requestId input) in *.
  set (p0 := progress rid 0 0 0 initializing : R).
  set (readings := (clockReads w + 3
                    + 2 * (length defensePoints + length offensePoints))%nat) in *.
  set (timeoutAt := clock host (clockReads w) + allowance input) in *.
  set (w1 := post p0 (mkWorld (Some (mkJob rid false)) (S (clockReads w)) (ticks w)
                              (posted w)) : W).
  assert (Hp0 : Forall (@WorkerSpec.isProgress Summary) [p0])
    by (constructor; [exact I | constructor]).
  pose proof (@evaluateGridPoints_quiet evaluated timeoutAt readings Hquiet Htime Heval)
    as Hgrid.
  assert (Hbody :
            exists (w' : W) pr,
              runBody host speciesKnown evaluatePoint runDeterministic
                      defensePoints offensePoints applyLikelihoods buildSummary
                      input (clock host (clockReads w))
                      (mkWorld (Some (mkJob rid false)) (S (clockReads w)) (ticks w)
                               (posted w))
              = (w', inr tt) /\
              activeJob w' = Some (mkJob rid false) /\
              posted w' = posted w ++ pr ++ [complete rid summary] /\
              Forall (@WorkerSpec.isProgress Summary) pr).
  { unfold runBody. cbv zeta. fold rid. rewrite Hconfig, Hplayer, Hopponent.
    cbn [negb]. fold (allowance input). fold timeoutAt. fold p0. fold w1.
    set (batch := Z.to_nat _).
    subst summary. destruct (enabled input); cbn [negb andb orb].
    2: { rewrite Hdet. exists (post (complete rid deterministic) w1), [p0].
         split; [reflexivity|]. split; [reflexivity|].
         split; [unfold w1; cbn [post posted]; rewrite <- app_assoc; reflexivity | exact Hp0]. }
    destruct (enableKO input), (enableSurvival input); cbn [negb orb].
    - destruct (Hgrid rid false defensePoints batch (clock host (clockReads w)) w1)
        as (w2 & pr2 & E2 & Hjob2 & Hclock2 & Eposted2 & Hpr2);
        [reflexivity | unfold w1; cbn [post clockReads]; lia |].
      rewrite E2. cbv beta iota.
      destruct (Hgrid rid true offensePoints batch (clock host (clockReads w)) w2)
        as (w3 & pr3 & E3 & Hjob3 & Hclock3 & Eposted3 & Hpr3);
        [assumption | unfold w1 in Hclock2; cbn [post clockReads] in Hclock2; lia |].
      rewrite E3. cbv beta iota.
      eexists. exists ([p0] ++ pr2 ++ pr3). split; [reflexivity|].
      split; [assumption|].
      split; [cbn [post posted]; rewrite Eposted3, Eposted2; unfold w1; cbn [post posted];
              now rewrite <- !app_assoc|].
      repeat (apply Forall_app; split); auto.
    - destruct (Hgrid rid true offensePoints batch (clock host (clockReads w)) w1)
        as (w3 & pr3 & E3 & Hjob3 & Hclock3 & Eposted3 & Hpr3);
        [reflexivity | unfold w1; cbn [post clockReads]; lia |].
      rewrite E3. cbv beta iota.
      eexists. exists ([p0] ++ pr3). split; [reflexivity|].
      split; [assumption|].
      split; [cbn [post posted]; rewrite Eposted3; unfold w1; cbn [post posted];
              now rewrite <- !app_assoc|].
      repeat (apply Forall_app; split); auto.
    - destruct (Hgrid rid false defensePoints batch (clock host (clockReads w)) w1)
        as (w2 & pr2 & E2 & Hjob2 & Hclock2 & Eposted2 & Hpr2);
        [reflexivity | unfold w1; cbn [post clockReads]; lia |].
      rewrite E2. cbv beta iota.
      eexists. exists ([p0] ++ pr2). split; [reflexivity|].
      split; [assumption|].
      split; [cbn [post posted]; rewrite Eposted2; unfold w1; cbn [post posted];
              now rewrite <- !app_assoc|].
      repeat (apply Forall_app; split); auto.
    - destruct (Hgrid rid false defensePoints batch (clock host (clockReads w)) w1)
        as (w2 & pr2 & E2 & Hjob2 & Hclock2 & Eposted2 & Hpr2);
        [reflexivity | unfold w1; cbn [post clockReads]; lia |].
      rewrite E2. cbv beta iota.
      eexists. exists ([p0] ++ pr2). split; [reflexivity|].
      split; [assumption|].
      split; [cbn [post posted]; rewrite Eposted2; unfold w1; cbn [post posted];
              now rewrite <- !app_assoc|].
      repeat (apply Forall_app; split); auto. }
  destruct Hbody as (w' & pr & Ebody & Hjob & Eposted & Hpr).
  subst run. unfold runSimulation. cbv zeta. unfold now. cbv beta iota zeta.
  cbn [setActiveJob clockReads activeJob ticks posted]. fold rid.
  rewrite Ebody. cbn [fst snd].
  rewrite Hjob. cbn [jobRequestId]. rewrite String.eqb_refl.
  split; [reflexivity|]. split; [reflexivity|].
  exists pr. split; [exact Eposted | exact Hpr].
Qed.

End Orchestration.

(** A request without an EV grid configuration. *)
Definition requestWithoutConfig : SimulationInput :=
  {| requestId := "job-2";
     hasEvConfig := false;
     enabled := true;
     enableKO := false;
     enableSurvival := true;
     playerSpecies := "Garchomp";
     opponentSpecies := "Dragonite";
     batchSize := None;
     timeoutMs := None |}.

Lemma runSimulation_error_origins_witness :
  snd (runSimulation quietHost (fun _ => true) sampleEvaluate (inr O)
                     samplePoints samplePoints (fun points => points) sampleSummary
                     requestWithoutConfig idleWorld)
  = inl (exitThrew "EV grid config is required") /\
  hasEvConfig requestWithoutConfig = false.
Proof.
  assert (H : snd (runSimulation quietHost (fun _ => true) sampleEvaluate (inr O)
                     samplePoints samplePoints (fun points => points) sampleSummary
                     requestWithoutConfig idleWorld)
              = inl (exitThrew "EV grid config is required"))
    by (vm_compute; reflexivity).
  split; [exact H|].
  destruct (@runSimulation_error_origins nat nat quietHost (fun _ => true)
              sampleEvaluate (inr O) samplePoints samplePoints (fun points => points)
              sampleSummary requestWithoutConfig idleWorld _ H)
    as [[Hc _]|[[Hc _]|[[Hc _]|[[Hc _]|[Hc _]]]]];
    [exact Hc | discriminate Hc | discriminate Hc | discriminate Hc | discriminate Hc].
Defined.

Lemma undisturbed_job_completes_witness :
  snd (sampleRun quietHost) = inr tt /\
  activeJob (fst (sampleRun quietHost)) = None.
Proof.
  assert (Htime : forall n,
             (n < clockReads idleWorld + 3
                  + 2 * (length samplePoints + length samplePoints))%nat ->
             clock quietHost n
             <= clock quietHost (clockReads idleWorld) + allowance sampleInput).
  { intros n Hn. cbn [clock quietHost clockReads idleWorld allowance timeoutMs
                      sampleInput samplePoints length] in *.
    unfold Num.ofNat. rewrite <- ofZ_plus. apply ofZ_le. lia. }
  destruct (@undisturbed_job_completes nat nat quietHost (fun _ => true)
              sampleEvaluate (inr O) samplePoints samplePoints (fun points => points)
              sampleSummary sampleInput idleWorld (fun _ point => point) O
              eq_refl eq_refl eq_refl (fun _ _ => eq_refl) Htime
              (fun _ _ => eq_refl) eq_refl) as (H1 & H2 & _).
  split; [exact H1 | exact H2].
Defined.

End WorkerFacts.

